(** * LinearMatcher: a shallow embedding of the prospect matcher

    The development follows [LinearMatcher.js]: text normalisation, the
    name and company pattern generators, automaton construction over the
    pattern map, the boundary validator, the streaming scanner with its
    overlap window, classification of hit records, and de-duplication.

    Conventions.
    - A JavaScript string is a [list ascii]; the model covers 7-bit ASCII
      text, on which Unicode NFD and the removal of combining marks are
      the identity.  Code units above 127 are kept as symbols that are
      neither word characters nor white space.
    - Indices and lengths are integers ([Z]); [text[i]] out of range is
      [None] (JavaScript's [undefined]).
    - A JavaScript [Map] is an association list in insertion order:
      [set] on a present key replaces the value where it stands, on an
      absent key appends.
    - Regular expressions are terms of a small backtracking matcher with
      JavaScript's priorities (greedy [+], ordered alternation). *)

From Stdlib Require Import Strings.Ascii Strings.String.
From Stdlib Require Import List Bool Arith ZArith NArith Lia.
From Stdlib Require Import Sorting.Permutation Sorting.Sorted.
Import ListNotations.

Local Open Scope Z_scope.

(* ================================================================== *)
(** * Part I: definitions                                              *)
(* ================================================================== *)

(** ** Strings *)

Definition jsstring := list ascii.

Definition str (s : string) : jsstring := list_ascii_of_string s.
Arguments str s%_string.

Definition len (s : jsstring) : Z := Z.of_nat (length s).

Fixpoint str_eqb (a b : jsstring) : bool :=
  match a, b with
  | [], [] => true
  | x :: a', y :: b' => Ascii.eqb x y && str_eqb a' b'
  | _, _ => false
  end.

(** [text[i]] *)
Definition char_at (s : jsstring) (i : Z) : option ascii :=
  if i <? 0 then None else nth_error s (Z.to_nat i).

(** [String.prototype.slice(from, to)], negative indices counted from
    the end, both clamped to the string. *)
Definition clamp_index (s : jsstring) (i : Z) : Z :=
  if i <? 0 then Z.max (len s + i) 0 else Z.min i (len s).

Definition slice (s : jsstring) (from to : Z) : jsstring :=
  let a := clamp_index s from in
  let b := clamp_index s to in
  firstn (Z.to_nat (b - a)) (skipn (Z.to_nat a) s).

(** [s.slice(from)] *)
Definition slice_from (s : jsstring) (from : Z) : jsstring :=
  slice s from (len s).

(** ** Character classes (ASCII) *)

Definition code (c : ascii) : N := N_of_ascii c.

Definition in_range (lo hi : N) (c : ascii) : bool :=
  ((lo <=? code c) && (code c <=? hi))%N.

Definition isNumber (c : ascii) : bool := in_range 48 57 c.
Definition isUpper (c : ascii) : bool := in_range 65 90 c.
Definition isLower (c : ascii) : bool := in_range 97 122 c.
Definition isLetter (c : ascii) : bool := isUpper c || isLower c.

(** [\w] *)
Definition isWordChar (c : ascii) : bool :=
  isLetter c || isNumber c || (code c =? 95)%N.

(** [\s] restricted to ASCII: tab, line feed, vertical tab, form feed,
    carriage return, space. *)
Definition isSpace (c : ascii) : bool :=
  in_range 9 13 c || (code c =? 32)%N.

Definition is_char (x : ascii) (c : ascii) : bool := Ascii.eqb x c.

Definition toLowerChar (c : ascii) : ascii :=
  if isUpper c then ascii_of_N (code c + 32) else c.

Definition toLowerCase (s : jsstring) : jsstring := map toLowerChar s.

Definition space : ascii := " "%char.

(** ** Regular expressions *)

Module Regex.

Inductive regex : Type :=
| Eps
| Chr (p : ascii -> bool)
| Plus (p : ascii -> bool)
| WordB
| Seq (a b : regex)
| Alt (a b : regex).

Definition Opt (r : regex) : regex := Alt r Eps.

Definition is_word_opt (o : option ascii) : bool :=
  match o with Some c => isWordChar c | None => false end.

(** [p+] followed by the continuation [k]: longest run first, then
    shorter ones. *)
Fixpoint plus_loop (p : ascii -> bool)
         (k : option ascii -> jsstring -> option jsstring)
         (prev : option ascii) (s : jsstring) : option jsstring :=
  match s with
  | [] => None
  | c :: s' =>
      if p c then
        match plus_loop p k (Some c) s' with
        | Some r => Some r
        | None => k (Some c) s'
        end
      else None
  end.

(** Backtracking match of [r] at the head of [s], [prev] being the
    character before it; the result is what is left of the input. *)
Fixpoint rmatch (r : regex) (prev : option ascii) (s : jsstring)
         (k : option ascii -> jsstring -> option jsstring)
  : option jsstring :=
  match r with
  | Eps => k prev s
  | Chr p =>
      match s with
      | c :: s' => if p c then k (Some c) s' else None
      | [] => None
      end
  | Plus p => plus_loop p k prev s
  | WordB =>
      if xorb (is_word_opt prev) (is_word_opt (hd_error s))
      then k prev s else None
  | Seq a b => rmatch a prev s (fun prev' s' => rmatch b prev' s' k)
  | Alt a b =>
      match rmatch a prev s k with
      | Some x => Some x
      | None => rmatch b prev s k
      end
  end.

Definition match_here (r : regex) (prev : option ascii) (s : jsstring)
  : option jsstring :=
  rmatch r prev s (fun _ rest => Some rest).

(** [regex.test(s)]: a match starting anywhere. *)
Fixpoint test_from (r : regex) (prev : option ascii) (s : jsstring)
  : bool :=
  match match_here r prev s with
  | Some _ => true
  | None =>
      match s with
      | [] => false
      | c :: s' => test_from r (Some c) s'
      end
  end.

Definition test (r : regex) (s : jsstring) : bool := test_from r None s.

(** [s.replace(/r/g, repl)]: [skip] counts the characters of the
    current match still to be dropped. *)
Fixpoint replace_go (r : regex) (repl : jsstring) (prev : option ascii)
         (skip : nat) (s : jsstring) : jsstring :=
  match s with
  | [] =>
      match skip, match_here r prev [] with
      | O, Some _ => repl
      | _, _ => []
      end
  | c :: s' =>
      match skip with
      | S n => replace_go r repl (Some c) n s'
      | O =>
          match match_here r prev s with
          | Some rest =>
              match (length s - length rest)%nat with
              | O => repl ++ c :: replace_go r repl (Some c) O s'
              | S n => repl ++ replace_go r repl (Some c) n s'
              end
          | None => c :: replace_go r repl (Some c) O s'
          end
      end
  end.

Definition replace_all (r : regex) (repl : jsstring) (s : jsstring)
  : jsstring :=
  replace_go r repl None O s.

(** A literal, and a literal under the [i] flag. *)
Fixpoint lit (s : jsstring) : regex :=
  match s with
  | [] => Eps
  | c :: s' => Seq (Chr (is_char c)) (lit s')
  end.

Definition is_char_ci (x : ascii) (c : ascii) : bool :=
  Ascii.eqb (toLowerChar x) (toLowerChar c).

Fixpoint lit_ci (s : jsstring) : regex :=
  match s with
  | [] => Eps
  | c :: s' => Seq (Chr (is_char_ci c)) (lit_ci s')
  end.

Fixpoint alts (rs : list regex) : regex :=
  match rs with
  | [] => Chr (fun _ => false)
  | [r] => r
  | r :: rs' => Alt r (alts rs')
  end.

End Regex.

(** [String.prototype.trim] *)
Fixpoint trimStart (s : jsstring) : jsstring :=
  match s with
  | c :: s' => if isSpace c then trimStart s' else s
  | [] => []
  end.

Definition trimEnd (s : jsstring) : jsstring := rev (trimStart (rev s)).

Definition trim (s : jsstring) : jsstring := trimEnd (trimStart s).

(** [s.split(sep)] for a one-character separator. *)
Fixpoint split_on (sep : ascii) (s : jsstring) : list jsstring :=
  match s with
  | [] => [[]]
  | c :: s' =>
      if Ascii.eqb c sep then [] :: split_on sep s'
      else match split_on sep s' with
           | t :: ts => (c :: t) :: ts
           | [] => [[c]]
           end
  end.

(** ** normalizeText *)

(** [.normalize('NFD').replace(/[\u0300-\u036f]/g, '')]: the identity on
    ASCII text. *)
Definition stripAccents (s : jsstring) : jsstring := s.

Definition normalizeTextChunk (text : jsstring) : jsstring :=
  trim
    (Regex.replace_all (Regex.Plus isSpace) [space]
       (Regex.replace_all
          (Regex.Chr (fun c => negb (isWordChar c || isSpace c))) [space]
          (stripAccents (toLowerCase text)))).

Definition MAX_CHUNK_SIZE : Z := 1024 * 1024.

(** The loop [for (i = 0; i < text.length; i += MAX_CHUNK_SIZE)]. *)
Fixpoint normalizeSlices (fuel : nat) (text : jsstring) : jsstring :=
  match fuel with
  | O => []
  | S fuel' =>
      match text with
      | [] => []
      | _ =>
          normalizeTextChunk (firstn (Z.to_nat MAX_CHUNK_SIZE) text)
          ++ normalizeSlices fuel' (skipn (Z.to_nat MAX_CHUNK_SIZE) text)
      end
  end.

Definition normalizeText (text : jsstring) : jsstring :=
  match text with
  | [] => []
  | _ =>
      if MAX_CHUNK_SIZE <? len text
      then normalizeSlices (length text) text
      else normalizeTextChunk text
  end.

(** ** JavaScript [Map] with string keys, in insertion order *)

Module JsMap.

Definition t (V : Type) : Type := list (jsstring * V).

Definition empty {V : Type} : t V := [].

Fixpoint get {V : Type} (k : jsstring) (m : t V) : option V :=
  match m with
  | [] => None
  | (k', v) :: m' => if str_eqb k k' then Some v else get k m'
  end.

Definition has {V : Type} (k : jsstring) (m : t V) : bool :=
  match get k m with Some _ => true | None => false end.

Fixpoint set {V : Type} (k : jsstring) (v : V) (m : t V) : t V :=
  match m with
  | [] => [(k, v)]
  | (k', v') :: m' =>
      if str_eqb k k' then (k, v) :: m' else (k', v') :: set k v m'
  end.

Definition keys {V : Type} (m : t V) : list jsstring := map fst m.

Definition values {V : Type} (m : t V) : list V := map snd m.

End JsMap.

(** ** [Array.prototype.sort(compare)]: a stable sort *)

Fixpoint insertBy {A : Type} (compare : A -> A -> Z) (x : A) (l : list A)
  : list A :=
  match l with
  | [] => [x]
  | y :: l' =>
      if compare x y <=? 0 then x :: l else y :: insertBy compare x l'
  end.

Fixpoint sortBy {A : Type} (compare : A -> A -> Z) (l : list A) : list A :=
  match l with
  | [] => []
  | x :: l' => insertBy compare x (sortBy compare l')
  end.

(** ** Prospects, variations, patterns *)

Record Prospect : Type := {
  id : jsstring;
  name : jsstring;
  company : jsstring
}.

Inductive VariationType : Type :=
| first_last_exact
| first_last_with_initial
| company_root.

(** The fields only name variations carry; [allowInitial] is absent
    (falsy) on the exact variation. *)
Record NameParts : Type := {
  firstName : jsstring;
  lastName : jsstring;
  allowInitial : bool
}.

Record Variation : Type := {
  text : jsstring;
  vtype : VariationType;
  parts : option NameParts
}.

Definition tokensOf (normalized : jsstring) : list jsstring :=
  filter (fun t => 0 <? len t) (split_on space normalized).

Definition generateNamePatterns (fullName : jsstring) : list Variation :=
  let normalized := normalizeText fullName in
  let tokens := tokensOf normalized in
  if Z.of_nat (length tokens) <? 2 then []
  else
    let firstName := nth 0 tokens [] in
    let lastName := nth (length tokens - 1) tokens [] in
    if (len firstName <? 2) || (len lastName <? 2) then []
    else
      [ {| text := firstName ++ space :: lastName;
           vtype := first_last_exact;
           parts := Some {| firstName := firstName;
                            lastName := lastName;
                            allowInitial := false |} |};
        {| text := firstName ++ space :: lastName;
           vtype := first_last_with_initial;
           parts := Some {| firstName := firstName;
                            lastName := lastName;
                            allowInitial := true |} |} ].

Definition legalSuffixes : list jsstring :=
  [ str "inc"; str "incorporated"; str "corp"; str "corporation";
    str "company"; str "co"; str "llc"; str "ltd"; str "limited";
    str "plc"; str "lp"; str "l p" ].

(** [/\b(inc|incorporated|...|l p)\b/] *)
Definition suffixRegex : Regex.regex :=
  Regex.Seq Regex.WordB
    (Regex.Seq (Regex.alts (map Regex.lit legalSuffixes)) Regex.WordB).

Definition companyRoot (normalized : jsstring) : jsstring :=
  trim
    (Regex.replace_all (Regex.Plus isSpace) [space]
       (Regex.replace_all suffixRegex [] normalized)).

Definition generateCompanyPatterns (companyName : jsstring)
  : list Variation :=
  let normalized := normalizeText companyName in
  if (len normalized =? 0) || (len normalized <? 3) then []
  else
    let root := companyRoot normalized in
    if len root <? 3 then []
    else [ {| text := root; vtype := company_root; parts := None |} ].

(** ** buildAutomaton *)

Inductive PatternType : Type := NamePattern | CompanyPattern.

(** [{prospectId: prospect.id, ...variation}] *)
Record PatternVariation : Type := {
  pv_prospectId : jsstring;
  pv_variation : Variation
}.

Record PatternInfo : Type := {
  ptype : PatternType;
  prospectIds : list jsstring;
  variations : list PatternVariation
}.

Definition BuildState : Type := (JsMap.t PatternInfo * list jsstring)%type.

(** One run of the [forEach] body: create the entry when the pattern is
    new, then push the prospect id and the variation onto the entry. *)
Definition registerVariation (ty : PatternType) (prospectId : jsstring)
           (st : BuildState) (variation : Variation) : BuildState :=
  let '(patternMap, allPatterns) := st in
  let pattern := text variation in
  let patternInfo :=
    match JsMap.get pattern patternMap with
    | Some info => info
    | None => {| ptype := ty; prospectIds := []; variations := [] |}
    end in
  let allPatterns' :=
    if JsMap.has pattern patternMap then allPatterns
    else allPatterns ++ [pattern] in
  (JsMap.set pattern
     {| ptype := ptype patternInfo;
        prospectIds := prospectIds patternInfo ++ [prospectId];
        variations := variations patternInfo
                      ++ [ {| pv_prospectId := prospectId;
                              pv_variation := variation |} ] |}
     patternMap,
   allPatterns').

Definition registerProspect (st : BuildState) (prospect : Prospect)
  : BuildState :=
  let st1 :=
    fold_left (registerVariation NamePattern (id prospect))
              (generateNamePatterns (name prospect)) st in
  fold_left (registerVariation CompanyPattern (id prospect))
            (generateCompanyPatterns (company prospect)) st1.

Definition buildPatterns (prospects : list Prospect) : BuildState :=
  fold_left registerProspect prospects (JsMap.empty, []).

(** [new AhoCorasick(allPatterns)]: the automaton is determined by its
    keyword list. *)
Record Automaton : Type := { keywords : list jsstring }.

Record LinearMatcher : Type := {
  prospects : list Prospect;
  patternMap : JsMap.t PatternInfo;
  automaton : Automaton
}.

Definition buildAutomaton (prospects : list Prospect) : LinearMatcher :=
  let '(patternMap, allPatterns) := buildPatterns prospects in
  {| prospects := prospects;
     patternMap := patternMap;
     automaton := {| keywords := allPatterns |} |}.

(** Modelled from the spec: [search] of the [ahocorasick] package, which
    the repository imports and does not contain.  Every occurrence of
    every keyword is reported in one left-to-right pass, with overlapping
    occurrences of different keywords ending at the same position: for
    every end index, in increasing order, [[endIndex, [keywords]]] with
    the keywords that end there, longest first (a state's own keyword,
    then those reached through failure links); indices where nothing
    ends are left out. *)
Definition endsAt (text : jsstring) (endIndex : Z) (p : jsstring) : bool :=
  let startIndex := endIndex - len p + 1 in
  (0 <=? startIndex) && str_eqb (slice text startIndex (endIndex + 1)) p.

Definition indices (text : jsstring) : list Z :=
  map Z.of_nat (seq 0 (length text)).

Definition search (a : Automaton) (text : jsstring)
  : list (Z * list jsstring) :=
  flat_map
    (fun endIndex =>
       match sortBy (fun p q => len q - len p)
                    (filter (endsAt text endIndex) (keywords a)) with
       | [] => []
       | ps => [(endIndex, ps)]
       end)
    (indices text).

(** ** hasValidWordBoundaries *)

Definition doubleQuote : ascii := ascii_of_N 34.

Definition boundaryChars : jsstring :=
  str ".,;:!?-()[]{}" ++ doubleQuote :: str "'/\|~`@#$%^&*+=<>".

Definition boundaryRegex (c : ascii) : bool :=
  isSpace c || existsb (Ascii.eqb c) boundaryChars.

(** [regex.test(x)] for a one-character class when [x] is a character or
    [undefined], which [test] reads as the string "undefined". *)
Definition testValue (cls : ascii -> bool) (x : option ascii) : bool :=
  match x with
  | Some c => cls c
  | None => existsb cls (str "undefined")
  end.

Definition hasValidWordBoundaries (text : jsstring) (start end_ : Z)
  : bool :=
  let beforeChar := if 0 <? start then char_at text (start - 1) else None in
  let afterChar := if end_ <? len text then char_at text end_ else None in
  let beforeIsBoundary :=
    match beforeChar with
    | None => true
    | Some b =>
        boundaryRegex b
        || (isNumber b && testValue isLetter (char_at text start))
    end in
  let afterIsBoundary :=
    match afterChar with
    | None => true
    | Some a =>
        boundaryRegex a
        || (testValue isLetter (char_at text (end_ - 1)) && isNumber a)
    end in
  beforeIsBoundary && afterIsBoundary.

(** ** processFileLinear: the streaming scanner *)

Record Context : Type := {
  c_pattern : jsstring;
  c_type : PatternType;
  c_context : jsstring;
  c_position : Z
}.

Record Hit : Type := {
  nameHit : bool;
  companyHit : bool;
  contexts : list Context
}.

Definition emptyHit : Hit :=
  {| nameHit := false; companyHit := false; contexts := [] |}.

Definition OVERLAP_SIZE : Z := 2000.

(** [new RegExp(`\\b${first}\\s+(?:[a-z]\\.?\\s+)?${last}\\b`, 'i')],
    the two names escaped, that is, taken literally. *)
Definition nameRegex (firstName lastName : jsstring) : Regex.regex :=
  Regex.Seq Regex.WordB
    (Regex.Seq (Regex.lit_ci firstName)
       (Regex.Seq (Regex.Plus isSpace)
          (Regex.Seq
             (Regex.Opt
                (Regex.Seq (Regex.Chr isLetter)
                   (Regex.Seq (Regex.Opt (Regex.Chr (is_char "."%char)))
                      (Regex.Plus isSpace))))
             (Regex.Seq (Regex.lit_ci lastName) Regex.WordB)))).

(** The check made for a name pattern's variation that allows an
    initial; [true] when the variation is to be skipped. *)
Definition failsInitialCheck (normalizedText : jsstring)
           (startIndex endIndex : Z) (info : PatternInfo)
           (variation : Variation) : bool :=
  match ptype info, parts variation with
  | NamePattern, Some np =>
      if allowInitial np then
        let contextStart := Z.max 0 (startIndex - 10) in
        let contextEnd := Z.min (len normalizedText) (endIndex + 20) in
        let contextText := slice normalizedText contextStart contextEnd in
        negb (Regex.test (nameRegex (firstName np) (lastName np))
                         contextText)
      else false
  | _, _ => false
  end.

Definition markHit (ty : PatternType) (hit : Hit) : Hit :=
  match ty with
  | NamePattern =>
      {| nameHit := true; companyHit := companyHit hit;
         contexts := contexts hit |}
  | CompanyPattern =>
      {| nameHit := nameHit hit; companyHit := true;
         contexts := contexts hit |}
  end.

Definition ellipsis : jsstring := str "...".

Definition pushContext (normalizedText : jsstring)
           (processedBytes startIndex endIndex : Z) (pattern : jsstring)
           (ty : PatternType) (hit : Hit) : Hit :=
  if Z.of_nat (length (contexts hit)) <? 1 then
    let contextStart := Z.max 0 (startIndex - 20) in
    let contextEnd := Z.min (len normalizedText) (endIndex + 20) in
    let context := slice normalizedText contextStart contextEnd in
    {| nameHit := nameHit hit; companyHit := companyHit hit;
       contexts :=
         contexts hit
         ++ [ {| c_pattern := pattern;
                 c_type := ty;
                 c_context := if 60 <? len context
                              then slice context 0 60 ++ ellipsis
                              else context;
                 c_position := startIndex + processedBytes |} ] |}
  else hit.

(** The body of [patternInfo.variations.forEach]. *)
Definition recordVariation (normalizedText : jsstring)
           (processedBytes startIndex endIndex : Z) (pattern : jsstring)
           (info : PatternInfo) (prospectHits : JsMap.t Hit)
           (pv : PatternVariation) : JsMap.t Hit :=
  let prospectId := pv_prospectId pv in
  let hit :=
    match JsMap.get prospectId prospectHits with
    | Some h => h
    | None => emptyHit
    end in
  let prospectHits1 :=
    match JsMap.get prospectId prospectHits with
    | Some _ => prospectHits
    | None => JsMap.set prospectId emptyHit prospectHits
    end in
  if failsInitialCheck normalizedText startIndex endIndex info
                       (pv_variation pv)
  then prospectHits1
  else
    JsMap.set prospectId
      (pushContext normalizedText processedBytes startIndex endIndex
                   pattern (ptype info) (markHit (ptype info) hit))
      prospectHits1.

(** The body of [matchedPatterns.forEach]. *)
Definition recordPattern (patternMap : JsMap.t PatternInfo)
           (normalizedText : jsstring) (processedBytes endIndex : Z)
           (prospectHits : JsMap.t Hit) (pattern : jsstring)
  : JsMap.t Hit :=
  let startIndex := endIndex - len pattern + 1 in
  match JsMap.get pattern patternMap with
  | None => prospectHits
  | Some info =>
      if negb (hasValidWordBoundaries normalizedText startIndex
                                      (endIndex + 1))
      then prospectHits
      else
        fold_left
          (recordVariation normalizedText processedBytes startIndex
                           endIndex pattern info)
          (variations info) prospectHits
  end.

Record ScanState : Type := {
  prospectHits : JsMap.t Hit;
  processedBytes : Z;
  previousOverlap : jsstring
}.

Definition initialScanState : ScanState :=
  {| prospectHits := JsMap.empty;
     processedBytes := 0;
     previousOverlap := [] |}.

(** The ['data'] handler. *)
Definition onData (m : LinearMatcher) (st : ScanState) (chunk : jsstring)
  : ScanState :=
  let searchText := previousOverlap st ++ chunk in
  let normalizedText := normalizeText searchText in
  let matches := search (automaton m) normalizedText in
  let hits :=
    fold_left
      (fun hits '(endIndex, matchedPatterns) =>
         fold_left
           (recordPattern (patternMap m) normalizedText
                          (processedBytes st) endIndex)
           matchedPatterns hits)
      matches (prospectHits st) in
  {| prospectHits := hits;
     processedBytes := processedBytes st + len chunk;
     previousOverlap :=
       if OVERLAP_SIZE <? len searchText
       then slice_from searchText (- OVERLAP_SIZE)
       else previousOverlap st |}.

(** ** generateMatchResults and createSECUrl *)

Inductive MatchType : Type := NameAndCompany | NameOnly | CompanyOnly.

Record MatchResult : Type := {
  prospect_id : jsstring;
  prospect_name : jsstring;
  company_name : jsstring;
  sec_filing : jsstring;
  sec_url : jsstring;
  match_date : jsstring;
  match_type : MatchType;
  confidence : Z;
  m_contexts : list Context
}.

(** What the scanner takes from its surroundings: the working directory
    behind [path.resolve] and the day behind [new Date()]. *)
Record Env : Type := {
  path_resolve : jsstring -> jsstring;
  today : jsstring
}.

(** [parseInt(cik, 10)] printed back: the digits without leading zeros. *)
Fixpoint dropZeros (s : jsstring) : jsstring :=
  match s with
  | c :: s' => if Ascii.eqb c "0"%char then dropZeros s' else s
  | [] => []
  end.

Definition numericCik (cik : jsstring) : jsstring :=
  match dropZeros cik with
  | [] => str "0"
  | d => d
  end.

(** [/^(\d{10})-(\d{2})-(\d{6})\.txt$/] *)
Definition createSECUrl (filename : jsstring) : option jsstring :=
  let cik := slice filename 0 10 in
  let year := slice filename 11 13 in
  let sequence := slice filename 14 20 in
  if (len filename =? 24)
     && forallb isNumber cik
     && str_eqb (slice filename 10 11) (str "-")
     && forallb isNumber year
     && str_eqb (slice filename 13 14) (str "-")
     && forallb isNumber sequence
     && str_eqb (slice filename 20 24) (str ".txt")
  then
    Some (str "https://www.sec.gov/Archives/edgar/data/"
          ++ numericCik cik ++ str "/"
          ++ cik ++ year ++ sequence ++ str ".txt")
  else None.

Definition isNameContext (c : Context) : bool :=
  match c_type c with NamePattern => true | CompanyPattern => false end.

(** The body of the loop over [prospectHits]; the company-only case is
    commented out in the source. *)
Definition classifyHit (env : Env) (filename : jsstring)
           (all : list Prospect) (prospectId : jsstring) (hits : Hit)
  : list MatchResult :=
  match find (fun p => str_eqb (id p) prospectId) all with
  | None => []
  | Some prospect =>
      let secUrl := createSECUrl filename in
      let base (ty : MatchType) (conf : Z) (ctxs : list Context) :=
        {| prospect_id := prospectId;
           prospect_name := name prospect;
           company_name := company prospect;
           sec_filing := filename;
           sec_url := match secUrl with
                      | Some u => u
                      | None => str "file://" ++ path_resolve env filename
                      end;
           match_date := today env;
           match_type := ty;
           confidence := conf;
           m_contexts := ctxs |} in
      if nameHit hits && companyHit hits then
        [ base NameAndCompany 95 (firstn 3 (contexts hits)) ]
      else if nameHit hits then
        [ base NameOnly 75 (firstn 2 (filter isNameContext (contexts hits))) ]
      else []
  end.

Definition generateMatchResults (env : Env) (m : LinearMatcher)
           (filename : jsstring) (hits : JsMap.t Hit) : list MatchResult :=
  flat_map (fun '(prospectId, h) =>
              classifyHit env filename (prospects m) prospectId h)
           hits.

(** ** The document source and the promise of processFileLinear *)

(** A readable stream delivers chunks and then either ['end'] or
    ['error']. *)
Inductive ReadStream : Type :=
| SData (chunk : jsstring) (rest : ReadStream)
| SEnd
| SError.

(** [fs.statSync] may throw before the stream is opened. *)
Inductive FileSource : Type :=
| StatThrows
| Opened (s : ReadStream).

Inductive Promise (A : Type) : Type :=
| Resolved (a : A)
| Rejected.
Arguments Resolved {A} a.
Arguments Rejected {A}.

Fixpoint runStream (env : Env) (m : LinearMatcher) (filename : jsstring)
         (st : ScanState) (s : ReadStream) : Promise (list MatchResult) :=
  match s with
  | SData chunk rest => runStream env m filename (onData m st chunk) rest
  | SEnd => Resolved (generateMatchResults env m filename (prospectHits st))
  | SError => Resolved []
  end.

Definition processFileLinear (env : Env) (m : LinearMatcher)
           (filename : jsstring) (src : FileSource)
  : Promise (list MatchResult) :=
  match src with
  | StatThrows => Resolved []
  | Opened s => runStream env m filename initialScanState s
  end.

Fixpoint streamOf (chunks : list jsstring) (last : ReadStream)
  : ReadStream :=
  match chunks with
  | [] => last
  | c :: cs => SData c (streamOf cs last)
  end.

(** ** deduplicateMatches *)

Definition dedupKey (m : MatchResult) : jsstring :=
  prospect_id m ++ str ":" ++ sec_filing m.

Definition isNameAndCompany (t : MatchType) : bool :=
  match t with NameAndCompany => true | _ => false end.

Definition replaces (m existing : MatchResult) : bool :=
  (confidence existing <? confidence m)
  || ((confidence m =? confidence existing)
      && isNameAndCompany (match_type m)).

Definition dedupStep (seen : JsMap.t MatchResult) (m : MatchResult)
  : JsMap.t MatchResult :=
  let key := dedupKey m in
  match JsMap.get key seen with
  | None => JsMap.set key m seen
  | Some existing =>
      if replaces m existing then JsMap.set key m seen else seen
  end.

Definition typeOrder (t : MatchType) : Z :=
  match t with
  | NameAndCompany => 3
  | NameOnly => 2
  | CompanyOnly => 1
  end.

Definition compareMatches (a b : MatchResult) : Z :=
  if negb (confidence b =? confidence a)
  then confidence b - confidence a
  else typeOrder (match_type b) - typeOrder (match_type a).

Definition dedupSeen (matches : list MatchResult) : JsMap.t MatchResult :=
  fold_left dedupStep matches JsMap.empty.

Definition deduplicateMatches (matches : list MatchResult)
  : list MatchResult :=
  sortBy compareMatches (JsMap.values (dedupSeen matches)).

(** ** processMatchingLinear: the batch loop *)

Record SecFile : Type := {
  path : jsstring;
  originalname : jsstring;
  source : FileSource
}.

Definition BATCH_SIZE : Z := 50.

(** [match.contexts = [match.contexts[0]]] *)
Definition keepFirstContext (m : MatchResult) : MatchResult :=
  match m_contexts m with
  | [] => m
  | c :: _ =>
      {| prospect_id := prospect_id m;
         prospect_name := prospect_name m;
         company_name := company_name m;
         sec_filing := sec_filing m;
         sec_url := sec_url m;
         match_date := match_date m;
         match_type := match_type m;
         confidence := confidence m;
         m_contexts := [c] |}
  end.

Definition memoryCleanup (i : Z) (allMatches : list MatchResult)
  : list MatchResult :=
  if (i + 1) mod BATCH_SIZE =? 0
  then map keepFirstContext allMatches
  else allMatches.

(** The [for] loop over [secFiles], from index [i] on; a rejected promise
    is caught and the loop goes on. *)
Fixpoint processFiles (env : Env) (m : LinearMatcher) (i : Z)
         (allMatches : list MatchResult) (secFiles : list SecFile)
  : list MatchResult :=
  match secFiles with
  | [] => allMatches
  | secFile :: rest =>
      match processFileLinear env m (originalname secFile)
                              (source secFile) with
      | Resolved fileMatches =>
          processFiles env m (i + 1)
                       (memoryCleanup i (allMatches ++ fileMatches)) rest
      | Rejected => processFiles env m (i + 1) allMatches rest
      end
  end.

Definition processMatchingLinear (env : Env) (all : list Prospect)
           (secFiles : list SecFile) : list MatchResult :=
  let m := buildAutomaton all in
  deduplicateMatches (processFiles env m 0 [] secFiles).

(** ** The classification table of the specification *)

(** NameAndCompany with confidence 95 when both flags are set, NameOnly
    with confidence 75 when only [nameHit] is, nothing otherwise. *)
Definition spec_classify (h : Hit) : option (MatchType * Z) :=
  match nameHit h, companyHit h with
  | true, true => Some (NameAndCompany, 95)
  | true, false => Some (NameOnly, 75)
  | false, _ => None
  end.

Definition summary (m : MatchResult) : jsstring * jsstring * MatchType * Z :=
  (prospect_id m, sec_filing m, match_type m, confidence m).

Definition knownProspect (m : LinearMatcher) (prospectId : jsstring) : Prop :=
  exists p, In p (prospects m) /\ id p = prospectId.

(** A token that may serve as a first or last name. *)
Definition validToken (t : jsstring) : bool := 2 <=? len t.


(** ** Token boundaries, as the specification words them *)

(** The edge before a match starting at [start]: no character there, a
    boundary symbol, or a digit followed by a letter of the match. *)
Definition edgeBefore (text : jsstring) (start : Z) : Prop :=
  start = 0
  \/ (exists b, char_at text (start - 1) = Some b /\ boundaryRegex b = true)
  \/ (exists b c, char_at text (start - 1) = Some b
                  /\ char_at text start = Some c
                  /\ isNumber b = true /\ isLetter c = true).

(** The edge after a match ending before [end_]: no character there, a
    boundary symbol, or a letter of the match followed by a digit. *)
Definition edgeAfter (text : jsstring) (end_ : Z) : Prop :=
  end_ = len text
  \/ (exists a, char_at text end_ = Some a /\ boundaryRegex a = true)
  \/ (exists a c, char_at text end_ = Some a
                  /\ char_at text (end_ - 1) = Some c
                  /\ isLetter c = true /\ isNumber a = true).

(** ** Derivations: every (prospect, variation) pair, in generation order *)

Definition tagWith (prospectId : jsstring) (v : Variation)
  : PatternVariation :=
  {| pv_prospectId := prospectId; pv_variation := v |}.

Definition derivationsOf (p : Prospect) : list PatternVariation :=
  map (tagWith (id p)) (generateNamePatterns (name p))
  ++ map (tagWith (id p)) (generateCompanyPatterns (company p)).

Definition allDerivations (all : list Prospect) : list PatternVariation :=
  flat_map derivationsOf all.

Definition hasText (t : jsstring) (pv : PatternVariation) : bool :=
  str_eqb (text (pv_variation pv)) t.

Definition variationsFor (t : jsstring) (derivs : list PatternVariation)
  : list PatternVariation :=
  filter (hasText t) derivs.

(** The invariant of the construction loop, [derivs] being the
    derivations registered so far. *)
Definition buildInvariant (st : BuildState)
           (derivs : list PatternVariation) : Prop :=
  JsMap.keys (fst st) = snd st
  /\ NoDup (snd st)
  /\ forall t,
      match JsMap.get t (fst st) with
      | Some info =>
          variations info = variationsFor t derivs
          /\ variations info <> []
          /\ prospectIds info = map pv_prospectId (variations info)
      | None => variationsFor t derivs = []
      end.

(** ** Order and groups used to state the de-duplication results *)

(** [a] may stand before [b] in an array sorted with [compare]. *)
Definition leBy {A : Type} (compare : A -> A -> Z) (a b : A) : Prop :=
  compare a b <= 0.

(** [r] is at least as good as [m]: no lower confidence and, at equal
    confidence, NameAndCompany if [m] is. *)
Definition beats (r m : MatchResult) : Prop :=
  confidence m <= confidence r
  /\ (confidence m = confidence r ->
      match_type m = NameAndCompany -> match_type r = NameAndCompany).

Definition dedupEntry (m : MatchResult) : jsstring * MatchResult :=
  (dedupKey m, m).

(** The invariant of the loop of [deduplicateMatches], [done] being the
    matches read so far. *)
Definition dedupInvariant (done : list MatchResult)
           (seen : JsMap.t MatchResult) : Prop :=
  NoDup (JsMap.keys seen)
  /\ (forall k r, In (k, r) seen -> dedupKey r = k /\ In r done)
  /\ (forall m, In m done ->
        exists r, JsMap.get (dedupKey m) seen = Some r /\ beats r m).

(** Two results of one (prospectId, documentId) group. *)
Definition sameGroup (a b : MatchResult) : Prop :=
  prospect_id a = prospect_id b /\ sec_filing a = sec_filing b.

Definition colon : ascii := ":"%char.

(** ** Concrete prospects, documents and results used in the examples *)

Definition mkProspect (i n c : string) : Prospect :=
  {| id := str i; name := str n; company := str c |}.

(** A document delivered in the given chunks and then ended. *)
Definition document (filename : string) (chunks : list jsstring)
  : SecFile :=
  {| path := str filename;
     originalname := str filename;
     source := Opened (streamOf chunks SEnd) |}.

Definition mkResult (pid filing : string) (ty : MatchType) (conf : Z)
  : MatchResult :=
  {| prospect_id := str pid;
     prospect_name := str "";
     company_name := str "";
     sec_filing := str filing;
     sec_url := str "";
     match_date := str "";
     match_type := ty;
     confidence := conf;
     m_contexts := [] |}.

Definition sampleEnv : Env :=
  {| path_resolve := fun f => str "/data/" ++ f;
     today := str "2025-01-01" |}.

Definition johnASmith : Prospect :=
  mkProspect "1" "John A. Smith" "Acme Holdings".

Definition johnSmith : Prospect :=
  mkProspect "1" "John Smith" "Acme Holdings".

Definition aaronDavis : Prospect :=
  mkProspect "1" "Aaron Davis" "Davis Corp".

Definition aaronMDavis : Prospect :=
  mkProspect "2" "Aaron M. Davis" "Aaron Davis LLC".

(** Every prospect id of a hit map belongs to a prospect of the matcher. *)
Definition hitsKnown (m : LinearMatcher) (hits : JsMap.t Hit) : Prop :=
  forall pid h, In (pid, h) hits -> knownProspect m pid.

(** The scan state after the given chunks. *)
Definition scanChunks (m : LinearMatcher) (chunks : list jsstring)
  : ScanState :=
  fold_left (onData m) chunks initialScanState.

(* ================================================================== *)
(** * Further definitions, for the properties of Part III              *)
(* ================================================================== *)

(** ** The shape of normalised text *)

(** A character of a normalised word: lower-case letter, digit or
    underscore. *)
Definition isNormWord (c : ascii) : bool :=
  isLower c || isNumber c || (code c =? 95)%N.

Definition isNormChar (c : ascii) : bool :=
  isNormWord c || Ascii.eqb c space.

(** What [[^\w\s]] is replaced by a space in: the text after
    [toLowerCase] and that replacement. *)
Definition sanitizeChar (c : ascii) : ascii :=
  if negb (isWordChar c || isSpace c) then space else c.

(** [replace(/\s+/g, ' ')] read as a scan: [inRun] tells that the
    previous character was white space. *)
Fixpoint collapseFrom (inRun : bool) (s : jsstring) : jsstring :=
  match s with
  | [] => []
  | c :: s' =>
      if isSpace c then
        if inRun then collapseFrom true s' else space :: collapseFrom true s'
      else c :: collapseFrom false s'
  end.

(** Words of normalised characters separated by single spaces, a space
    never first (when [afterSpace]) nor last. *)
Fixpoint canonFrom (afterSpace : bool) (s : jsstring) : bool :=
  match s with
  | [] => negb afterSpace
  | c :: s' =>
      if Ascii.eqb c space then negb afterSpace && canonFrom true s'
      else isNormWord c && canonFrom false s'
  end.

Definition canonical (s : jsstring) : bool :=
  match s with
  | [] => true
  | _ => canonFrom true s
  end.

(** The same without the condition on the last character. *)
Fixpoint looseFrom (afterSpace : bool) (s : jsstring) : bool :=
  match s with
  | [] => true
  | c :: s' =>
      if Ascii.eqb c space then negb afterSpace && looseFrom true s'
      else isNormWord c && looseFrom false s'
  end.

(** A token of normalised text: a non-empty run of word characters. *)
Definition isWordToken (t : jsstring) : Prop :=
  t <> [] /\ Forall (fun c => isNormWord c = true) t.

(** ** Hit records during a scan *)

Definition flagOf (ty : PatternType) (h : Hit) : bool :=
  match ty with
  | NamePattern => nameHit h
  | CompanyPattern => companyHit h
  end.

(** What the scanner keeps true of a hit record: at most one context,
    exactly one once a flag is set, and a context only for a flag that is
    set; the snippet is at most 60 characters and an ellipsis. *)
Definition hitInvariant (h : Hit) : Prop :=
  (length (contexts h) <= 1)%nat
  /\ (nameHit h || companyHit h = true -> length (contexts h) = 1%nat)
  /\ forall c, In c (contexts h) ->
               flagOf (c_type c) h = true /\ len (c_context c) <= 63.

Definition hitsInvariant (hits : JsMap.t Hit) : Prop :=
  NoDup (JsMap.keys hits)
  /\ forall pid h, In (pid, h) hits -> hitInvariant h.

(** [h'] has every flag that [h] has. *)
Definition hitLe (h h' : Hit) : Prop :=
  (nameHit h = true -> nameHit h' = true)
  /\ (companyHit h = true -> companyHit h' = true).

(** A variation that the scanner records without the initial check. *)
Definition plainVariation (v : Variation) : Prop :=
  match parts v with
  | Some np => allowInitial np = false
  | None => True
  end.

(** What a document contributes to the batch. *)
Definition fileResults (env : Env) (m : LinearMatcher) (f : SecFile)
  : list MatchResult :=
  match processFileLinear env m (originalname f) (source f) with
  | Resolved r => r
  | Rejected => []
  end.

(** The two kinds of result the matcher reports. *)
Definition isNameAndCompany95 (r : MatchResult) : Prop :=
  match_type r = NameAndCompany /\ confidence r = 95.

Definition isNameOnly75 (r : MatchResult) : Prop :=
  match_type r = NameOnly /\ confidence r = 75.

(** The prospect has the flag of [ty] set in the hit map. *)
Definition flagged (ty : PatternType) (pid : jsstring) (hits : JsMap.t Hit)
  : Prop :=
  exists h, JsMap.get pid hits = Some h /\ flagOf ty h = true.

(** A result with exactly one context, of bounded length. *)
Definition oneContext (r : MatchResult) : Prop :=
  exists c, m_contexts r = [c] /\ len (c_context c) <= 63.

(** [s.slice(-n)]: the last [n] characters, or all of [s]. *)
Definition lastChars (n : nat) (s : jsstring) : jsstring :=
  skipn (length s - n) s.

(** ** File names of SEC filings *)

Definition dash : ascii := "-"%char.

Definition secUrlPrefix : jsstring :=
  str "https://www.sec.gov/Archives/edgar/data/".

(** The shape [0000000000-00-000000.txt]. *)
Definition secFilename (cik year sequence : jsstring) : jsstring :=
  cik ++ dash :: year ++ dash :: sequence ++ str ".txt".

(** ** loadProspects *)










(** ** processMatchingLinearChunked: the chunks of prospects *)

Definition PROSPECT_CHUNK_SIZE : Z := 50000.

(** [Array.prototype.slice(from, to)] *)
Definition arraySlice {A : Type} (l : list A) (from to : Z) : list A :=
  let n := Z.of_nat (length l) in
  let clamp i := if i <? 0 then Z.max (n + i) 0 else Z.min i n in
  firstn (Z.to_nat (clamp to - clamp from)) (skipn (Z.to_nat (clamp from)) l).

(** [Math.ceil(totalProspects / CHUNK_SIZE)] *)
Definition totalChunks (totalProspects : Z) : Z :=
  (totalProspects + PROSPECT_CHUNK_SIZE - 1) / PROSPECT_CHUNK_SIZE.

Definition chunkProspects (all : list Prospect) (chunkIndex : Z)
  : list Prospect :=
  let totalProspects := Z.of_nat (length all) in
  let chunkStart := chunkIndex * PROSPECT_CHUNK_SIZE in
  let chunkEnd := Z.min (chunkStart + PROSPECT_CHUNK_SIZE) totalProspects in
  arraySlice all chunkStart chunkEnd.

(** The values of [chunkIndex] the loop runs through. *)
Definition chunkIndices (all : list Prospect) : list Z :=
  map Z.of_nat (seq 0 (Z.to_nat (totalChunks (Z.of_nat (length all))))).

(** The value of [chunkMatches] in each run of the loop: a fresh matcher
    over the chunk's prospects runs the whole batch.  It is handed to
    [writeChunkToCSV] when it is not empty. *)
Definition chunkedMatches (env : Env) (all : list Prospect)
           (secFiles : list SecFile) : list (list MatchResult) :=
  map (fun chunkIndex =>
         processMatchingLinear env (chunkProspects all chunkIndex) secFiles)
      (chunkIndices all).

(** ** getPatternStats *)

Definition isPatternType (ty : PatternType) (info : PatternInfo) : bool :=
  match ptype info, ty with
  | NamePattern, NamePattern | CompanyPattern, CompanyPattern => true
  | _, _ => false
  end.

(** The two counters that the returned text
    [`Names: ${nameCount}, Companies: ${companyCount}`] shows. *)
Definition getPatternStats (m : LinearMatcher) : Z * Z :=
  fold_left
    (fun counts entry =>
       let '(nameCount, companyCount) := counts in
       let '(_, info) := entry in
       (if isPatternType NamePattern info then nameCount + 1 else nameCount,
        if isPatternType CompanyPattern info then companyCount + 1
        else companyCount))
    (patternMap m) (0, 0).

(** The kind of loop a variation is generated in: the first [forEach] of
    [buildAutomaton] handles the name variations, the second the company
    roots. *)
Definition kindOf (v : VariationType) : PatternType :=
  match v with
  | company_root => CompanyPattern
  | first_last_exact | first_last_with_initial => NamePattern
  end.

(** Whether the first derivation of the text [t], in generation order,
    is of kind [ty]. *)
Definition firstKind (all : list Prospect) (ty : PatternType)
           (t : jsstring) : bool :=
  match variationsFor t (allDerivations all) with
  | pv :: _ =>
      match kindOf (vtype (pv_variation pv)), ty with
      | NamePattern, NamePattern | CompanyPattern, CompanyPattern => true
      | _, _ => false
      end
  | [] => false
  end.

Definition kindInvariant (st : BuildState) : Prop :=
  forall t info,
    JsMap.get t (fst st) = Some info ->
    match variations info with
    | pv :: _ => ptype info = kindOf (vtype (pv_variation pv))
    | [] => False
    end.

(** ** writeChunkToCSV: the column context_snippets *)

(** [c.text] on a context object.  The only place that creates context
    objects is the data handler of [processFileLinear], with the fields
    pattern, type, context and position: the field text is absent, and
    reading it gives [undefined]. *)
Definition c_text (c : Context) : option jsstring := None.

(** [Array.prototype.join(separator)]: an element that is [undefined]
    contributes the empty text. *)
Fixpoint join (separator : jsstring) (l : list (option jsstring))
  : jsstring :=
  match l with
  | [] => []
  | x :: l' =>
      let s := match x with Some s => s | None => [] end in
      match l' with
      | [] => s
      | _ :: _ => s ++ separator ++ join separator l'
      end
  end.

(** [match.contexts ? match.contexts.map(c => c.text).join(' | ') : '']:
    an array is truthy, also when it is empty. *)
Definition context_snippets (m : MatchResult) : jsstring :=
  join (str " | ") (map c_text (m_contexts m)).

(** ** The windows of a scan and what a hit stands for *)

(** The texts [searchText] that the ['data'] handler builds, one for
    every chunk, starting from the overlap [previousOverlap]. *)
Fixpoint windowsFrom (previousOverlap : jsstring) (chunks : list jsstring)
  : list jsstring :=
  match chunks with
  | [] => []
  | chunk :: rest =>
      let searchText := previousOverlap ++ chunk in
      searchText
      :: windowsFrom (if OVERLAP_SIZE <? len searchText
                      then slice_from searchText (- OVERLAP_SIZE)
                      else previousOverlap)
                     rest
  end.

(** An occurrence the handler accepts for the prospect [pid] as a hit of
    kind [ty]: a key of the pattern map whose entry has type [ty] and a
    variation of this prospect stands in the normalised window between
    word boundaries, and the variation passes the initial check. *)
Definition occursFor (m : LinearMatcher) (ty : PatternType)
           (pid : jsstring) (window : jsstring) : Prop :=
  exists pre p post info pv,
    normalizeText window = pre ++ p ++ post
    /\ In p (keywords (automaton m))
    /\ JsMap.get p (patternMap m) = Some info
    /\ ptype info = ty
    /\ In pv (variations info) /\ pv_prospectId pv = pid
    /\ hasValidWordBoundaries (normalizeText window)
                              (len pre) (len pre + len p) = true
    /\ failsInitialCheck (normalizeText window)
                         (len pre) (len pre + len p - 1) info
                         (pv_variation pv) = false.

(** Every flag of the hit map has an occurrence in one of the windows. *)
Definition justified (m : LinearMatcher) (windows : list jsstring)
           (hits : JsMap.t Hit) : Prop :=
  forall pid h ty,
    JsMap.get pid hits = Some h -> flagOf ty h = true ->
    exists w, In w windows /\ occursFor m ty pid w.
(* ================================================================== *)
(** * Part II: properties                                              *)
(* ================================================================== *)

(** ** Strings and maps *)

Lemma str_eqb_eq (a b : jsstring) : str_eqb a b = true <-> a = b.
Proof.
  revert b; induction a as [|x a IH]; intros [|y b]; simpl;
    try (split; [discriminate | discriminate]); try tauto.
  rewrite andb_true_iff, IH, Ascii.eqb_eq.
  split; [intros [-> ->]; reflexivity | intros E; inversion E; auto].
Qed.

Lemma str_eqb_refl (a : jsstring) : str_eqb a a = true.
Proof. apply str_eqb_eq; reflexivity. Qed.

Lemma str_eqb_neq (a b : jsstring) : str_eqb a b = false <-> a <> b.
Proof.
  rewrite <- str_eqb_eq. destruct (str_eqb a b); split; congruence.
Qed.

Lemma len_nonneg (s : jsstring) : 0 <= len s.
Proof. unfold len; lia. Qed.

(** The slicing loop of [normalizeText] ends within the fuel it is given:
    more fuel changes nothing. *)
Lemma normalizeSlices_fuel fuel fuel' text :
  (length text <= fuel)%nat -> (length text <= fuel')%nat ->
  normalizeSlices fuel text = normalizeSlices fuel' text.
Proof.
  revert fuel' text. induction fuel as [|f IH]; intros [|f'] text L L';
    try (destruct text; [reflexivity | cbn [length] in L, L'; lia]).
  destruct text as [|c t]; [reflexivity|].
  cbn [normalizeSlices]. f_equal.
  set (n := Z.to_nat MAX_CHUNK_SIZE).
  assert (P : (1 <= n)%nat).
  { subst n. change 1%nat with (Z.to_nat 1). apply Z2Nat.inj_le.
    - discriminate.
    - discriminate.
    - discriminate. }
  clearbody n.
  pose proof (length_skipn n (c :: t)) as K.
  cbn [length] in L, L', K. apply IH; lia.
Qed.

(** ** C1: classification of hit records *)

Lemma find_known (all : list Prospect) (pid : jsstring) :
  (exists p, In p all /\ id p = pid) ->
  exists p, find (fun p => str_eqb (id p) pid) all = Some p /\ id p = pid.
Proof.
  intros [p [Hin Hid]].
  destruct (find (fun p => str_eqb (id p) pid) all) as [q|] eqn:F.
  - exists q; split; auto. apply find_some in F. apply str_eqb_eq, F.
  - exfalso. apply (find_none _ _ F) in Hin.
    rewrite Hid, str_eqb_refl in Hin. discriminate.
Qed.

Lemma classifyHit_summary env filename all pid h :
  (exists p, In p all /\ id p = pid) ->
  map summary (classifyHit env filename all pid h)
  = match spec_classify h with
    | Some (t, c) => [(pid, filename, t, c)]
    | None => []
    end.
Proof.
  intros K. destruct (find_known all pid K) as [p [F _]].
  unfold classifyHit, spec_classify. rewrite F.
  destruct (nameHit h), (companyHit h); reflexivity.
Qed.

Lemma classifyHit_no_name env filename all pid h :
  nameHit h = false -> classifyHit env filename all pid h = [].
Proof.
  intros N. unfold classifyHit.
  destruct (find _ all); [|reflexivity]. rewrite N. reflexivity.
Qed.

(** C1. For a hit map whose prospect ids are known to the matcher,
    [generateMatchResults] gives, entry by entry and in the map's order,
    a NameAndCompany result with confidence 95 when both flags are set, a
    NameOnly result with confidence 75 when only [nameHit] is, and
    nothing otherwise; a record without [nameHit] (company only or no
    hit) yields no result at all. *)
Theorem C1_classification env m filename hits :
  (forall pid h, In (pid, h) hits -> knownProspect m pid) ->
  map summary (generateMatchResults env m filename hits)
  = flat_map (fun '(pid, h) =>
                match spec_classify h with
                | Some (t, c) => [(pid, filename, t, c)]
                | None => []
                end) hits
  /\ (forall pid h, knownProspect m pid ->
        nameHit h = true -> companyHit h = true ->
        map summary (generateMatchResults env m filename [(pid, h)])
        = [(pid, filename, NameAndCompany, 95)])
  /\ (forall pid h, knownProspect m pid ->
        nameHit h = true -> companyHit h = false ->
        map summary (generateMatchResults env m filename [(pid, h)])
        = [(pid, filename, NameOnly, 75)])
  /\ (forall pid h, nameHit h = false ->
        generateMatchResults env m filename [(pid, h)] = []).
Proof.
  intros K. repeat split.
  - unfold generateMatchResults.
    induction hits as [|[pid h] hits IH]; [reflexivity|].
    simpl. rewrite map_app, IH.
    + f_equal. apply classifyHit_summary. apply (K pid h). left; reflexivity.
    + intros pid' h' Hin. apply (K pid' h'). right; exact Hin.
  - intros pid h P N C. unfold generateMatchResults. simpl.
    rewrite app_nil_r, classifyHit_summary by exact P.
    unfold spec_classify. rewrite N, C. reflexivity.
  - intros pid h P N C. unfold generateMatchResults. simpl.
    rewrite app_nil_r, classifyHit_summary by exact P.
    unfold spec_classify. rewrite N, C. reflexivity.
  - intros pid h N. unfold generateMatchResults. simpl.
    rewrite classifyHit_no_name by exact N. reflexivity.
Qed.

(** ** C4: name patterns *)

Lemma first_last_split {A : Type} (l : list A) (d : A) :
  (2 <= length l)%nat ->
  exists first middle last,
    l = first :: middle ++ [last]
    /\ nth 0 l d = first
    /\ nth (length l - 1) l d = last.
Proof.
  intros L. destruct l as [|first rest]; [simpl in L; lia|].
  assert (R : rest <> []) by (destruct rest; [simpl in L; lia | discriminate]).
  destruct (exists_last R) as [middle [last E]]. subst rest.
  exists first, middle, last. repeat split.
  replace (length (first :: middle ++ [last]) - 1)%nat
    with (S (length middle)).
  - simpl. apply nth_middle.
  - simpl. rewrite length_app. simpl. lia.
Qed.

Lemma generateNamePatterns_shape fullName first middle last :
  tokensOf (normalizeText fullName) = first :: middle ++ [last] ->
  generateNamePatterns fullName
  = if (len first <? 2) || (len last <? 2) then []
    else
      [ {| text := first ++ space :: last;
           vtype := first_last_exact;
           parts := Some {| firstName := first; lastName := last;
                            allowInitial := false |} |};
        {| text := first ++ space :: last;
           vtype := first_last_with_initial;
           parts := Some {| firstName := first; lastName := last;
                            allowInitial := true |} |} ].
Proof.
  intros T. unfold generateNamePatterns. cbv zeta. rewrite T.
  assert (L : (2 <= length (first :: middle ++ [last]))%nat)
    by (simpl; rewrite length_app; simpl; lia).
  destruct (@first_last_split jsstring _ [] L) as [f [mi [la [E [N0 N1]]]]].
  rewrite N1. cbn [nth].
  assert (f = first /\ la = last) as [-> ->].
  { inversion E as [[E1 E2]]. split; [reflexivity|].
    apply app_inj_tail in E2. symmetry; apply E2. }
  destruct (Z.ltb_spec (Z.of_nat (length (first :: middle ++ [last]))) 2);
    [lia | reflexivity].
Qed.

Lemma generateNamePatterns_few fullName :
  (length (tokensOf (normalizeText fullName)) < 2)%nat ->
  generateNamePatterns fullName = [].
Proof.
  intros L. unfold generateNamePatterns. cbv zeta.
  destruct (Z.ltb_spec
              (Z.of_nat (length (tokensOf (normalizeText fullName)))) 2);
    [reflexivity | lia].
Qed.

(** C4. With [tokens] the non-empty space-delimited tokens of the
    normalised name: a name pattern is generated only when there are at
    least two tokens and the first and the last have at least 2
    characters (so at least two tokens are valid); the variations then
    generated all carry the one text "first last", whatever the middle
    tokens are; a name with fewer than two valid tokens generates
    nothing. *)
Theorem C4_name_patterns fullName :
  let tokens := tokensOf (normalizeText fullName) in
  (generateNamePatterns fullName <> [] ->
     exists first middle last,
       tokens = first :: middle ++ [last]
       /\ 2 <= len first /\ 2 <= len last
       /\ (2 <= length (filter validToken tokens))%nat
       /\ forall v, In v (generateNamePatterns fullName) ->
                    text v = first ++ space :: last)
  /\ (forall first middle last,
        tokens = first :: middle ++ [last] ->
        2 <= len first -> 2 <= len last ->
        map text (generateNamePatterns fullName)
        = [first ++ space :: last; first ++ space :: last])
  /\ ((length (filter validToken tokens) < 2)%nat ->
        generateNamePatterns fullName = []).
Proof.
  intros tokens.
  assert (A : generateNamePatterns fullName <> [] ->
     exists first middle last,
       tokens = first :: middle ++ [last]
       /\ 2 <= len first /\ 2 <= len last
       /\ (2 <= length (filter validToken tokens))%nat
       /\ forall v, In v (generateNamePatterns fullName) ->
                    text v = first ++ space :: last).
  { intros G.
    destruct (Nat.lt_ge_cases (length tokens) 2) as [L|L].
    - exfalso. apply G. apply generateNamePatterns_few. exact L.
    - destruct (@first_last_split jsstring tokens [] L) as [f [mi [la [E _]]]].
      pose proof (generateNamePatterns_shape fullName f mi la E) as S.
      exists f, mi, la.
      destruct (Z.ltb_spec (len f) 2) as [F|F];
        [rewrite S in G; simpl in G; congruence|].
      destruct (Z.ltb_spec (len la) 2) as [La|La];
        [rewrite S in G; simpl in G; congruence|].
      simpl in S. repeat split; auto.
      + rewrite E. simpl. unfold validToken at 1.
        destruct (Z.leb_spec 2 (len f)); [|lia]. simpl.
        rewrite filter_app, length_app. simpl. unfold validToken at 2.
        destruct (Z.leb_spec 2 (len la)); [|lia]. simpl. lia.
      + rewrite S. intros v [<-|[<-|[]]]; reflexivity. }
  split; [exact A|]. split.
  - intros first middle last E F La.
    rewrite (generateNamePatterns_shape fullName first middle last E).
    destruct (Z.ltb_spec (len first) 2); [lia|].
    destruct (Z.ltb_spec (len last) 2); [lia|]. reflexivity.
  - intros Few. destruct (generateNamePatterns fullName) eqn:G;
      [reflexivity|].
    destruct A as [f [mi [la [_ [_ [_ [Two _]]]]]]]; [discriminate | lia].
Qed.

(** ** C5: the boundary validator *)

Lemma char_at_in_range (s : jsstring) (i : Z) :
  0 <= i < len s -> exists c, char_at s i = Some c.
Proof.
  intros [L U]. unfold char_at.
  destruct (Z.ltb_spec i 0); [lia|].
  destruct (nth_error s (Z.to_nat i)) as [c|] eqn:E; [eauto|].
  apply nth_error_None in E. unfold len in U. lia.
Qed.

(** Case analysis over the 256 characters. *)
Ltac by_cases_on_char c :=
  destruct c as [[] [] [] [] [] [] [] []]; vm_compute;
  intros; first [reflexivity | discriminate].

Lemma boundary_not_word (c : ascii) :
  boundaryRegex c = true -> isWordChar c = false.
Proof. by_cases_on_char c. Qed.

Lemma hasValidWordBoundaries_iff text start end_ :
  0 <= start < end_ -> end_ <= len text ->
  hasValidWordBoundaries text start end_ = true
  <-> edgeBefore text start /\ edgeAfter text end_.
Proof.
  intros R1 R2. unfold hasValidWordBoundaries.
  destruct (char_at_in_range text start ltac:(lia)) as [c0 C0].
  destruct (char_at_in_range text (end_ - 1) ltac:(lia)) as [c1 C1].
  rewrite C0, C1. cbn [testValue]. rewrite andb_true_iff.
  match goal with
  | |- (?x = true /\ ?y = true) <-> _ =>
      cut ((x = true <-> edgeBefore text start)
           /\ (y = true <-> edgeAfter text end_)); [tauto | split]
  end.
  - unfold edgeBefore. destruct (Z.ltb_spec 0 start) as [P|P].
    + destruct (char_at_in_range text (start - 1) ltac:(lia)) as [b B].
      rewrite B, C0, orb_true_iff, andb_true_iff. split.
      * intros [H|[H1 H2]]; [right; left; eauto|].
        right; right. exists b, c0. auto.
      * intros [H|[[b' [E H]]|[b' [c' [E [E' [H1 H2]]]]]]]; [lia| |];
          inversion E; subst; auto.
        inversion E'; subst; auto.
    + assert (start = 0) by lia. subst. split; auto.
  - unfold edgeAfter. destruct (Z.ltb_spec end_ (len text)) as [P|P].
    + destruct (char_at_in_range text end_ ltac:(lia)) as [a A].
      rewrite A, C1, orb_true_iff, andb_true_iff. split.
      * intros [H|[H1 H2]]; [right; left; eauto|].
        right; right. exists a, c1. auto.
      * intros [H|[[a' [E H]]|[a' [c' [E [E' [H1 H2]]]]]]]; [lia| |];
          inversion E; subst; auto.
        inversion E'; subst; auto.
    + assert (end_ = len text) by lia. subst. split; auto.
Qed.

(** C5. For a match [start, end_) inside the text that the validator
    accepts, the character before the start is absent, a boundary symbol,
    or a digit followed by a letter of the match, and the character after
    the end is absent, a boundary symbol, or a digit preceded by a letter
    of the match; a word character next to an accepted match is therefore
    never a letter or underscore, and a digit only across such a
    letter-digit edge. *)
Theorem C5_boundaries text start end_ :
  0 <= start < end_ -> end_ <= len text ->
  hasValidWordBoundaries text start end_ = true ->
  edgeBefore text start
  /\ edgeAfter text end_
  /\ (forall b, char_at text (start - 1) = Some b -> isWordChar b = true ->
        isNumber b = true
        /\ exists c, char_at text start = Some c /\ isLetter c = true)
  /\ (forall a, char_at text end_ = Some a -> isWordChar a = true ->
        isNumber a = true
        /\ exists c, char_at text (end_ - 1) = Some c /\ isLetter c = true).
Proof.
  intros R1 R2 H.
  apply (hasValidWordBoundaries_iff text start end_ R1 R2) in H.
  destruct H as [B A]. split; [exact B|]. split; [exact A|]. split.
  - intros b Hb Wb.
    destruct B as [Z0|[[b' [E Hs]]|[b' [c [E [C [N L]]]]]]].
    + subst start. unfold char_at in Hb. simpl in Hb. discriminate.
    + rewrite E in Hb. inversion Hb; subst b'.
      apply boundary_not_word in Hs. congruence.
    + rewrite E in Hb. inversion Hb; subst b'.
      split; [exact N | exists c; auto].
  - intros a Ha Wa.
    destruct A as [Z0|[[a' [E Hs]]|[a' [c [E [C [L N]]]]]]].
    + subst end_. unfold char_at in Ha.
      destruct (Z.ltb_spec (len text) 0); [discriminate|].
      assert (X : nth_error text (Z.to_nat (len text)) = None)
        by (apply nth_error_None; unfold len; lia).
      congruence.
    + rewrite E in Ha. inversion Ha; subst a'.
      apply boundary_not_word in Hs. congruence.
    + rewrite E in Ha. inversion Ha; subst a'.
      split; [exact N | exists c; auto].
Qed.

(** ** C8: company patterns *)

Lemma trimStart_length (s : jsstring) :
  (length (trimStart s) <= length s)%nat.
Proof.
  induction s as [|c s IH]; simpl; [lia|].
  destruct (isSpace c); simpl; lia.
Qed.

Lemma trim_length (s : jsstring) : (length (trim s) <= length s)%nat.
Proof.
  unfold trim, trimEnd. rewrite length_rev.
  pose proof (trimStart_length (rev (trimStart s))) as H.
  rewrite length_rev in H. pose proof (trimStart_length s). lia.
Qed.

Lemma plus_loop_shorter p k prev s r :
  (forall prev' s' r', k prev' s' = Some r' ->
                       (length r' <= length s')%nat) ->
  Regex.plus_loop p k prev s = Some r ->
  (length r < length s)%nat.
Proof.
  intros K. revert prev. induction s as [|c s IH]; intros prev; simpl;
    [discriminate|].
  destruct (p c); [|discriminate].
  destruct (Regex.plus_loop p k (Some c) s) as [r0|] eqn:E.
  - intros X; inversion X; subst. apply IH in E. lia.
  - intros X. apply K in X. lia.
Qed.

(** Removing matches never lengthens the text. *)
Lemma replace_nil_length r prev skip s :
  (length (Regex.replace_go r [] prev skip s) <= length s)%nat.
Proof.
  revert prev skip. induction s as [|c s IH]; intros prev skip.
  - simpl. destruct skip; [|simpl; lia].
    destruct (Regex.match_here r prev []); simpl; lia.
  - cbn [Regex.replace_go]. destruct skip as [|n].
    + destruct (Regex.match_here r prev (c :: s)) as [rest|].
      * destruct (length (c :: s) - length rest)%nat.
        -- simpl. specialize (IH (Some c) O). lia.
        -- simpl. specialize (IH (Some c) n). lia.
      * simpl. specialize (IH (Some c) O). lia.
    + specialize (IH (Some c) n). simpl. lia.
Qed.

(** Replacing every run of [p] by one character never lengthens the
    text. *)
Lemma replace_plus_length p x prev skip s :
  (length (Regex.replace_go (Regex.Plus p) [x] prev skip s)
   <= length s)%nat.
Proof.
  revert prev skip. induction s as [|c s IH]; intros prev skip.
  - simpl. destruct skip; simpl; lia.
  - cbn [Regex.replace_go]. destruct skip as [|n].
    + destruct (Regex.match_here (Regex.Plus p) prev (c :: s))
        as [rest|] eqn:M.
      * unfold Regex.match_here in M. cbn [Regex.rmatch] in M.
        apply plus_loop_shorter in M;
          [|intros ? ? ? X; inversion X; subst; lia].
        destruct (length (c :: s) - length rest)%nat eqn:D; [lia|].
        simpl. specialize (IH (Some c) n). lia.
      * simpl. specialize (IH (Some c) O). lia.
    + specialize (IH (Some c) n). simpl. lia.
Qed.

Lemma companyRoot_length (normalized : jsstring) :
  len (companyRoot normalized) <= len normalized.
Proof.
  unfold companyRoot, Regex.replace_all, len.
  pose proof (trim_length
                (Regex.replace_go (Regex.Plus isSpace) [space] None 0
                   (Regex.replace_go suffixRegex [] None 0 normalized))).
  pose proof (replace_plus_length isSpace space None 0
                (Regex.replace_go suffixRegex [] None 0 normalized)).
  pose proof (replace_nil_length suffixRegex None 0 normalized).
  lia.
Qed.

(** C8. With [root] the normalised company name stripped of its legal
    suffixes: a root shorter than 3 characters generates no company
    pattern, and a root of at least 3 characters generates exactly one
    company pattern, whose text is the root. *)
Theorem C8_company_patterns companyName :
  let root := companyRoot (normalizeText companyName) in
  (len root < 3 -> generateCompanyPatterns companyName = [])
  /\ (3 <= len root ->
      generateCompanyPatterns companyName
      = [ {| text := root; vtype := company_root; parts := None |} ]).
Proof.
  intros root. subst root. unfold generateCompanyPatterns. cbv zeta.
  pose proof (companyRoot_length (normalizeText companyName)) as L.
  pose proof (len_nonneg (normalizeText companyName)) as P.
  destruct (Z.eqb_spec (len (normalizeText companyName)) 0) as [E|E];
    destruct (Z.ltb_spec (len (normalizeText companyName)) 3) as [S|S];
    simpl; try (split; [reflexivity | intros; lia]).
  destruct (Z.ltb_spec (len (companyRoot (normalizeText companyName))) 3);
    split; intros; try reflexivity; lia.
Qed.

(** ** JavaScript maps *)

Lemma get_set_same {V} k (v : V) m : JsMap.get k (JsMap.set k v m) = Some v.
Proof.
  induction m as [|[k' v'] m IH]; simpl.
  - rewrite str_eqb_refl. reflexivity.
  - destruct (str_eqb k k') eqn:E; simpl; rewrite ?str_eqb_refl, ?E; auto.
Qed.

Lemma get_set_other {V} k k' (v : V) m :
  k <> k' -> JsMap.get k' (JsMap.set k v m) = JsMap.get k' m.
Proof.
  intros N. induction m as [|[k0 v0] m IH]; simpl.
  - apply not_eq_sym, str_eqb_neq in N. rewrite N. reflexivity.
  - destruct (str_eqb k k0) eqn:E; simpl.
    + apply str_eqb_eq in E. subst k0.
      apply not_eq_sym, str_eqb_neq in N. rewrite N. reflexivity.
    + rewrite IH. reflexivity.
Qed.

Lemma get_none_keys {V} k (m : JsMap.t V) :
  JsMap.get k m = None <-> ~ In k (JsMap.keys m).
Proof.
  induction m as [|[k' v'] m IH]; simpl; [tauto|].
  destruct (str_eqb k k') eqn:E.
  - apply str_eqb_eq in E. subst. split; [discriminate | tauto].
  - apply str_eqb_neq in E. rewrite IH. split; [|tauto].
    intros H [X|X]; [congruence | tauto].
Qed.

Lemma get_some_in {V} k (v : V) m :
  JsMap.get k m = Some v -> In (k, v) m.
Proof.
  induction m as [|[k' v'] m IH]; simpl; [discriminate|].
  destruct (str_eqb k k') eqn:E.
  - apply str_eqb_eq in E. intros X; inversion X; subst. auto.
  - auto.
Qed.

Lemma keys_set_present {V} k (v : V) m :
  JsMap.get k m <> None -> JsMap.keys (JsMap.set k v m) = JsMap.keys m.
Proof.
  induction m as [|[k' v'] m IH]; simpl; [congruence|].
  destruct (str_eqb k k') eqn:E; simpl.
  - apply str_eqb_eq in E. subst. reflexivity.
  - intros H. rewrite (IH H). reflexivity.
Qed.

Lemma keys_set_absent {V} k (v : V) m :
  JsMap.get k m = None ->
  JsMap.keys (JsMap.set k v m) = JsMap.keys m ++ [k].
Proof.
  induction m as [|[k' v'] m IH]; simpl; [reflexivity|].
  destruct (str_eqb k k') eqn:E; simpl; [discriminate|].
  intros H. rewrite (IH H). reflexivity.
Qed.

Lemma set_absent {V} k (v : V) m :
  JsMap.get k m = None -> JsMap.set k v m = m ++ [(k, v)].
Proof.
  induction m as [|[k' v'] m IH]; simpl; [reflexivity|].
  destruct (str_eqb k k') eqn:E; simpl; [discriminate|].
  intros H. rewrite (IH H). reflexivity.
Qed.

(** ** C10: automaton construction *)

Lemma variationsFor_app t a b :
  variationsFor t (a ++ b) = variationsFor t a ++ variationsFor t b.
Proof. apply filter_app. Qed.

Lemma registerVariation_invariant ty pid st derivs v :
  buildInvariant st derivs ->
  buildInvariant (registerVariation ty pid st v)
                 (derivs ++ [tagWith pid v]).
Proof.
  destruct st as [pm all]. intros [K [N G]]. simpl in K, N, G.
  unfold registerVariation, buildInvariant. cbn [fst snd].
  set (pattern := text v).
  pose proof (G pattern) as Gp. unfold JsMap.has.
  assert (Hself : hasText pattern (tagWith pid v) = true)
    by (unfold hasText; simpl; apply str_eqb_refl).
  split; [|split].
  - destruct (JsMap.get pattern pm) as [info|] eqn:E.
    + rewrite keys_set_present by congruence. exact K.
    + rewrite keys_set_absent by exact E. rewrite K. reflexivity.
  - destruct (JsMap.get pattern pm) as [info|] eqn:E; [exact N|].
    apply NoDup_app; [exact N | repeat constructor; intros [] | ].
    intros x Hx [<-|[]]. rewrite <- K in Hx.
    apply get_none_keys in E. tauto.
  - intros t. rewrite variationsFor_app.
    destruct (list_eq_dec ascii_dec pattern t) as [<-|Ne].
    + rewrite get_set_same. cbn [variations prospectIds].
      unfold variationsFor at 2. simpl. rewrite Hself.
      destruct (JsMap.get pattern pm) as [info|] eqn:E.
      * destruct Gp as [G1 [G2 G3]]. rewrite G1, G3, G1.
        repeat split.
        -- intros X. apply app_eq_nil in X. destruct X; discriminate.
        -- rewrite map_app. reflexivity.
      * rewrite Gp. cbn [variations prospectIds]. repeat split.
        discriminate.
    + rewrite get_set_other by exact Ne.
      unfold variationsFor at 2 4. simpl.
      assert (hasText t (tagWith pid v) = false) as ->.
      { unfold hasText. simpl. apply str_eqb_neq. exact Ne. }
      rewrite !app_nil_r. apply G.
Qed.

Lemma registerVariations_invariant ty pid vs st derivs :
  buildInvariant st derivs ->
  buildInvariant (fold_left (registerVariation ty pid) vs st)
                 (derivs ++ map (tagWith pid) vs).
Proof.
  revert st derivs. induction vs as [|v vs IH]; intros st derivs I; simpl.
  - rewrite app_nil_r. exact I.
  - replace (derivs ++ tagWith pid v :: map (tagWith pid) vs)
      with ((derivs ++ [tagWith pid v]) ++ map (tagWith pid) vs)
      by (rewrite <- app_assoc; reflexivity).
    apply IH. apply registerVariation_invariant. exact I.
Qed.

Lemma registerProspect_invariant st derivs p :
  buildInvariant st derivs ->
  buildInvariant (registerProspect st p) (derivs ++ derivationsOf p).
Proof.
  intros I. unfold registerProspect, derivationsOf.
  rewrite app_assoc.
  apply registerVariations_invariant, registerVariations_invariant.
  exact I.
Qed.

Lemma buildPatterns_invariant_from all st derivs :
  buildInvariant st derivs ->
  buildInvariant (fold_left registerProspect all st)
                 (derivs ++ allDerivations all).
Proof.
  revert st derivs. induction all as [|p all IH]; intros st derivs I; simpl.
  - rewrite app_nil_r. exact I.
  - unfold allDerivations in *. rewrite app_assoc. apply IH.
    apply registerProspect_invariant. exact I.
Qed.

Lemma buildPatterns_invariant all :
  buildInvariant (buildPatterns all) (allDerivations all).
Proof.
  apply (buildPatterns_invariant_from all (JsMap.empty, []) []).
  repeat split; simpl; auto. constructor.
Qed.

Lemma variationsFor_nonempty t derivs :
  variationsFor t derivs <> []
  <-> exists pv, In pv derivs /\ text (pv_variation pv) = t.
Proof.
  unfold variationsFor. split.
  - destruct (filter (hasText t) derivs) as [|pv l] eqn:E; [congruence|].
    intros _. assert (H : In pv (filter (hasText t) derivs))
      by (rewrite E; left; reflexivity).
    apply filter_In in H. destruct H as [H1 H2].
    exists pv. split; [exact H1 | apply str_eqb_eq; exact H2].
  - intros [pv [H1 H2]] E.
    assert (H : In pv (filter (hasText t) derivs)).
    { apply filter_In. split; [exact H1|]. apply str_eqb_eq. exact H2. }
    rewrite E in H. exact H.
Qed.

(** C10. After [buildAutomaton], the automaton's keyword list is the key
    list of the pattern map and has no duplicates; a text is a keyword
    exactly when some prospect's name or company derivation produced it;
    and the entry of a text holds, in generation order, one variation for
    every derivation of that text, whatever prospect or kind it came
    from, with the prospect ids alongside. *)
Theorem C10_pattern_uniqueness all :
  let m := buildAutomaton all in
  JsMap.keys (patternMap m) = keywords (automaton m)
  /\ NoDup (keywords (automaton m))
  /\ NoDup (JsMap.keys (patternMap m))
  /\ (forall t, In t (keywords (automaton m))
                <-> exists pv, In pv (allDerivations all)
                               /\ text (pv_variation pv) = t)
  /\ (forall t, (exists pv, In pv (allDerivations all)
                            /\ text (pv_variation pv) = t) ->
        exists info,
          JsMap.get t (patternMap m) = Some info
          /\ variations info = variationsFor t (allDerivations all)
          /\ prospectIds info = map pv_prospectId (variations info)).
Proof.
  intros m. subst m. unfold buildAutomaton.
  pose proof (buildPatterns_invariant all) as I.
  destruct (buildPatterns all) as [pm ks]. destruct I as [K [N G]].
  cbn [fst snd] in K, N, G. cbn [patternMap automaton keywords].
  assert (M : forall t, In t ks
                <-> exists pv, In pv (allDerivations all)
                               /\ text (pv_variation pv) = t).
  { intros t. rewrite <- variationsFor_nonempty, <- K.
    specialize (G t). split.
    - intros Hin. destruct (JsMap.get t pm) as [info|] eqn:E.
      + destruct G as [G1 [G2 _]]. congruence.
      + apply get_none_keys in E. tauto.
    - intros Hne. destruct (JsMap.get t pm) as [info|] eqn:E.
      + apply get_some_in in E. unfold JsMap.keys.
        apply (in_map fst) in E. exact E.
      + congruence. }
  split; [exact K|]. split; [exact N|]. split; [rewrite K; exact N|].
  split; [exact M|].
  intros t Hd. apply variationsFor_nonempty in Hd. specialize (G t).
  destruct (JsMap.get t pm) as [info|]; [|congruence].
  exists info. destruct G as [G1 [_ G3]]. auto.
Qed.

(** ** Sorting with a comparator *)

Section SortBy.

Context {A : Type} (compare : A -> A -> Z).

Hypothesis compare_total : forall a b, leBy compare a b \/ leBy compare b a.

Lemma insertBy_perm x l : Permutation (x :: l) (insertBy compare x l).
Proof.
  induction l as [|y l IH]; simpl; [reflexivity|].
  destruct (compare x y <=? 0); [reflexivity|].
  rewrite perm_swap. apply perm_skip. exact IH.
Qed.

Lemma sortBy_perm l : Permutation l (sortBy compare l).
Proof.
  induction l as [|x l IH]; simpl; [reflexivity|].
  rewrite <- insertBy_perm. apply perm_skip. exact IH.
Qed.

Lemma insertBy_sorted x l :
  Sorted (leBy compare) l -> Sorted (leBy compare) (insertBy compare x l).
Proof.
  induction l as [|y l IH]; intros S; simpl.
  - repeat constructor.
  - destruct (Z.leb_spec (compare x y) 0) as [L|L].
    + constructor; [exact S | constructor; exact L].
    + inversion S as [|? ? S' H]; subst. constructor; [apply IH, S'|].
      assert (Y : leBy compare y x)
        by (destruct (compare_total x y) as [X|X];
            [unfold leBy in X; lia | exact X]).
      destruct l as [|z l]; simpl; [constructor; exact Y|].
      destruct (compare x z <=? 0); constructor; [exact Y|].
      inversion H; subst. assumption.
Qed.

Lemma sortBy_sorted l : Sorted (leBy compare) (sortBy compare l).
Proof.
  induction l as [|x l IH]; simpl; [constructor|].
  apply insertBy_sorted, IH.
Qed.

(** A stable sort leaves a sorted array as it is. *)
Lemma sortBy_sorted_id l : Sorted (leBy compare) l -> sortBy compare l = l.
Proof.
  induction l as [|x l IH]; intros S; simpl; [reflexivity|].
  inversion S as [|? ? S' H]; subst. rewrite (IH S').
  destruct l as [|y l]; simpl; [reflexivity|].
  inversion H as [|? ? L]; subst. unfold leBy in L.
  destruct (Z.leb_spec (compare x y) 0); [reflexivity | lia].
Qed.

End SortBy.

(** ** The comparator of deduplicateMatches *)

Lemma compareMatches_le a b :
  leBy compareMatches a b
  <-> confidence b < confidence a
      \/ (confidence b = confidence a
          /\ typeOrder (match_type b) <= typeOrder (match_type a)).
Proof.
  unfold leBy, compareMatches.
  destruct (Z.eqb_spec (confidence b) (confidence a)); simpl; lia.
Qed.

Lemma compareMatches_total a b :
  leBy compareMatches a b \/ leBy compareMatches b a.
Proof. rewrite !compareMatches_le. lia. Qed.

Lemma compareMatches_trans a b c :
  leBy compareMatches a b -> leBy compareMatches b c ->
  leBy compareMatches a c.
Proof. rewrite !compareMatches_le. lia. Qed.

(** ** More on maps *)

Lemma in_set {V} k (v : V) k0 v0 m :
  In (k, v) (JsMap.set k0 v0 m) -> (k = k0 /\ v = v0) \/ In (k, v) m.
Proof.
  induction m as [|[k' v'] m IH]; simpl.
  - intros [E|[]]. inversion E. auto.
  - destruct (str_eqb k0 k'); simpl.
    + intros [E|H]; [inversion E; auto | auto].
    + intros [E|H]; [auto | destruct (IH H); auto].
Qed.

Lemma nodup_keys_set {V} k (v : V) m :
  NoDup (JsMap.keys m) -> NoDup (JsMap.keys (JsMap.set k v m)).
Proof.
  intros N. destruct (JsMap.get k m) as [x|] eqn:E.
  - rewrite keys_set_present by congruence. exact N.
  - rewrite keys_set_absent by exact E.
    apply NoDup_app; [exact N | repeat constructor; intros [] |].
    intros y Hy [<-|[]]. apply get_none_keys in E. tauto.
Qed.

(** ** The loop of deduplicateMatches *)

Lemma beats_refl m : beats m m.
Proof. unfold beats. split; [lia | auto]. Qed.

Lemma dedupStep_invariant done seen m :
  dedupInvariant done seen ->
  dedupInvariant (done ++ [m]) (dedupStep seen m).
Proof.
  intros [N [E C]]. unfold dedupStep.
  assert (Keep : forall seen',
    (forall k, k <> dedupKey m -> JsMap.get k seen' = JsMap.get k seen) ->
    forall r, JsMap.get (dedupKey m) seen' = Some r ->
    (forall m', In m' done -> dedupKey m' = dedupKey m -> beats r m') ->
    beats r m ->
    forall m', In m' (done ++ [m]) ->
      exists r', JsMap.get (dedupKey m') seen' = Some r' /\ beats r' m').
  { intros seen' O r G B Bm m' Hin.
    destruct (list_eq_dec ascii_dec (dedupKey m') (dedupKey m)) as [Q|Q].
    - rewrite Q. exists r. split; [exact G|].
      apply in_app_or in Hin. destruct Hin as [H|[<-|[]]]; auto.
    - rewrite (O _ Q). apply in_app_or in Hin.
      destruct Hin as [H|[<-|[]]]; [apply C, H | congruence]. }
  assert (Entries : forall k r,
    In (k, r) (JsMap.set (dedupKey m) m seen) ->
    dedupKey r = k /\ In r (done ++ [m])).
  { intros k r H. apply in_set in H. destruct H as [[-> ->]|H].
    - split; [reflexivity | apply in_or_app; right; left; reflexivity].
    - destruct (E k r H). split; [assumption | apply in_or_app; auto]. }
  destruct (JsMap.get (dedupKey m) seen) as [existing|] eqn:G.
  - destruct (replaces m existing) eqn:R.
    + split; [apply nodup_keys_set, N|]. split; [exact Entries|].
      apply (Keep _ (fun k Q => get_set_other _ _ _ _ (not_eq_sym Q)) m
                  (get_set_same _ _ _)); [|apply beats_refl].
      intros m' Hin Q. destruct (C m' Hin) as [r [Gr [B1 B2]]].
      rewrite Q, G in Gr. inversion Gr; subst r.
      unfold replaces in R. unfold beats.
      apply orb_true_iff in R. destruct R as [R|R].
      * apply Z.ltb_lt in R. split; [lia|]. intros X. lia.
      * apply andb_true_iff in R. destruct R as [R1 R2].
        apply Z.eqb_eq in R1. split; [lia|]. intros _ _.
        destruct (match_type m); simpl in R2; congruence.
    + split; [exact N|]. split.
      * intros k r H. destruct (E k r H).
        split; [assumption | apply in_or_app; auto].
      * apply (Keep seen (fun _ _ => eq_refl) existing G).
        -- intros m' Hin Q. destruct (C m' Hin) as [r [Gr B]].
           rewrite Q, G in Gr. inversion Gr; subst. exact B.
        -- unfold replaces in R. apply orb_false_iff in R.
           destruct R as [R1 R2]. apply Z.ltb_ge in R1.
           unfold beats. split; [exact R1|]. intros Q T.
           rewrite Q, Z.eqb_refl, T in R2. discriminate.
  - split; [apply nodup_keys_set, N|]. split; [exact Entries|].
    apply (Keep _ (fun k Q => get_set_other _ _ _ _ (not_eq_sym Q)) m
                (get_set_same _ _ _)); [|apply beats_refl].
    intros m' Hin Q. destruct (C m' Hin) as [r [Gr _]].
    rewrite Q, G in Gr. discriminate.
Qed.

Lemma dedup_fold_invariant ms done seen :
  dedupInvariant done seen ->
  dedupInvariant (done ++ ms) (fold_left dedupStep ms seen).
Proof.
  revert done seen. induction ms as [|m ms IH]; intros done seen I; simpl.
  - rewrite app_nil_r. exact I.
  - replace (done ++ m :: ms) with ((done ++ [m]) ++ ms)
      by (rewrite <- app_assoc; reflexivity).
    apply IH, dedupStep_invariant, I.
Qed.

Lemma dedupSeen_invariant ms : dedupInvariant ms (dedupSeen ms).
Proof.
  apply (dedup_fold_invariant ms [] JsMap.empty).
  split; [constructor|]. split; [intros ? ? []|intros ? []].
Qed.

Lemma keys_of_entries (seen : JsMap.t MatchResult) :
  (forall k r, In (k, r) seen -> dedupKey r = k) ->
  map dedupKey (JsMap.values seen) = JsMap.keys seen.
Proof.
  induction seen as [|[k r] seen IH]; intros H; simpl; [reflexivity|].
  rewrite (H k r) by (left; reflexivity).
  f_equal. apply IH. intros k' r' Hin. apply H. right. exact Hin.
Qed.

Lemma dedup_keys_nodup ms : NoDup (map dedupKey (deduplicateMatches ms)).
Proof.
  destruct (dedupSeen_invariant ms) as [N [E _]].
  unfold deduplicateMatches.
  apply (Permutation_NoDup
           (l := map dedupKey (JsMap.values (dedupSeen ms)))).
  - apply Permutation_map, sortBy_perm.
  - rewrite keys_of_entries; [exact N|]. intros k r H. apply (E k r H).
Qed.

Lemma dedup_sorted ms :
  Sorted (leBy compareMatches) (deduplicateMatches ms).
Proof. apply sortBy_sorted, compareMatches_total. Qed.

Lemma dedup_fold_fresh l seen :
  NoDup (JsMap.keys seen ++ map dedupKey l) ->
  fold_left dedupStep l seen = seen ++ map dedupEntry l.
Proof.
  revert seen. induction l as [|m l IH]; intros seen N; simpl.
  - rewrite app_nil_r. reflexivity.
  - assert (G : JsMap.get (dedupKey m) seen = None).
    { apply get_none_keys. simpl in N. apply NoDup_remove_2 in N.
      intros H. apply N. apply in_or_app. left. exact H. }
    unfold dedupStep at 2. rewrite G, (set_absent _ _ _ G), IH.
    + rewrite <- app_assoc. reflexivity.
    + unfold JsMap.keys in *. rewrite map_app, <- app_assoc. exact N.
Qed.

Lemma values_entries l : JsMap.values (map dedupEntry l) = l.
Proof.
  unfold JsMap.values. rewrite map_map. simpl. apply map_id.
Qed.

(** C7. Running [deduplicateMatches] on its own output returns that
    output: the same records in the same order. *)
Theorem C7_dedup_idempotent ms :
  deduplicateMatches (deduplicateMatches ms) = deduplicateMatches ms.
Proof.
  unfold deduplicateMatches at 1. unfold dedupSeen.
  rewrite dedup_fold_fresh by (simpl; apply dedup_keys_nodup).
  simpl. rewrite values_entries.
  apply sortBy_sorted_id, dedup_sorted.
Qed.

(** ** What deduplicateMatches guarantees, key by key *)

Lemma dedup_in ms r : In r (deduplicateMatches ms) -> In r ms.
Proof.
  intros H. unfold deduplicateMatches in H.
  apply (Permutation_in _ (Permutation_sym (sortBy_perm _ _))) in H.
  unfold JsMap.values in H. apply in_map_iff in H.
  destruct H as [[k r'] [E H]]. simpl in E. subst r'.
  destruct (dedupSeen_invariant ms) as [_ [En _]]. apply (En k r H).
Qed.

Lemma dedup_best ms m :
  In m ms ->
  exists r, In r (deduplicateMatches ms)
            /\ dedupKey r = dedupKey m /\ beats r m.
Proof.
  intros H. destruct (dedupSeen_invariant ms) as [_ [En C]].
  destruct (C m H) as [r [G B]]. exists r.
  apply get_some_in in G. split; [|split; [apply (En _ _ G) | exact B]].
  unfold deduplicateMatches.
  apply (Permutation_in _ (sortBy_perm _ _)).
  unfold JsMap.values. apply (in_map snd) in G. exact G.
Qed.

Lemma dedup_unique_per_key ms r r' :
  In r (deduplicateMatches ms) -> In r' (deduplicateMatches ms) ->
  dedupKey r = dedupKey r' -> r = r'.
Proof.
  pose proof (dedup_keys_nodup ms) as N.
  induction (deduplicateMatches ms) as [|x l IH]; simpl; [tauto|].
  inversion N as [|? ? Nin N']; subst.
  intros [<-|H] [<-|H'] Q; auto.
  - exfalso. apply Nin. rewrite Q. apply in_map. exact H'.
  - exfalso. apply Nin. rewrite <- Q. apply in_map. exact H.
Qed.

(** The output is in descending confidence, NameAndCompany first at
    equal confidence, between any two positions. *)
Lemma dedup_ordered ms :
  StronglySorted
    (fun a b => confidence b < confidence a
                \/ (confidence b = confidence a
                    /\ typeOrder (match_type b)
                       <= typeOrder (match_type a)))
    (deduplicateMatches ms).
Proof.
  assert (S : StronglySorted (leBy compareMatches) (deduplicateMatches ms)).
  { apply Sorted_StronglySorted; [|apply dedup_sorted].
    intros a b c. apply compareMatches_trans. }
  induction S as [|x l S IH F]; constructor; [exact IH|].
  eapply Forall_impl; [|exact F]. intros b. apply compareMatches_le.
Qed.

Lemma key_split (a b x y : jsstring) :
  ~ In colon a -> ~ In colon b ->
  a ++ colon :: x = b ++ colon :: y -> a = b /\ x = y.
Proof.
  revert b. induction a as [|c a IH]; intros [|d b] Na Nb E; simpl in *.
  - inversion E. auto.
  - inversion E; subst. tauto.
  - inversion E; subst. tauto.
  - inversion E; subst. destruct (IH b) as [-> ->]; auto.
Qed.

(** Keys tell groups apart when prospect ids hold no colon. *)
Lemma dedupKey_injective a b :
  ~ In colon (prospect_id a) -> ~ In colon (prospect_id b) ->
  dedupKey a = dedupKey b -> sameGroup a b.
Proof. intros Na Nb E. apply (key_split _ _ _ _ Na Nb E). Qed.

(** For prospect ids without a colon, every group of the input is
    answered by exactly one output record, the best of its group. *)
Lemma dedup_one_per_group ms :
  (forall m, In m ms -> ~ In colon (prospect_id m)) ->
  forall m, In m ms ->
    exists r, In r (deduplicateMatches ms) /\ sameGroup r m /\ beats r m
              /\ forall r', In r' (deduplicateMatches ms) ->
                            sameGroup r' m -> r' = r.
Proof.
  intros NC m Hm. destruct (dedup_best ms m Hm) as [r [Hr [K B]]].
  exists r. split; [exact Hr|].
  assert (G : sameGroup r m)
    by (apply dedupKey_injective; auto; apply NC, dedup_in, Hr).
  split; [exact G|]. split; [exact B|].
  intros r' Hr' [G1 G2]. apply (dedup_unique_per_key ms); auto.
  unfold dedupKey. destruct G as [G3 G4]. congruence.
Qed.

(** ** C2: two groups behind one key *)

(** C2. The key of a result is the text [prospectId:documentId]; the
    results of prospect "7:x" in document "f.txt" and of prospect "7" in
    document "x:f.txt" are of different groups and share the key
    "7:x:f.txt", so [deduplicateMatches] keeps one record for the two
    groups, and the batch over two such documents reports one match where
    the scan found two. *)
Theorem C2_key_collision :
  let a := mkResult "7:x" "f.txt" NameOnly 75 in
  let b := mkResult "7" "x:f.txt" NameAndCompany 95 in
  ~ sameGroup a b
  /\ dedupKey a = dedupKey b
  /\ deduplicateMatches [a; b] = [b]
  /\ (forall r, In r (deduplicateMatches [a; b]) -> ~ sameGroup r a)
  /\ map summary
       (processMatchingLinear sampleEnv
          [ mkProspect "7:x" "John Smith" "Acme Holdings";
            mkProspect "7" "Jane Davis" "Davis Group" ]
          [ document "f.txt" [str "John Smith signed."];
            document "x:f.txt" [str "Jane Davis of Davis Group."] ])
     = [ (str "7", str "x:f.txt", NameAndCompany, 95) ].
Proof.
  intros a b.
  assert (D : deduplicateMatches [a; b] = [b]) by (vm_compute; reflexivity).
  assert (G : ~ sameGroup a b).
  { intros [E _]. vm_compute in E. discriminate E. }
  split; [exact G|]. split; [vm_compute; reflexivity|].
  split; [exact D|]. split.
  - rewrite D. intros r [<-|[]] [E _]. vm_compute in E. discriminate E.
  - vm_compute. reflexivity.
Qed.

(** ** C3: a middle initial in the document *)

(** C3. For the prospect "John A. Smith" the one pattern text is
    "john smith", with an exact and an initial-allowing variation (the
    other keyword is the company root "acme holdings").  The
    document "John A. Smith signed the filing." is normalised to
    "john a smith signed the filing", in which the automaton finds no
    keyword, so the scan yields no result; "John Alexander Smith
    signed." yields none either, and "John Smith signed." yields a
    NameOnly result. *)
Theorem C3_initial_not_matched :
  let m := buildAutomaton [johnASmith] in
  keywords (automaton m) = [str "john smith"; str "acme holdings"]
  /\ map (fun v => (text v, vtype v)) (generateNamePatterns (name johnASmith))
     = [ (str "john smith", first_last_exact);
         (str "john smith", first_last_with_initial) ]
  /\ normalizeText (str "John A. Smith signed the filing.")
     = str "john a smith signed the filing"
  /\ search (automaton m)
            (normalizeText (str "John A. Smith signed the filing.")) = []
  /\ (forall env,
        processFileLinear env m (str "a.txt")
          (Opened (SData (str "John A. Smith signed the filing.") SEnd))
        = Resolved [])
  /\ (forall env,
        processFileLinear env m (str "b.txt")
          (Opened (SData (str "John Alexander Smith signed.") SEnd))
        = Resolved [])
  /\ (forall env,
        match processFileLinear env m (str "c.txt")
                (Opened (SData (str "John Smith signed.") SEnd)) with
        | Resolved r => map summary r
        | Rejected => []
        end = [ (str "1", str "c.txt", NameOnly, 75) ]).
Proof.
  intros m. repeat split; try intros env; vm_compute; reflexivity.
Qed.

(** ** C6: chunks shorter than the overlap window *)

Lemma onData_short_chunk m st chunk :
  len (previousOverlap st ++ chunk) <= OVERLAP_SIZE ->
  previousOverlap (onData m st chunk) = previousOverlap st.
Proof.
  intros L. unfold onData. cbn [previousOverlap].
  destruct (Z.ltb_spec OVERLAP_SIZE (len (previousOverlap st ++ chunk)));
    [lia | reflexivity].
Qed.

Lemma onData_long_window m st chunk :
  OVERLAP_SIZE < len (previousOverlap st ++ chunk) ->
  previousOverlap (onData m st chunk)
  = skipn (length (previousOverlap st ++ chunk) - Z.to_nat OVERLAP_SIZE)
          (previousOverlap st ++ chunk)
  /\ len (previousOverlap (onData m st chunk)) = OVERLAP_SIZE.
Proof.
  intros L. unfold onData. cbn [previousOverlap].
  set (w := previousOverlap st ++ chunk) in *.
  destruct (Z.ltb_spec OVERLAP_SIZE (len w)); [|lia].
  assert (E : slice_from w (- OVERLAP_SIZE)
              = skipn (length w - Z.to_nat OVERLAP_SIZE) w).
  { unfold slice_from, slice, clamp_index.
    assert (O : OVERLAP_SIZE = 2000) by reflexivity.
    destruct (Z.ltb_spec (- OVERLAP_SIZE) 0); [|lia].
    destruct (Z.ltb_spec (len w) 0); [pose proof (len_nonneg w); lia|].
    rewrite Z.min_id, Z.max_l by lia.
    replace (Z.to_nat (len w + - OVERLAP_SIZE))
      with (length w - Z.to_nat OVERLAP_SIZE)%nat by (unfold len in *; lia).
    apply firstn_all2. rewrite length_skipn. unfold len in *. lia. }
  rewrite E. split; [reflexivity|].
  assert (O : 0 <= OVERLAP_SIZE) by (vm_compute; discriminate).
  unfold len in *. rewrite length_skipn. lia.
Qed.

(** C6. The overlap is taken only from a window longer than
    [OVERLAP_SIZE]; after a shorter window the next chunk is scanned on
    its own.  The document "John Smith signed the filing." scanned in one
    pass yields a NameOnly result for prospect 1; delivered as the chunks
    "John" and " Smith signed the filing." it yields none, although the
    match is 10 characters long. *)
Theorem C6_chunked_scan_misses :
  let m := buildAutomaton [johnSmith] in
  (forall env,
     match processFileLinear env m (str "a.txt")
             (Opened (SData (str "John Smith signed the filing.") SEnd)) with
     | Resolved r => map summary r
     | Rejected => []
     end = [ (str "1", str "a.txt", NameOnly, 75) ])
  /\ (forall env,
        processFileLinear env m (str "a.txt")
          (Opened (SData (str "John")
                     (SData (str " Smith signed the filing.") SEnd)))
        = Resolved [])
  /\ str "John" ++ str " Smith signed the filing."
     = str "John Smith signed the filing."
  /\ previousOverlap (onData m initialScanState (str "John")) = [].
Proof.
  intros m. repeat split; try intros env; vm_compute; reflexivity.
Qed.

(** ** C9: read errors *)

Lemma runStream_error env m filename chunks st :
  runStream env m filename st (streamOf chunks SError) = Resolved [].
Proof.
  revert st. induction chunks as [|c cs IH]; intros st; simpl;
    [reflexivity | apply IH].
Qed.

(** C9. A stream that fails after any number of chunks makes
    [processFileLinear] resolve with the empty list, as does a failing
    [statSync]; the promise is never rejected; and the batch loop, having
    added nothing for that document, goes on with the remaining
    documents. *)
Theorem C9_read_error env m chunks :
  (forall filename,
     processFileLinear env m filename (Opened (streamOf chunks SError))
     = Resolved [])
  /\ (forall filename,
        processFileLinear env m filename StatThrows = Resolved [])
  /\ (forall filename src,
        processFileLinear env m filename src <> Rejected)
  /\ (forall i allMatches p filename rest,
        processFiles env m i allMatches
          ({| path := p; originalname := filename;
              source := Opened (streamOf chunks SError) |} :: rest)
        = processFiles env m (i + 1) (memoryCleanup i allMatches) rest).
Proof.
  split; [|split; [|split]].
  - intros filename. apply runStream_error.
  - reflexivity.
  - intros filename [|s]; simpl; [discriminate|].
    generalize initialScanState. induction s; intros st; simpl;
      [apply IHs | discriminate | discriminate].
  - intros i allMatches p filename rest. cbn [processFiles source originalname].
    unfold processFileLinear. rewrite runStream_error, app_nil_r.
    reflexivity.
Qed.

(** ** The hit records of a scan belong to known prospects *)

Lemma variations_known all :
  forall t info,
    JsMap.get t (patternMap (buildAutomaton all)) = Some info ->
    forall pv, In pv (variations info) ->
               knownProspect (buildAutomaton all) (pv_prospectId pv).
Proof.
  unfold buildAutomaton, knownProspect.
  pose proof (buildPatterns_invariant all) as I.
  destruct (buildPatterns all) as [pm ks]. destruct I as [_ [_ G]].
  cbn [fst] in G. cbn [patternMap prospects].
  intros t info E pv Hin. specialize (G t). rewrite E in G.
  destruct G as [G _]. rewrite G in Hin.
  apply filter_In in Hin. destruct Hin as [Hin _].
  unfold allDerivations in Hin. apply in_flat_map in Hin.
  destruct Hin as [p [Hp Hd]]. exists p. split; [exact Hp|].
  unfold derivationsOf in Hd. apply in_app_or in Hd.
  destruct Hd as [Hd|Hd]; apply in_map_iff in Hd;
    destruct Hd as [v [<- _]]; reflexivity.
Qed.

Lemma recordVariation_known m text pb s e pattern info hits pv :
  hitsKnown m hits -> knownProspect m (pv_prospectId pv) ->
  hitsKnown m (recordVariation text pb s e pattern info hits pv).
Proof.
  intros K P. unfold recordVariation.
  assert (K1 : hitsKnown m
                 match JsMap.get (pv_prospectId pv) hits with
                 | Some _ => hits
                 | None => JsMap.set (pv_prospectId pv) emptyHit hits
                 end).
  { destruct (JsMap.get (pv_prospectId pv) hits); [exact K|].
    intros pid h H. apply in_set in H.
    destruct H as [[-> _]|H]; [exact P | apply (K pid h H)]. }
  destruct (failsInitialCheck text s e info (pv_variation pv)); [exact K1|].
  intros pid h H. apply in_set in H.
  destruct H as [[-> _]|H]; [exact P | apply (K1 pid h H)].
Qed.

Lemma fold_known {X : Type} (m : LinearMatcher)
      (f : JsMap.t Hit -> X -> JsMap.t Hit) (xs : list X) (hits : JsMap.t Hit) :
  (forall h x, In x xs -> hitsKnown m h -> hitsKnown m (f h x)) ->
  hitsKnown m hits -> hitsKnown m (fold_left f xs hits).
Proof.
  revert hits. induction xs as [|x xs IH]; intros hits F K; simpl;
    [exact K|].
  apply IH.
  - intros h y Hy. apply F. right. exact Hy.
  - apply F; [left; reflexivity | exact K].
Qed.

Lemma onData_known all st chunk :
  hitsKnown (buildAutomaton all) (prospectHits st) ->
  hitsKnown (buildAutomaton all)
            (prospectHits (onData (buildAutomaton all) st chunk)).
Proof.
  intros K. unfold onData. cbn [prospectHits].
  apply fold_known; [|exact K].
  intros h [endIndex ps] _ Kh. apply fold_known; [|exact Kh].
  intros h' pattern _ Kh'. unfold recordPattern.
  destruct (JsMap.get pattern (patternMap (buildAutomaton all)))
    as [info|] eqn:E; [|exact Kh'].
  destruct (negb _); [exact Kh'|].
  apply fold_known; [|exact Kh'].
  intros h'' pv Hpv Kh''. apply recordVariation_known; [exact Kh''|].
  apply (variations_known all pattern info E pv Hpv).
Qed.

Lemma scan_known all chunks :
  hitsKnown (buildAutomaton all)
            (prospectHits (scanChunks (buildAutomaton all) chunks)).
Proof.
  unfold scanChunks.
  assert (G : forall st,
             hitsKnown (buildAutomaton all) (prospectHits st) ->
             hitsKnown (buildAutomaton all)
               (prospectHits (fold_left (onData (buildAutomaton all))
                                        chunks st))).
  { induction chunks as [|c cs IH]; intros st K; simpl; [exact K|].
    apply IH, onData_known, K. }
  apply G. intros pid h [].
Qed.

Lemma runStream_end env m filename chunks st :
  runStream env m filename st (streamOf chunks SEnd)
  = Resolved (generateMatchResults env m filename
                (prospectHits (fold_left (onData m) chunks st))).
Proof.
  revert st. induction chunks as [|c cs IH]; intros st; simpl;
    [reflexivity | apply IH].
Qed.

(** A document that is read to its end is reported by classifying every
    hit record of the scan. *)
Lemma processFileLinear_classifies env all filename chunks :
  exists r,
    processFileLinear env (buildAutomaton all) filename
                      (Opened (streamOf chunks SEnd)) = Resolved r
    /\ map summary r
       = flat_map (fun '(pid, h) =>
                     match spec_classify h with
                     | Some (t, c) => [(pid, filename, t, c)]
                     | None => []
                     end)
                  (prospectHits (scanChunks (buildAutomaton all) chunks)).
Proof.
  unfold processFileLinear. rewrite runStream_end. eexists.
  split; [reflexivity|]. fold (scanChunks (buildAutomaton all) chunks).
  pose proof (scan_known all chunks) as K.
  unfold generateMatchResults.
  induction (prospectHits (scanChunks (buildAutomaton all) chunks))
    as [|[pid h] hits IH]; [reflexivity|].
  simpl. rewrite map_app, IH.
  - f_equal. apply classifyHit_summary. apply (K pid h). left; reflexivity.
  - intros pid' h' Hin. apply (K pid' h'). right; exact Hin.
Qed.

(** ** Two documents for the prospect Aaron Davis of Davis Corp *)

Example aaron_davis_both_hits :
  map summary
    (processMatchingLinear sampleEnv [aaronDavis]
       [document "a.txt" [str "Aaron Davis joined Davis Corp."]])
  = [ (str "1", str "a.txt", NameAndCompany, 95) ].
Proof. vm_compute. reflexivity. Qed.

Example aaron_davis_company_only :
  processMatchingLinear sampleEnv [aaronDavis]
    [document "b.txt"
       [str "Mark Davis, John Davis, and Davis Industries were mentioned."]]
  = [].
Proof. vm_compute. reflexivity. Qed.

(** ** The theorems at concrete inputs *)

Lemma C1_classification_witness :
  let m := buildAutomaton [aaronDavis] in
  let hits :=
    prospectHits (scanChunks m [str "Aaron Davis joined Davis Corp."]) in
  (forall pid h, In (pid, h) hits -> knownProspect m pid)
  /\ map summary (generateMatchResults sampleEnv m (str "a.txt") hits)
     = [ (str "1", str "a.txt", NameAndCompany, 95) ].
Proof.
  intros m hits.
  assert (K : forall pid h, In (pid, h) hits -> knownProspect m pid).
  { intros pid h H. vm_compute in H. destruct H as [E|[]].
    inversion E; subst. exists aaronDavis.
    split; [left; reflexivity | reflexivity]. }
  split; [exact K|].
  rewrite (proj1 (C1_classification sampleEnv m (str "a.txt") hits K)).
  vm_compute. reflexivity.
Defined.

Lemma C4_name_patterns_witness :
  map text (generateNamePatterns (str "John A. Smith"))
  = [str "john smith"; str "john smith"]
  /\ generateNamePatterns (str "Madonna") = [].
Proof.
  split.
  - apply (proj1 (proj2 (C4_name_patterns (str "John A. Smith")))
             (str "john") [str "a"] (str "smith")).
    + vm_compute. reflexivity.
    + vm_compute. discriminate.
    + vm_compute. discriminate.
  - apply (proj2 (proj2 (C4_name_patterns (str "Madonna")))).
    vm_compute. lia.
Defined.

Lemma C5_boundaries_witness :
  0 <= 4 < 8 /\ 8 <= len (str "see acme corp")
  /\ hasValidWordBoundaries (str "see acme corp") 4 8 = true
  /\ edgeBefore (str "see acme corp") 4
  /\ edgeAfter (str "see acme corp") 8.
Proof.
  assert (R1 : 0 <= 4 < 8) by lia.
  assert (R2 : 8 <= len (str "see acme corp")) by (vm_compute; discriminate).
  assert (H : hasValidWordBoundaries (str "see acme corp") 4 8 = true)
    by (vm_compute; reflexivity).
  split; [exact R1|]. split; [exact R2|]. split; [exact H|].
  destruct (C5_boundaries (str "see acme corp") 4 8 R1 R2 H) as [B [A _]].
  split; [exact B | exact A].
Defined.

Lemma C8_company_patterns_witness :
  generateCompanyPatterns (str "PNC Capital Markets, Inc.")
  = [ {| text := str "pnc capital markets";
         vtype := company_root; parts := None |} ]
  /\ generateCompanyPatterns (str "AB Inc") = [].
Proof.
  split.
  - apply (proj2 (C8_company_patterns (str "PNC Capital Markets, Inc."))).
    vm_compute. discriminate.
  - apply (proj1 (C8_company_patterns (str "AB Inc"))).
    vm_compute. reflexivity.
Defined.

Lemma C10_pattern_uniqueness_witness :
  exists info,
    JsMap.get (str "aaron davis")
              (patternMap (buildAutomaton [aaronDavis; aaronMDavis]))
    = Some info
    /\ variations info
       = variationsFor (str "aaron davis")
                       (allDerivations [aaronDavis; aaronMDavis])
    /\ prospectIds info = map pv_prospectId (variations info).
Proof.
  apply (proj2 (proj2 (proj2 (proj2
           (C10_pattern_uniqueness [aaronDavis; aaronMDavis]))))).
  exists (tagWith (str "2")
            {| text := str "aaron davis"; vtype := company_root;
               parts := None |}).
  split; [|reflexivity].
  vm_compute. do 5 right. left. reflexivity.
Defined.

(* ================================================================== *)
(** * Part III: further properties of the matcher                      *)
(* ================================================================== *)

(** ** Regular-expression replacement, read as list functions *)

Lemma match_here_chr p prev s :
  Regex.match_here (Regex.Chr p) prev s
  = match s with
    | c :: s' => if p c then Some s' else None
    | [] => None
    end.
Proof. destruct s; reflexivity. Qed.

Lemma replace_chr p x prev s :
  Regex.replace_go (Regex.Chr p) [x] prev 0 s
  = map (fun c => if p c then x else c) s.
Proof.
  revert prev. induction s as [|c s IH]; intros prev; [reflexivity|].
  cbn [Regex.replace_go]. rewrite match_here_chr.
  destruct (p c) eqn:P; cbn [map]; rewrite P.
  - replace (length (c :: s) - length s)%nat with 1%nat
      by (cbn [length]; lia).
    simpl. rewrite IH. reflexivity.
  - rewrite IH. reflexivity.
Qed.

Lemma match_here_spaces prev s :
  Regex.match_here (Regex.Plus isSpace) prev s
  = match s with
    | c :: s' => if isSpace c then Some (trimStart s') else None
    | [] => None
    end.
Proof.
  unfold Regex.match_here. cbn [Regex.rmatch].
  revert prev. induction s as [|c s IH]; intros prev; [reflexivity|].
  cbn [Regex.plus_loop]. destruct (isSpace c); [|reflexivity].
  rewrite IH. destruct s as [|d s]; [reflexivity|].
  simpl. destruct (isSpace d); reflexivity.
Qed.

(** The number of white-space characters a text begins with. *)
Lemma leading_spaces c s :
  (length (c :: s) - length (trimStart (c :: s)))%nat
  = if isSpace c then S (length s - length (trimStart s)) else 0%nat.
Proof.
  pose proof (trimStart_length s). cbn [trimStart].
  destruct (isSpace c); cbn [length]; lia.
Qed.

Lemma replace_spaces_collapse s :
  (forall prev,
     Regex.replace_go (Regex.Plus isSpace) [space] prev
                      (length s - length (trimStart s)) s
     = collapseFrom true s)
  /\ (forall prev,
        Regex.replace_go (Regex.Plus isSpace) [space] prev 0 s
        = collapseFrom false s).
Proof.
  induction s as [|c s [A B]].
  - split; intros prev; simpl; rewrite ?match_here_spaces; reflexivity.
  - split; intros prev.
    + rewrite leading_spaces. cbn [Regex.replace_go collapseFrom].
      destruct (isSpace c) eqn:Sp.
      * apply A.
      * rewrite match_here_spaces, Sp, B. reflexivity.
    + cbn [Regex.replace_go collapseFrom].
      rewrite match_here_spaces. destruct (isSpace c) eqn:Sp.
      * pose proof (trimStart_length s).
        replace (length (c :: s) - length (trimStart s))%nat
          with (S (length s - length (trimStart s)))
          by (cbn [length]; lia).
        simpl. rewrite A. reflexivity.
      * rewrite B. reflexivity.
Qed.

Lemma normalizeTextChunk_eq text :
  normalizeTextChunk text
  = trim (collapseFrom false (map sanitizeChar (toLowerCase text))).
Proof.
  unfold normalizeTextChunk, Regex.replace_all, stripAccents.
  rewrite replace_chr, (proj2 (replace_spaces_collapse _)). reflexivity.
Qed.

(** ** Trimming, from the front *)

Lemma forallb_rev {A : Type} (f : A -> bool) (l : list A) :
  forallb f (rev l) = forallb f l.
Proof.
  induction l as [|x l IH]; [reflexivity|].
  simpl. rewrite forallb_app, IH. simpl. rewrite andb_true_r, andb_comm.
  reflexivity.
Qed.

Lemma trimStart_app a b :
  trimStart (a ++ b)
  = if forallb isSpace a then trimStart b else trimStart a ++ b.
Proof.
  induction a as [|c a IH]; [reflexivity|].
  simpl. destruct (isSpace c); [exact IH | reflexivity].
Qed.

Lemma trimEnd_cons c s :
  trimEnd (c :: s)
  = if forallb isSpace s then (if isSpace c then [] else [c])
    else c :: trimEnd s.
Proof.
  unfold trimEnd. simpl rev. rewrite trimStart_app, forallb_rev.
  destruct (forallb isSpace s).
  - simpl. destruct (isSpace c); reflexivity.
  - rewrite rev_app_distr. reflexivity.
Qed.

Lemma trimEnd_all_spaces s : forallb isSpace s = true -> trimEnd s = [].
Proof.
  induction s as [|c s IH]; [reflexivity|].
  simpl. intros H. apply andb_true_iff in H. destruct H as [C S].
  rewrite trimEnd_cons, S, C. reflexivity.
Qed.

Lemma trimEnd_not_nil s : forallb isSpace s = false -> trimEnd s <> [].
Proof.
  induction s as [|c s IH]; [discriminate|].
  simpl. rewrite trimEnd_cons. intros H.
  destruct (forallb isSpace s); [|discriminate].
  rewrite andb_true_r in H. rewrite H. discriminate.
Qed.

(** ** Characters of normalised text *)

Lemma normWord_not_space c : isNormWord c = true -> isSpace c = false.
Proof. by_cases_on_char c. Qed.

Lemma normWord_not_blank c :
  isNormWord c = true -> Ascii.eqb c space = false.
Proof. by_cases_on_char c. Qed.


Lemma blank_fixed : sanitizeChar (toLowerChar space) = space.
Proof. reflexivity. Qed.

Lemma blank_is_space : isSpace space = true.
Proof. reflexivity. Qed.

Lemma sanitized_char c :
  isSpace (sanitizeChar (toLowerChar c)) = false ->
  isNormWord (sanitizeChar (toLowerChar c)) = true.
Proof. by_cases_on_char c. Qed.

Lemma eqb_space c : Ascii.eqb c space = true -> c = space.
Proof. apply Ascii.eqb_eq. Qed.

(** ** normalizeTextChunk yields canonical text *)

Lemma collapse_loose b u :
  Forall (fun c => isSpace c = false -> isNormWord c = true) u ->
  looseFrom b (collapseFrom b u) = true.
Proof.
  intros F. revert b. induction F as [|c u C F IH]; intros b;
    [reflexivity|].
  cbn [collapseFrom]. destruct (isSpace c) eqn:Sp.
  - destruct b; [apply IH|]. cbn [looseFrom]. rewrite Ascii.eqb_refl.
    simpl. apply IH.
  - cbn [looseFrom]. rewrite (normWord_not_blank c (C eq_refl)), (C eq_refl).
    simpl. apply IH.
Qed.

Lemma loose_trimStart b v :
  looseFrom b v = true -> looseFrom true (trimStart v) = true.
Proof.
  destruct v as [|c v]; [reflexivity|].
  cbn [looseFrom trimStart]. destruct (Ascii.eqb c space) eqn:E.
  - apply eqb_space in E. subst c. rewrite blank_is_space.
    destruct b; [discriminate|]. simpl. intros L.
    destruct v as [|d v]; [reflexivity|].
    revert L. cbn [looseFrom trimStart].
    destruct (Ascii.eqb d space) eqn:E'; [discriminate|].
    intros L. apply andb_true_iff in L. destruct L as [W L].
    rewrite (normWord_not_space d W). cbn [looseFrom]. rewrite E', W, L.
    reflexivity.
  - intros L. apply andb_true_iff in L. destruct L as [W L].
    rewrite (normWord_not_space c W). cbn [looseFrom]. rewrite E, W, L.
    reflexivity.
Qed.

Lemma loose_trimEnd b v :
  looseFrom b v = true ->
  trimEnd v = [] \/ canonFrom b (trimEnd v) = true.
Proof.
  revert b. induction v as [|c v IH]; intros b L; [left; reflexivity|].
  rewrite trimEnd_cons. revert L. cbn [looseFrom].
  destruct (Ascii.eqb c space) eqn:E.
  - apply eqb_space in E. subst c. rewrite blank_is_space. intros L.
    apply andb_true_iff in L. destruct L as [B L].
    destruct (forallb isSpace v) eqn:S; [left; reflexivity|]. right.
    cbn [canonFrom]. rewrite Ascii.eqb_refl, B. simpl.
    destruct (IH true L) as [N|C]; [|exact C].
    exfalso. exact (trimEnd_not_nil v S N).
  - intros L. apply andb_true_iff in L. destruct L as [W L].
    rewrite (normWord_not_space c W). right.
    destruct (forallb isSpace v) eqn:S.
    + cbn [canonFrom]. rewrite E, W. reflexivity.
    + cbn [canonFrom]. rewrite E, W. simpl.
      destruct (IH false L) as [N|C]; [|exact C].
      exfalso. exact (trimEnd_not_nil v S N).
Qed.

Lemma sanitized_text text :
  Forall (fun c => isSpace c = false -> isNormWord c = true)
         (map sanitizeChar (toLowerCase text)).
Proof.
  unfold toLowerCase. rewrite map_map. apply Forall_forall.
  intros c H. apply in_map_iff in H. destruct H as [d [<- _]].
  apply sanitized_char.
Qed.

Lemma normalizeTextChunk_canonical text :
  canonical (normalizeTextChunk text) = true.
Proof.
  rewrite normalizeTextChunk_eq. unfold trim.
  pose proof (collapse_loose false _ (sanitized_text text)) as L.
  apply loose_trimStart in L. apply loose_trimEnd in L.
  destruct L as [-> | C]; [reflexivity|].
  unfold canonical. destruct (trimEnd _); [reflexivity | exact C].
Qed.

(** ** What canonical text looks like *)

Lemma canon_weaken s : canonFrom true s = true -> canonFrom false s = true.
Proof.
  destruct s as [|c s]; [discriminate|]. cbn [canonFrom].
  destruct (Ascii.eqb c space); [discriminate | auto].
Qed.

Lemma canon_chars b s :
  canonFrom b s = true -> Forall (fun c => isNormChar c = true) s.
Proof.
  revert b. induction s as [|c s IH]; intros b; [constructor|].
  cbn [canonFrom]. unfold isNormChar at 1.
  destruct (Ascii.eqb c space) eqn:E; intros H;
    apply andb_true_iff in H; destruct H as [H1 H2];
    constructor; try (apply (IH _ H2)); unfold isNormChar; rewrite E.
  - apply orb_true_r.
  - rewrite H1. reflexivity.
Qed.

Lemma canonical_chars s :
  canonical s = true -> Forall (fun c => isNormChar c = true) s.
Proof.
  destruct s as [|c s]; [constructor|]. apply canon_chars.
Qed.

Lemma canon_no_double b s pre post :
  canonFrom b s = true -> s <> pre ++ space :: space :: post.
Proof.
  revert b s. induction pre as [|x pre IH]; intros b s C E; subst s.
  - cbn [app canonFrom] in C. rewrite !Ascii.eqb_refl in C.
    destruct b, (canonFrom true post); discriminate.
  - cbn [app canonFrom] in C.
    destruct (Ascii.eqb x space); apply andb_true_iff in C;
      destruct C as [_ C]; exact (IH _ _ C eq_refl).
Qed.

Lemma canon_no_trailing b s pre :
  canonFrom b s = true -> s <> pre ++ [space].
Proof.
  revert b s. induction pre as [|x pre IH]; intros b s C E; subst s.
  - cbn [app canonFrom] in C. rewrite Ascii.eqb_refl in C.
    destruct b; discriminate.
  - cbn [app canonFrom] in C.
    destruct (Ascii.eqb x space); apply andb_true_iff in C;
      destruct C as [_ C]; exact (IH _ _ C eq_refl).
Qed.

Lemma canon_app b a s :
  canonFrom b a = true -> canonical s = true ->
  canonFrom b (a ++ s) = true.
Proof.
  revert b. induction a as [|c a IH]; intros b.
  - destruct b; [discriminate|]. intros _.
    destruct s as [|d s]; [reflexivity|]. apply canon_weaken.
  - cbn [app canonFrom]. destruct (Ascii.eqb c space); intros C S;
      apply andb_true_iff in C; destruct C as [C1 C2];
      rewrite C1, (IH _ C2 S); reflexivity.
Qed.

Lemma canonical_app a s :
  canonical a = true -> canonical s = true -> canonical (a ++ s) = true.
Proof.
  destruct a as [|c a]; [auto|]. intros A S.
  change (canonFrom true ((c :: a) ++ s) = true). apply canon_app; assumption.
Qed.

(** ** Canonical text is left as it is *)









(** ** normalizeText on texts of any length *)

Lemma normalizeSlices_canonical fuel text :
  canonical (normalizeSlices fuel text) = true.
Proof.
  revert text. induction fuel as [|f IH]; intros text; [reflexivity|].
  cbn [normalizeSlices]. destruct text as [|c t]; [reflexivity|].
  apply canonical_app; [apply normalizeTextChunk_canonical | apply IH].
Qed.

Lemma normalizeText_canonical text : canonical (normalizeText text) = true.
Proof.
  unfold normalizeText. destruct text as [|c t]; [reflexivity|].
  destruct (MAX_CHUNK_SIZE <? len (c :: t)).
  - apply normalizeSlices_canonical.
  - apply normalizeTextChunk_canonical.
Qed.

Lemma collapse_length b s :
  (length (collapseFrom b s) <= length s)%nat.
Proof.
  revert b. induction s as [|c s IH]; intros b; [simpl; lia|].
  cbn [collapseFrom]. destruct (isSpace c).
  - destruct b; cbn [length]; [specialize (IH true) | specialize (IH true)];
      lia.
  - cbn [length]. specialize (IH false). lia.
Qed.

Lemma normalizeTextChunk_length text :
  (length (normalizeTextChunk text) <= length text)%nat.
Proof.
  rewrite normalizeTextChunk_eq.
  pose proof (trim_length
                (collapseFrom false (map sanitizeChar (toLowerCase text)))).
  pose proof (collapse_length false (map sanitizeChar (toLowerCase text))).
  unfold toLowerCase in *. rewrite !length_map in *. lia.
Qed.

Lemma normalizeSlices_length fuel text :
  (length (normalizeSlices fuel text) <= length text)%nat.
Proof.
  revert text. induction fuel as [|f IH]; intros text; [simpl; lia|].
  cbn [normalizeSlices]. destruct text as [|c t]; [simpl; lia|].
  set (n := Z.to_nat MAX_CHUNK_SIZE). clearbody n.
  rewrite length_app.
  pose proof (normalizeTextChunk_length (firstn n (c :: t))).
  pose proof (IH (skipn n (c :: t))).
  pose proof (firstn_skipn n (c :: t)) as E.
  apply (f_equal (@length ascii)) in E. rewrite length_app in E. lia.
Qed.

Lemma normalizeText_length text : len (normalizeText text) <= len text.
Proof.
  unfold normalizeText, len. destruct text as [|c t]; [simpl; lia|].
  destruct (MAX_CHUNK_SIZE <? Z.of_nat (length (c :: t))).
  - pose proof (normalizeSlices_length (length (c :: t)) (c :: t)). lia.
  - pose proof (normalizeTextChunk_length (c :: t)). lia.
Qed.


(** X1. Whatever the text and its length, [normalizeText] returns only
    lower-case letters, digits, underscores and spaces, with no space at
    the start or the end and no two spaces in a row, and never more
    characters than it was given. *)
Theorem X1_normalizeText_shape text :
  Forall (fun c => isNormChar c = true) (normalizeText text)
  /\ (forall rest, normalizeText text <> space :: rest)
  /\ (forall pre, normalizeText text <> pre ++ [space])
  /\ (forall pre post, normalizeText text <> pre ++ space :: space :: post)
  /\ len (normalizeText text) <= len text.
Proof.
  pose proof (normalizeText_canonical text) as C.
  split; [apply canonical_chars, C|].
  split; [intros rest E; rewrite E in C; discriminate|].
  assert (K : forall x y, normalizeText text = x :: y ->
                          canonFrom true (normalizeText text) = true).
  { intros x y E. rewrite E in *. exact C. }
  split; [|split; [|apply normalizeText_length]].
  - intros pre E. destruct (normalizeText text) as [|x y] eqn:N;
      [destruct pre; discriminate|].
    exact (canon_no_trailing true _ pre (K x y eq_refl) E).
  - intros pre post E. destruct (normalizeText text) as [|x y] eqn:N;
      [destruct pre; discriminate|].
    exact (canon_no_double true _ pre post (K x y eq_refl) E).
Qed.


(** ** Tokens and patterns *)

Lemma split_on_pieces (P : ascii -> Prop) sep s :
  Forall P s ->
  Forall (fun t => Forall P t /\ ~ In sep t) (split_on sep s).
Proof.
  intros F. induction F as [|c s Pc F IH]; [repeat constructor; auto|].
  cbn [split_on]. destruct (Ascii.eqb c sep) eqn:E.
  - constructor; [split; [constructor | intros []] | exact IH].
  - destruct (split_on sep s) as [|t ts]; [repeat constructor; auto|].
    + intros [X|[]]. subst. rewrite Ascii.eqb_refl in E. discriminate.
    + inversion IH as [|? ? [Ft Nt] Fts]; subst. constructor; [|exact Fts].
      split; [constructor; assumption|].
      intros [X|X]; [subst; rewrite Ascii.eqb_refl in E; discriminate|].
      exact (Nt X).
Qed.

Lemma tokens_are_words text :
  Forall isWordToken (tokensOf (normalizeText text)).
Proof.
  unfold tokensOf. apply Forall_forall. intros t H.
  apply filter_In in H. destruct H as [H L].
  pose proof (split_on_pieces _ space _
                (canonical_chars _ (normalizeText_canonical text))) as F.
  rewrite Forall_forall in F. destruct (F t H) as [Ft Nt]. split.
  - intros ->. discriminate.
  - apply Forall_forall. intros c Hc. rewrite Forall_forall in Ft.
    specialize (Ft c Hc). unfold isNormChar in Ft.
    apply orb_true_iff in Ft. destruct Ft as [W|E]; [exact W|].
    apply eqb_space in E. subst c. contradiction.
Qed.

Lemma canon_after_word b w r :
  isWordToken w -> canonFrom b (w ++ r) = canonFrom false r.
Proof.
  intros [N F]. revert b. induction F as [|c w W F IH]; intros b;
    [congruence|].
  cbn [app canonFrom]. rewrite (normWord_not_blank c W), W. simpl.
  destruct w as [|d w]; [reflexivity|]. apply IH. discriminate.
Qed.

Lemma two_words_canonical first last :
  isWordToken first -> isWordToken last ->
  canonical (first ++ space :: last) = true.
Proof.
  intros F L. unfold canonical.
  destruct (first ++ space :: last) eqn:E;
    [destruct first; discriminate|].
  rewrite <- E, (canon_after_word true first _ F).
  cbn [canonFrom]. rewrite Ascii.eqb_refl. simpl.
  rewrite <- (app_nil_r last), (canon_after_word true last [] L).
  reflexivity.
Qed.

Lemma name_pattern_facts fullName v :
  In v (generateNamePatterns fullName) ->
  exists first last ai,
    parts v = Some {| firstName := first; lastName := last;
                      allowInitial := ai |}
    /\ text v = first ++ space :: last
    /\ isWordToken first /\ isWordToken last
    /\ 2 <= len first /\ 2 <= len last
    /\ canonical (text v) = true.
Proof.
  intros Hv.
  destruct (Nat.lt_ge_cases (length (tokensOf (normalizeText fullName))) 2)
    as [L|L].
  - rewrite (generateNamePatterns_few fullName L) in Hv. destruct Hv.
  - destruct (@first_last_split jsstring _ [] L) as [f [mi [la [E _]]]].
    pose proof (tokens_are_words fullName) as T. rewrite E in T.
    assert (Wf : isWordToken f) by (inversion T; assumption).
    assert (Wl : isWordToken la).
    { rewrite Forall_forall in T. apply T. right. apply in_or_app.
      right. left. reflexivity. }
    rewrite (generateNamePatterns_shape fullName f mi la E) in Hv.
    destruct (Z.ltb_spec (len f) 2); [destruct Hv|].
    destruct (Z.ltb_spec (len la) 2); [destruct Hv|]. simpl in Hv.
    pose proof (two_words_canonical f la Wf Wl) as C.
    destruct Hv as [<-|[<-|[]]]; eexists f, la, _; cbn [text parts];
      (split; [reflexivity|]); (split; [reflexivity|]);
      (split; [exact Wf|]); (split; [exact Wl|]);
      (split; [assumption|]); (split; [assumption | exact C]).
Qed.

Lemma replace_nil_forall (P : ascii -> Prop) r prev skip s :
  Forall P s -> Forall P (Regex.replace_go r [] prev skip s).
Proof.
  intros F. revert prev skip.
  induction F as [|c s Pc F IH]; intros prev skip.
  - simpl. destruct skip; [|constructor].
    destruct (Regex.match_here r prev []); constructor.
  - cbn [Regex.replace_go]. destruct skip as [|n]; [|apply IH].
    destruct (Regex.match_here r prev (c :: s)) as [rest|].
    + destruct (length (c :: s) - length rest)%nat; simpl;
        [constructor; [exact Pc | apply IH] | apply IH].
    + constructor; [exact Pc | apply IH].
Qed.

Lemma trim_collapse_canonical u :
  Forall (fun c => isSpace c = false -> isNormWord c = true) u ->
  canonical (trim (collapseFrom false u)) = true.
Proof.
  intros F. unfold trim. pose proof (collapse_loose false _ F) as L.
  apply loose_trimStart in L. apply loose_trimEnd in L.
  destruct L as [-> | C]; [reflexivity|].
  unfold canonical. destruct (trimEnd _); [reflexivity | exact C].
Qed.

Lemma companyRoot_canonical text :
  canonical (companyRoot (normalizeText text)) = true.
Proof.
  unfold companyRoot, Regex.replace_all.
  rewrite (proj2 (replace_spaces_collapse _)).
  apply trim_collapse_canonical.
  apply replace_nil_forall.
  eapply Forall_impl;
    [|apply canonical_chars, normalizeText_canonical].
  intros c H Sp. unfold isNormChar in H. apply orb_true_iff in H.
  destruct H as [W|E]; [exact W|].
  apply eqb_space in E. subst c. discriminate.
Qed.

Lemma company_pattern_facts companyName v :
  In v (generateCompanyPatterns companyName) ->
  v = {| text := companyRoot (normalizeText companyName);
         vtype := company_root; parts := None |}
  /\ 3 <= len (text v) <= len companyName
  /\ canonical (text v) = true.
Proof.
  unfold generateCompanyPatterns. cbv zeta.
  destruct ((len (normalizeText companyName) =? 0)
            || (len (normalizeText companyName) <? 3)); [intros []|].
  destruct (Z.ltb_spec (len (companyRoot (normalizeText companyName))) 3);
    [intros []|].
  intros [<-|[]]. cbn [text].
  pose proof (companyRoot_length (normalizeText companyName)).
  pose proof (normalizeText_length companyName).
  repeat split; try lia. apply companyRoot_canonical.
Qed.

Lemma keyword_derivation all t :
  In t (keywords (automaton (buildAutomaton all))) ->
  exists p v,
    In p all
    /\ (In v (generateNamePatterns (name p))
        \/ In v (generateCompanyPatterns (company p)))
    /\ text v = t.
Proof.
  unfold buildAutomaton.
  pose proof (buildPatterns_invariant all) as I.
  destruct (buildPatterns all) as [pm ks]. destruct I as [K [_ G]].
  cbn [fst snd] in K, G. cbn [automaton keywords]. intros Hin.
  specialize (G t). destruct (JsMap.get t pm) as [info|] eqn:E.
  - destruct G as [G1 [G2 _]]. rewrite G1 in G2.
    apply variationsFor_nonempty in G2. destruct G2 as [pv [Hpv Ht]].
    unfold allDerivations in Hpv. apply in_flat_map in Hpv.
    destruct Hpv as [p [Hp Hd]]. unfold derivationsOf in Hd.
    apply in_app_or in Hd.
    destruct Hd as [Hd|Hd]; apply in_map_iff in Hd;
      destruct Hd as [v [<- Hv]]; exists p, v; auto.
  - apply get_none_keys in E. rewrite K in E. contradiction.
Qed.



Lemma keyword_facts all t :
  In t (keywords (automaton (buildAutomaton all))) ->
  canonical t = true /\ 3 <= len t.
Proof.
  intros H. destruct (keyword_derivation all t H) as [p [v [_ [[N|C] <-]]]].
  - destruct (name_pattern_facts _ v N)
      as [f [l [ai [_ [T [_ [_ [Lf [Ll C]]]]]]]]].
    split; [exact C|].
    rewrite T. unfold len in *. rewrite length_app. cbn [length]. lia.
  - destruct (company_pattern_facts _ v C) as [_ [L K]].
    split; [exact K | lia].
Qed.


(** ** Hit records during a scan *)

Lemma len_app_z (a b : jsstring) : len (a ++ b) = len a + len b.
Proof. unfold len. rewrite length_app. lia. Qed.

Lemma slice_head_length s n :
  0 <= n -> len (slice s 0 n) <= n.
Proof.
  intros N. unfold slice, clamp_index, len.
  destruct (Z.ltb_spec 0 0); [lia|]. destruct (Z.ltb_spec n 0); [lia|].
  rewrite length_firstn. lia.
Qed.

Lemma pushContext_invariant text pb s e pattern ty h :
  hitInvariant h ->
  hitInvariant (pushContext text pb s e pattern ty (markHit ty h))
  /\ flagOf ty (pushContext text pb s e pattern ty (markHit ty h)) = true
  /\ hitLe h (pushContext text pb s e pattern ty (markHit ty h)).
Proof.
  intros [L [F C]].
  assert (M : flagOf ty (markHit ty h) = true) by (destruct ty; reflexivity).
  assert (Le : hitLe h (markHit ty h))
    by (destruct ty; split; simpl; auto).
  assert (Keep : forall c, flagOf (c_type c) h = true ->
                           flagOf (c_type c) (markHit ty h) = true).
  { intros c. destruct ty, (c_type c); simpl; auto. }
  unfold pushContext.
  assert (E : contexts (markHit ty h) = contexts h) by (destruct ty; reflexivity).
  rewrite E.
  destruct (Z.ltb_spec (Z.of_nat (length (contexts h))) 1) as [Z0|Z1].
  - assert (N : contexts h = []) by (destruct (contexts h); [auto | simpl in Z0; lia]).
    rewrite N. split; [|split].
    + split; [simpl; lia|]. split; [reflexivity|].
      intros c [<-|[]]. cbn [c_type c_context]. split; [|].
      * destruct ty; reflexivity.
      * destruct (Z.ltb_spec 60 (len (slice text (Z.max 0 (s - 20))
                                         (Z.min (len text) (e + 20))))).
        -- rewrite len_app_z. pose proof (slice_head_length
             (slice text (Z.max 0 (s - 20)) (Z.min (len text) (e + 20))) 60).
           change (len ellipsis) with 3. lia.
        -- lia.
    + destruct ty; reflexivity.
    + destruct ty; split; simpl; auto.
  - split; [|split; [exact M | exact Le]].
    split; [rewrite E; exact L|]. split.
    + intros _. rewrite E. lia.
    + intros c Hc. rewrite E in Hc. destruct (C c Hc) as [C1 C2].
      split; [apply Keep, C1 | exact C2].
Qed.

Lemma get_in_nodup {V} k (v : V) m :
  NoDup (JsMap.keys m) -> In (k, v) m -> JsMap.get k m = Some v.
Proof.
  induction m as [|[k' v'] m IH]; simpl; [tauto|].
  intros N [E|H].
  - inversion E; subst. rewrite str_eqb_refl. reflexivity.
  - inversion N as [|? ? Nin N']; subst.
    destruct (str_eqb k k') eqn:E.
    + apply str_eqb_eq in E. subst. exfalso. apply Nin.
      apply (in_map fst) in H. exact H.
    + apply IH; assumption.
Qed.

Lemma emptyHit_invariant : hitInvariant emptyHit.
Proof.
  split; [simpl; lia|]. split; [discriminate | intros c []].
Qed.

Lemma hitLe_refl h : hitLe h h.
Proof. split; auto. Qed.

Lemma hitLe_trans a b c : hitLe a b -> hitLe b c -> hitLe a c.
Proof. intros [A1 A2] [B1 B2]. split; auto. Qed.

Lemma set_invariant pid h hits :
  hitsInvariant hits -> hitInvariant h ->
  hitsInvariant (JsMap.set pid h hits).
Proof.
  intros [N I] H. split; [apply nodup_keys_set, N|].
  intros p x Hin. apply in_set in Hin.
  destruct Hin as [[_ ->]|Hin]; [exact H | apply (I p x Hin)].
Qed.

(** The hit record the scanner works on for a prospect. *)
Lemma recordVariation_cases text pb s e pattern info hits pv :
  hitsInvariant hits ->
  exists h0,
    hitInvariant h0
    /\ (JsMap.get (pv_prospectId pv) hits = Some h0
        \/ (JsMap.get (pv_prospectId pv) hits = None /\ h0 = emptyHit))
    /\ recordVariation text pb s e pattern info hits pv
       = if failsInitialCheck text s e info (pv_variation pv)
         then match JsMap.get (pv_prospectId pv) hits with
              | Some _ => hits
              | None => JsMap.set (pv_prospectId pv) emptyHit hits
              end
         else JsMap.set (pv_prospectId pv)
                (pushContext text pb s e pattern (ptype info)
                             (markHit (ptype info) h0))
                match JsMap.get (pv_prospectId pv) hits with
                | Some _ => hits
                | None => JsMap.set (pv_prospectId pv) emptyHit hits
                end.
Proof.
  intros [N I]. unfold recordVariation.
  destruct (JsMap.get (pv_prospectId pv) hits) as [h|] eqn:G.
  - exists h. split; [apply (I _ _ (get_some_in _ _ _ G))|].
    split; [left; reflexivity | reflexivity].
  - exists emptyHit. split; [apply emptyHit_invariant|].
    split; [right; auto | reflexivity].
Qed.

Lemma recordVariation_invariant text pb s e pattern info hits pv :
  hitsInvariant hits ->
  hitsInvariant (recordVariation text pb s e pattern info hits pv).
Proof.
  intros HI.
  destruct (recordVariation_cases text pb s e pattern info hits pv HI)
    as [h0 [H0 [_ ->]]].
  assert (H1 : hitsInvariant
                 match JsMap.get (pv_prospectId pv) hits with
                 | Some _ => hits
                 | None => JsMap.set (pv_prospectId pv) emptyHit hits
                 end).
  { destruct (JsMap.get (pv_prospectId pv) hits); [exact HI|].
    apply set_invariant; [exact HI | apply emptyHit_invariant]. }
  destruct (failsInitialCheck _ _ _ _ _); [exact H1|].
  apply set_invariant; [exact H1|].
  apply (pushContext_invariant text pb s e pattern (ptype info) h0 H0).
Qed.

Lemma recordVariation_grows text pb s e pattern info hits pv pid h :
  hitsInvariant hits ->
  JsMap.get pid hits = Some h ->
  exists h', JsMap.get pid
               (recordVariation text pb s e pattern info hits pv) = Some h'
             /\ hitLe h h'.
Proof.
  intros HI G.
  destruct (recordVariation_cases text pb s e pattern info hits pv HI)
    as [h0 [H0 [C ->]]].
  destruct (list_eq_dec ascii_dec (pv_prospectId pv) pid) as [E|E].
  - rewrite E in *. rewrite G in *.
    destruct C as [C|[C _]]; [|discriminate]. inversion C; subst h0.
    destruct (failsInitialCheck _ _ _ _ _).
    + exists h. split; [exact G | apply hitLe_refl].
    + rewrite get_set_same. eexists. split; [reflexivity|].
      apply (pushContext_invariant text pb s e pattern (ptype info) h H0).
  - assert (G1 : JsMap.get pid
                   match JsMap.get (pv_prospectId pv) hits with
                   | Some _ => hits
                   | None => JsMap.set (pv_prospectId pv) emptyHit hits
                   end = Some h).
    { destruct (JsMap.get (pv_prospectId pv) hits); [exact G|].
      rewrite get_set_other by exact E. exact G. }
    exists h. split; [|apply hitLe_refl].
    destruct (failsInitialCheck _ _ _ _ _); [exact G1|].
    rewrite get_set_other by exact E. exact G1.
Qed.

Lemma plain_passes text s e info v :
  plainVariation v -> failsInitialCheck text s e info v = false.
Proof.
  unfold plainVariation, failsInitialCheck.
  destruct (ptype info), (parts v) as [np|]; try reflexivity.
  intros ->. reflexivity.
Qed.

Lemma recordVariation_marks text pb s e pattern info hits pv :
  hitsInvariant hits -> plainVariation (pv_variation pv) ->
  exists h, JsMap.get (pv_prospectId pv)
              (recordVariation text pb s e pattern info hits pv) = Some h
            /\ flagOf (ptype info) h = true.
Proof.
  intros HI P.
  destruct (recordVariation_cases text pb s e pattern info hits pv HI)
    as [h0 [H0 [_ ->]]].
  rewrite (plain_passes text s e info _ P), get_set_same.
  eexists. split; [reflexivity|].
  apply (pushContext_invariant text pb s e pattern (ptype info) h0 H0).
Qed.

(** Folding the scanner's steps. *)
Lemma fold_invariant {X : Type} (f : JsMap.t Hit -> X -> JsMap.t Hit)
      (xs : list X) (hits : JsMap.t Hit) :
  (forall h x, hitsInvariant h -> hitsInvariant (f h x)) ->
  hitsInvariant hits -> hitsInvariant (fold_left f xs hits).
Proof.
  intros F. revert hits. induction xs as [|x xs IH]; intros hits I;
    [exact I | apply IH, F, I].
Qed.

Lemma fold_grows {X : Type} (f : JsMap.t Hit -> X -> JsMap.t Hit)
      (xs : list X) (hits : JsMap.t Hit) pid h :
  (forall h x, hitsInvariant h -> hitsInvariant (f h x)) ->
  (forall hs x h, hitsInvariant hs -> JsMap.get pid hs = Some h ->
                  exists h', JsMap.get pid (f hs x) = Some h' /\ hitLe h h') ->
  hitsInvariant hits -> JsMap.get pid hits = Some h ->
  exists h', JsMap.get pid (fold_left f xs hits) = Some h' /\ hitLe h h'.
Proof.
  intros F G. revert hits h. induction xs as [|x xs IH]; intros hits h I E.
  - exists h. split; [exact E | apply hitLe_refl].
  - simpl. destruct (G hits x h I E) as [h1 [E1 L1]].
    destruct (IH (f hits x) h1 (F _ _ I) E1) as [h2 [E2 L2]].
    exists h2. split; [exact E2 | exact (hitLe_trans _ _ _ L1 L2)].
Qed.

Lemma recordPattern_invariant pm text pb e hits pattern :
  hitsInvariant hits ->
  hitsInvariant (recordPattern pm text pb e hits pattern).
Proof.
  intros I. unfold recordPattern.
  destruct (JsMap.get pattern pm) as [info|]; [|exact I].
  destruct (negb _); [exact I|].
  apply fold_invariant; [|exact I].
  intros h x. apply recordVariation_invariant.
Qed.

Lemma recordPattern_grows pm text pb e hits pattern pid h :
  hitsInvariant hits -> JsMap.get pid hits = Some h ->
  exists h', JsMap.get pid (recordPattern pm text pb e hits pattern)
             = Some h' /\ hitLe h h'.
Proof.
  intros I G. unfold recordPattern.
  destruct (JsMap.get pattern pm) as [info|];
    [|exists h; split; [exact G | apply hitLe_refl]].
  destruct (negb _); [exists h; split; [exact G | apply hitLe_refl]|].
  apply fold_grows; auto.
  - intros hs x. apply recordVariation_invariant.
  - intros hs x h0. apply recordVariation_grows.
Qed.

Lemma onData_invariant m st chunk :
  hitsInvariant (prospectHits st) ->
  hitsInvariant (prospectHits (onData m st chunk)).
Proof.
  intros I. unfold onData. cbn [prospectHits].
  apply fold_invariant; [|exact I].
  intros h [endIndex ps] Ih. apply fold_invariant; [|exact Ih].
  intros h' pattern. apply recordPattern_invariant.
Qed.

Lemma onData_grows m st chunk pid h :
  hitsInvariant (prospectHits st) ->
  JsMap.get pid (prospectHits st) = Some h ->
  exists h', JsMap.get pid (prospectHits (onData m st chunk)) = Some h'
             /\ hitLe h h'.
Proof.
  intros I G. unfold onData. cbn [prospectHits].
  apply fold_grows; auto.
  - intros hs [endIndex ps] Ih. apply fold_invariant; [|exact Ih].
    intros h' pattern. apply recordPattern_invariant.
  - intros hs [endIndex ps] h0 Ih G0. apply fold_grows; auto.
    + intros h' pattern. apply recordPattern_invariant.
    + intros hs' pattern h1. apply recordPattern_grows.
Qed.

Lemma initial_invariant : hitsInvariant (prospectHits initialScanState).
Proof. split; [constructor | intros ? ? []]. Qed.

Lemma chunks_invariant m chunks st :
  hitsInvariant (prospectHits st) ->
  hitsInvariant (prospectHits (fold_left (onData m) chunks st)).
Proof.
  revert st. induction chunks as [|c cs IH]; intros st I;
    [exact I | apply IH, onData_invariant, I].
Qed.

Lemma chunks_grow m chunks st pid h :
  hitsInvariant (prospectHits st) ->
  JsMap.get pid (prospectHits st) = Some h ->
  exists h', JsMap.get pid (prospectHits (fold_left (onData m) chunks st))
             = Some h' /\ hitLe h h'.
Proof.
  revert st h. induction chunks as [|c cs IH]; intros st h I G.
  - exists h. split; [exact G | apply hitLe_refl].
  - simpl. destruct (onData_grows m st c pid h I G) as [h1 [G1 L1]].
    destruct (IH _ h1 (onData_invariant m st c I) G1) as [h2 [G2 L2]].
    exists h2. split; [exact G2 | exact (hitLe_trans _ _ _ L1 L2)].
Qed.

(** ** The results of one document *)

Lemma classifyHit_facts env filename all pid h r :
  hitInvariant h ->
  In r (classifyHit env filename all pid h) ->
  prospect_id r = pid /\ sec_filing r = filename
  /\ (exists p, In p all /\ id p = pid
                /\ prospect_name r = name p /\ company_name r = company p)
  /\ nameHit h = true
  /\ ((companyHit h = true /\ isNameAndCompany95 r)
      \/ (companyHit h = false /\ isNameOnly75 r))
  /\ oneContext r.
Proof.
  intros [L [F C]]. unfold classifyHit.
  destruct (find (fun p => str_eqb (id p) pid) all) as [p|] eqn:Fd;
    [|intros []].
  apply find_some in Fd. destruct Fd as [Hp Hid]. apply str_eqb_eq in Hid.
  assert (One : nameHit h = true -> exists c, contexts h = [c]).
  { intros N. rewrite N in F. specialize (F eq_refl).
    destruct (contexts h) as [|c [|d l]]; try discriminate. eauto. }
  destruct (nameHit h) eqn:N; [|destruct (companyHit h); intros []].
  destruct (One eq_refl) as [c Ec].
  assert (Cc : flagOf (c_type c) h = true /\ len (c_context c) <= 63)
    by (apply C; rewrite Ec; left; reflexivity).
  destruct (companyHit h) eqn:Co; simpl; intros [<-|[]]; cbn;
    (split; [reflexivity|]); (split; [reflexivity|]);
    (split; [exists p; auto|]); (split; [reflexivity|]).
  - split; [left; repeat split; reflexivity|].
    exists c. rewrite Ec. split; [reflexivity | apply Cc].
  - split; [right; repeat split; reflexivity|].
    exists c. rewrite Ec. destruct Cc as [Fl Le].
    assert (T : isNameContext c = true).
    { unfold isNameContext. destruct (c_type c); simpl in Fl;
        [reflexivity | congruence]. }
    assert (K : firstn 2 (filter isNameContext [c]) = [c])
      by (simpl; rewrite T; reflexivity).
    split; [exact K | exact Le].
Qed.


Lemma results_from_hits env m filename hits r :
  hitsInvariant hits ->
  In r (generateMatchResults env m filename hits) ->
  exists h, In (prospect_id r, h) hits
            /\ In r (classifyHit env filename (prospects m)
                                 (prospect_id r) h).
Proof.
  intros [_ I] H. unfold generateMatchResults in H.
  apply in_flat_map in H. destruct H as [[pid h] [Hin Hr]].
  destruct (classifyHit_facts _ _ _ _ _ _ (I _ _ Hin) Hr) as [E _].
  subst pid. eauto.
Qed.


Lemma runStream_results env m filename s st rs :
  hitsInvariant (prospectHits st) ->
  runStream env m filename st s = Resolved rs ->
  rs = []
  \/ exists hits, hitsInvariant hits
                  /\ rs = generateMatchResults env m filename hits.
Proof.
  revert st. induction s as [chunk rest IH| |]; intros st I; simpl.
  - apply IH, onData_invariant, I.
  - intros E. inversion E. right. eauto.
  - intros E. inversion E. left. reflexivity.
Qed.

Lemma processFileLinear_results env m filename src rs :
  processFileLinear env m filename src = Resolved rs ->
  rs = []
  \/ exists hits, hitsInvariant hits
                  /\ rs = generateMatchResults env m filename hits.
Proof.
  destruct src as [|s]; simpl.
  - intros E. inversion E. left. reflexivity.
  - apply runStream_results, initial_invariant.
Qed.


(** X7. Every result of a document carries exactly one context snippet,
    and the snippet text has at most 63 characters (60 and an ellipsis):
    the scanner keeps one context per prospect, recorded with the first
    hit, so the limits of 3 and 2 contexts in [generateMatchResults] are
    never reached. *)
Theorem X7_one_context env m filename src rs :
  processFileLinear env m filename src = Resolved rs ->
  forall r, In r rs ->
    exists c, m_contexts r = [c] /\ len (c_context c) <= 63.
Proof.
  intros E. destruct (processFileLinear_results _ _ _ _ _ E)
    as [->|[hits [I ->]]]; [intros r []|].
  intros r Hr. destruct (results_from_hits _ _ _ _ _ I Hr) as [h [Hin Hc]].
  apply (classifyHit_facts _ _ _ _ _ _ (proj2 I _ _ Hin) Hc).
Qed.

(** ** More chunks never take a match away *)

Lemma scanChunks_app m cs more :
  scanChunks m (cs ++ more)
  = fold_left (onData m) more (scanChunks m cs).
Proof. unfold scanChunks. apply fold_left_app. Qed.

Lemma scan_invariant m cs : hitsInvariant (prospectHits (scanChunks m cs)).
Proof. apply chunks_invariant, initial_invariant. Qed.

Lemma results_grow env m filename hits hits' r :
  hitsInvariant hits -> hitsInvariant hits' ->
  (forall pid h, JsMap.get pid hits = Some h ->
                 exists h', JsMap.get pid hits' = Some h' /\ hitLe h h') ->
  In r (generateMatchResults env m filename hits) ->
  exists r', In r' (generateMatchResults env m filename hits')
             /\ prospect_id r' = prospect_id r
             /\ confidence r <= confidence r'.
Proof.
  intros I I' G Hr.
  destruct (results_from_hits _ _ _ _ _ I Hr) as [h [Hin Hc]].
  destruct (classifyHit_facts _ _ _ _ _ _ (proj2 I _ _ Hin) Hc)
    as [_ [_ [_ [N [T _]]]]].
  destruct (G _ _ (get_in_nodup _ _ _ (proj1 I) Hin)) as [h' [G' [Ln Lc]]].
  apply get_some_in in G'.
  assert (Ex : exists r', In r' (classifyHit env filename (prospects m)
                                             (prospect_id r) h')).
  { revert Hc. unfold classifyHit.
    destruct (find _ (prospects m)); [|intros []]. intros _.
    rewrite (Ln N). destruct (companyHit h'); simpl; eauto. }
  destruct Ex as [r' Hr'].
  destruct (classifyHit_facts _ _ _ _ _ _ (proj2 I' _ _ G') Hr')
    as [P' [_ [_ [_ [T' _]]]]].
  exists r'. split; [|split; [exact P'|]].
  - unfold generateMatchResults. apply in_flat_map.
    exists (prospect_id r, h'). split; [exact G' | exact Hr'].
  - destruct T as [[C [_ Q]]|[_ [_ Q]]], T' as [[C' [_ Q']]|[C' [_ Q']]];
      rewrite Q, Q'; try lia.
    rewrite (Lc C) in C'. discriminate.
Qed.

(** X8. Reading on never takes a match away: a prospect reported for a
    document read up to some chunk is still reported when further chunks
    follow, with a confidence that is at least as high. *)
Theorem X8_more_chunks env m filename cs more rs rs' :
  processFileLinear env m filename (Opened (streamOf cs SEnd))
  = Resolved rs ->
  processFileLinear env m filename (Opened (streamOf (cs ++ more) SEnd))
  = Resolved rs' ->
  forall r, In r rs ->
    exists r', In r' rs' /\ prospect_id r' = prospect_id r
               /\ confidence r <= confidence r'.
Proof.
  unfold processFileLinear. rewrite !runStream_end.
  fold (scanChunks m cs). fold (scanChunks m (cs ++ more)).
  intros E E'. inversion E. inversion E'. subst. clear E E'.
  intros r. apply results_grow; try apply scan_invariant.
  intros pid h G. rewrite scanChunks_app.
  apply chunks_grow; [apply scan_invariant | exact G].
Qed.

(** ** A keyword occurrence in a window sets the flags of its prospects *)

Lemma exact_variation fullName v :
  In v (generateNamePatterns fullName) ->
  exists v0, In v0 (generateNamePatterns fullName)
             /\ text v0 = text v /\ plainVariation v0.
Proof.
  unfold generateNamePatterns. cbv zeta.
  destruct (Z.of_nat (length (tokensOf (normalizeText fullName))) <? 2);
    [intros []|].
  destruct (_ || _); [intros []|].
  intros H. eexists. split; [left; reflexivity|].
  split; [|reflexivity].
  destruct H as [<-|[<-|[]]]; reflexivity.
Qed.

Lemma plain_in_entry all pattern info pid :
  JsMap.get pattern (patternMap (buildAutomaton all)) = Some info ->
  In pid (prospectIds info) ->
  exists pv, In pv (variations info) /\ pv_prospectId pv = pid
             /\ plainVariation (pv_variation pv).
Proof.
  unfold buildAutomaton.
  pose proof (buildPatterns_invariant all) as I.
  destruct (buildPatterns all) as [pm ks]. destruct I as [_ [_ G]].
  cbn [fst] in G. cbn [patternMap]. intros E Hpid.
  specialize (G pattern). rewrite E in G. destruct G as [G1 [_ G3]].
  rewrite G3 in Hpid. apply in_map_iff in Hpid.
  destruct Hpid as [pv [Epid Hpv]]. rewrite G1 in Hpv |- *.
  apply filter_In in Hpv. destruct Hpv as [Hd Ht].
  unfold allDerivations in Hd. apply in_flat_map in Hd.
  destruct Hd as [p [Hp Hd]]. unfold derivationsOf in Hd.
  apply in_app_or in Hd. destruct Hd as [Hd|Hd];
    apply in_map_iff in Hd; destruct Hd as [v [Ev Hv]].
  - destruct (exact_variation _ v Hv) as [v0 [H0 [T0 P0]]].
    exists (tagWith (id p) v0). split; [|split].
    + apply filter_In. split.
      * unfold allDerivations. apply in_flat_map. exists p.
        split; [exact Hp|]. unfold derivationsOf. apply in_or_app. left.
        apply in_map. exact H0.
      * unfold hasText in *. simpl. rewrite T0. subst pv. exact Ht.
    + subst pv. simpl in Epid. exact Epid.
    + exact P0.
  - exists pv. split; [|split; [exact Epid|]].
    + apply filter_In. split; [|exact Ht].
      unfold allDerivations. apply in_flat_map. exists p.
      split; [exact Hp|]. unfold derivationsOf. apply in_or_app. right.
      rewrite <- Ev. apply in_map. exact Hv.
    + subst pv. simpl.
      destruct (company_pattern_facts _ v Hv) as [-> _]. exact I.
Qed.

Lemma hitLe_flag ty h h' :
  hitLe h h' -> flagOf ty h = true -> flagOf ty h' = true.
Proof. intros [A B]. destruct ty; simpl; auto. Qed.

Lemma fold_reaches {X : Type} (Q : JsMap.t Hit -> Prop)
      (f : JsMap.t Hit -> X -> JsMap.t Hit) (xs : list X) (x : X)
      (hits : JsMap.t Hit) :
  In x xs ->
  (forall hs y, hitsInvariant hs -> hitsInvariant (f hs y)) ->
  (forall hs, hitsInvariant hs -> Q (f hs x)) ->
  (forall hs y, hitsInvariant hs -> Q hs -> Q (f hs y)) ->
  hitsInvariant hits -> Q (fold_left f xs hits).
Proof.
  intros Hin Inv Hit Keep. revert hits.
  induction xs as [|y xs IH]; intros hits I; [destruct Hin|].
  simpl. destruct Hin as [->|Hin]; [|apply IH; [exact Hin | apply Inv, I]].
  assert (K : forall l hs, hitsInvariant hs -> Q hs -> Q (fold_left f l hs)).
  { induction l as [|z l IHl]; intros hs Ih Qh; [exact Qh|].
    simpl. apply IHl; [apply Inv, Ih | apply Keep; assumption]. }
  apply K; [apply Inv, I | apply Hit, I].
Qed.

Lemma flagged_grows ty pid hits hits' :
  (forall h, JsMap.get pid hits = Some h ->
             exists h', JsMap.get pid hits' = Some h' /\ hitLe h h') ->
  flagged ty pid hits -> flagged ty pid hits'.
Proof.
  intros G [h [E F]]. destruct (G h E) as [h' [E' L]].
  exists h'. split; [exact E' | exact (hitLe_flag ty h h' L F)].
Qed.

Lemma recordPattern_marks all text pb endIndex hits pattern info pid :
  JsMap.get pattern (patternMap (buildAutomaton all)) = Some info ->
  hasValidWordBoundaries text (endIndex - len pattern + 1) (endIndex + 1)
  = true ->
  hitsInvariant hits ->
  In pid (prospectIds info) ->
  flagged (ptype info) pid
          (recordPattern (patternMap (buildAutomaton all)) text pb endIndex
                         hits pattern).
Proof.
  intros E V I Hpid. unfold recordPattern. rewrite E, V. cbn [negb].
  destruct (plain_in_entry all pattern info pid E Hpid) as [pv [Hpv [<- P]]].
  apply (fold_reaches _ _ _ pv); auto.
  - intros hs y. apply recordVariation_invariant.
  - intros hs Ih. apply recordVariation_marks; assumption.
  - intros hs y Ih. apply flagged_grows. intros h.
    apply recordVariation_grows. exact Ih.
Qed.

Lemma slice_middle (a p b : jsstring) :
  slice (a ++ p ++ b) (len a) (len a + len p) = p.
Proof.
  unfold slice, clamp_index, len. rewrite !length_app.
  destruct (Z.ltb_spec (Z.of_nat (length a)) 0); [lia|].
  destruct (Z.ltb_spec (Z.of_nat (length a) + Z.of_nat (length p)) 0);
    [lia|].
  rewrite !Z.min_l by lia.
  replace (Z.to_nat (Z.of_nat (length a) + Z.of_nat (length p)
                     - Z.of_nat (length a))) with (length p) by lia.
  rewrite Nat2Z.id, skipn_app, skipn_all, Nat.sub_diag. simpl.
  rewrite firstn_app, firstn_all, Nat.sub_diag. simpl. apply app_nil_r.
Qed.

Lemma search_complete a (pre p post : jsstring) :
  In p (keywords a) -> p <> [] ->
  exists ps, In (len pre + len p - 1, ps) (search a (pre ++ p ++ post))
             /\ In p ps.
Proof.
  intros K N. unfold search.
  set (text := pre ++ p ++ post). set (e := len pre + len p - 1).
  assert (Lp : 0 < len p) by (destruct p; [congruence | unfold len; simpl; lia]).
  pose proof (len_nonneg pre) as Lpre.
  assert (En : endsAt text e p = true).
  { unfold endsAt, e. apply andb_true_iff. split; [apply Z.leb_le; lia|].
    apply str_eqb_eq.
    replace (len pre + len p - 1 - len p + 1) with (len pre) by lia.
    replace (len pre + len p - 1 + 1) with (len pre + len p) by lia.
    apply slice_middle. }
  assert (Hp : In p (sortBy (fun x y => len y - len x)
                            (filter (endsAt text e) (keywords a)))).
  { apply (Permutation_in _ (sortBy_perm _ _)).
    apply filter_In. split; assumption. }
  exists (sortBy (fun x y => len y - len x)
                 (filter (endsAt text e) (keywords a))).
  split; [|exact Hp]. apply in_flat_map. exists e. split.
  - unfold indices. apply in_map_iff. exists (Z.to_nat e).
    split; [unfold e; lia|]. apply in_seq. unfold text, e, len in *.
    rewrite !length_app. lia.
  - destruct (sortBy _ _); [destruct Hp | left; reflexivity].
Qed.

(** X9. In a matcher built by [buildAutomaton], when a keyword occurs in
    the normalised text of a window with a valid boundary on both sides,
    the data handler sets the flag of the entry's type for every prospect
    registered under that keyword.  The text around the match plays no
    part: the check for an optional initial never decides a hit, since
    each initial-allowing variation stands beside an exact one of the
    same prospect. *)
Theorem X9_window_complete all st chunk pre p post info pid :
  normalizeText (previousOverlap st ++ chunk) = pre ++ p ++ post ->
  JsMap.get p (patternMap (buildAutomaton all)) = Some info ->
  hasValidWordBoundaries (pre ++ p ++ post) (len pre) (len pre + len p)
  = true ->
  hitsInvariant (prospectHits st) ->
  In pid (prospectIds info) ->
  flagged (ptype info) pid (prospectHits (onData (buildAutomaton all) st chunk)).
Proof.
  intros T E V I Hpid.
  assert (K : In p (keywords (automaton (buildAutomaton all)))).
  { pose proof (buildPatterns_invariant all) as B. revert E.
    unfold buildAutomaton. destruct (buildPatterns all) as [pm ks].
    destruct B as [Ky _]. cbn [fst snd] in Ky.
    cbn [patternMap automaton keywords]. intros E. rewrite <- Ky.
    apply get_some_in in E. apply (in_map fst) in E. exact E. }
  assert (N : p <> []).
  { destruct (keyword_facts all p K) as [_ L]. intros ->.
    unfold len in L. simpl in L. lia. }
  destruct (search_complete _ pre p post K N) as [ps [Hs Hp]].
  unfold onData. cbn [prospectHits]. rewrite T.
  apply (fold_reaches _ _ _ (len pre + len p - 1, ps)); auto.
  - intros hs [e qs] Ih. apply fold_invariant; [|exact Ih].
    intros h q. apply recordPattern_invariant.
  - intros hs Ih. apply (fold_reaches _ _ _ p); auto.
    + intros h q. apply recordPattern_invariant.
    + intros h Ih'. apply recordPattern_marks; auto.
      replace (len pre + len p - 1 - len p + 1) with (len pre) by lia.
      replace (len pre + len p - 1 + 1) with (len pre + len p) by lia.
      exact V.
    + intros h q Ih'. apply flagged_grows. intros h0.
      apply recordPattern_grows. exact Ih'.
  - intros hs [e qs] Ih. apply flagged_grows. intros h0 G0.
    apply fold_grows; auto.
    + intros h q. apply recordPattern_invariant.
    + intros hs' q h1. apply recordPattern_grows.
Qed.

(** ** The batch loop *)

Lemma file_result_facts env m f r :
  In r (fileResults env m f) ->
  oneContext r /\ (isNameAndCompany95 r \/ isNameOnly75 r)
  /\ sec_filing r = originalname f.
Proof.
  unfold fileResults.
  destruct (processFileLinear env m (originalname f) (source f))
    as [rs|] eqn:E; [|intros []].
  destruct (processFileLinear_results _ _ _ _ _ E)
    as [->|[hits [I ->]]]; [intros []|].
  intros Hr. destruct (results_from_hits _ _ _ _ _ I Hr) as [h [Hin Hc]].
  destruct (classifyHit_facts _ _ _ _ _ _ (proj2 I _ _ Hin) Hc)
    as [_ [F [_ [_ [T O]]]]].
  split; [exact O|]. split; [tauto | exact F].
Qed.

Lemma keepFirstContext_id r : oneContext r -> keepFirstContext r = r.
Proof.
  intros [c [E _]]. unfold keepFirstContext. rewrite E.
  destruct r. simpl in E. subst. reflexivity.
Qed.

Lemma memoryCleanup_id i l :
  Forall oneContext l -> memoryCleanup i l = l.
Proof.
  intros F. unfold memoryCleanup. destruct (_ =? 0); [|reflexivity].
  induction F as [|r l O F IH]; [reflexivity|].
  simpl. rewrite IH, (keepFirstContext_id r O). reflexivity.
Qed.

Lemma processFiles_flat env m files i acc :
  Forall oneContext acc ->
  processFiles env m i acc files
  = acc ++ flat_map (fileResults env m) files.
Proof.
  revert i acc. induction files as [|f files IH]; intros i acc F.
  - simpl. rewrite app_nil_r. reflexivity.
  - cbn [processFiles flat_map].
    assert (Ff : Forall oneContext (fileResults env m f)).
    { apply Forall_forall. intros r Hr.
      apply (file_result_facts env m f r Hr). }
    unfold fileResults in *.
    destruct (processFileLinear env m (originalname f) (source f)) as [fm|].
    + rewrite memoryCleanup_id by (apply Forall_app; split; assumption).
      rewrite IH by (apply Forall_app; split; assumption).
      rewrite app_assoc. reflexivity.
    + rewrite IH by exact F. reflexivity.
Qed.

Lemma batch_flat env all secFiles :
  processMatchingLinear env all secFiles
  = deduplicateMatches
      (flat_map (fileResults env (buildAutomaton all)) secFiles).
Proof.
  unfold processMatchingLinear. cbv zeta.
  rewrite processFiles_flat by constructor. reflexivity.
Qed.


Lemma sorted_split (l : list MatchResult) :
  StronglySorted
    (fun a b => confidence b < confidence a
                \/ (confidence b = confidence a
                    /\ typeOrder (match_type b)
                       <= typeOrder (match_type a))) l ->
  Forall (fun r => isNameAndCompany95 r \/ isNameOnly75 r) l ->
  exists l1 l2, l = l1 ++ l2 /\ Forall isNameAndCompany95 l1
                /\ Forall isNameOnly75 l2.
Proof.
  intros S. induction S as [|x l S IH R]; intros F.
  - exists [], []. repeat split; constructor.
  - inversion F as [|? ? Tx Fl]; subst.
    destruct (IH Fl) as [l1 [l2 [-> [F1 F2]]]].
    destruct Tx as [Tx|Tx].
    + exists (x :: l1), l2. repeat split; [constructor; assumption | exact F2].
    + exists [], (x :: l1 ++ l2). split; [reflexivity|].
      split; [constructor|]. constructor; [exact Tx|].
      apply Forall_app. split; [|exact F2].
      rewrite Forall_forall in *. intros b Hb.
      assert (Rb := R b (in_or_app _ _ _ (or_introl Hb))).
      destruct (F1 b Hb) as [Tb Cb]. destruct Tx as [Ty Cy].
      rewrite Cb, Cy in Rb. lia.
Qed.

(** X11. Every match the batch returns is a result of one of the
    documents, and is either Name + Company with confidence 95 or Name
    Only with confidence 75; the returned list holds all the Name +
    Company matches first and all the Name Only matches after them. *)
Theorem X11_batch_output env all secFiles :
  let out := processMatchingLinear env all secFiles in
  (forall r, In r out ->
     exists f, In f secFiles
               /\ In r (fileResults env (buildAutomaton all) f)
               /\ sec_filing r = originalname f)
  /\ exists l1 l2, out = l1 ++ l2
                   /\ Forall isNameAndCompany95 l1
                   /\ Forall isNameOnly75 l2.
Proof.
  intros out. subst out. rewrite batch_flat.
  assert (Src : forall r,
    In r (deduplicateMatches
            (flat_map (fileResults env (buildAutomaton all)) secFiles)) ->
    exists f, In f secFiles
              /\ In r (fileResults env (buildAutomaton all) f)).
  { intros r Hr. apply dedup_in in Hr. apply in_flat_map in Hr. exact Hr. }
  split.
  - intros r Hr. destruct (Src r Hr) as [f [Hf Hrf]].
    exists f. split; [exact Hf|]. split; [exact Hrf|].
    apply (file_result_facts _ _ _ _ Hrf).
  - apply sorted_split; [apply dedup_ordered|].
    apply Forall_forall. intros r Hr. destruct (Src r Hr) as [f [_ Hrf]].
    apply (file_result_facts _ _ _ _ Hrf).
Qed.

(** ** Bytes read and the overlap window *)

Lemma lastChars_app n t c :
  lastChars n (lastChars n t ++ c) = lastChars n (t ++ c).
Proof.
  unfold lastChars.
  assert (E : skipn (length t - n) t ++ c = skipn (length t - n) (t ++ c)).
  { rewrite skipn_app.
    replace (length t - n - length t)%nat with 0%nat by lia. reflexivity. }
  rewrite E, skipn_skipn, length_skipn, length_app. f_equal. lia.
Qed.

Lemma lastChars_long n t c :
  (n <= length c)%nat -> lastChars n (t ++ c) = lastChars n c.
Proof.
  intros L. unfold lastChars. rewrite skipn_app, length_app.
  rewrite skipn_all2 by lia. simpl. f_equal. lia.
Qed.

Lemma scan_bookkeeping m cs :
  processedBytes (scanChunks m cs) = len (concat cs)
  /\ ((Forall (fun c => len c <= OVERLAP_SIZE) cs
       /\ previousOverlap (scanChunks m cs) = [])
      \/ (Exists (fun c => OVERLAP_SIZE < len c) cs
          /\ previousOverlap (scanChunks m cs)
             = lastChars (Z.to_nat OVERLAP_SIZE) (concat cs)
          /\ len (previousOverlap (scanChunks m cs)) = OVERLAP_SIZE)).
Proof.
  induction cs as [|c cs [P O]] using rev_ind.
  - split; [reflexivity|]. left. split; [constructor | reflexivity].
  - rewrite scanChunks_app. cbn [fold_left]. rewrite concat_app.
    cbn [concat]. rewrite app_nil_r. split.
    + unfold onData. cbn [processedBytes]. rewrite P, len_app_z.
      reflexivity.
    + set (st := scanChunks m cs) in *.
      set (n := Z.to_nat OVERLAP_SIZE) in *.
      destruct (Z.ltb_spec OVERLAP_SIZE (len (previousOverlap st ++ c)))
        as [Long|Short].
      * destruct (onData_long_window m st c Long) as [E L].
        fold n in E. rewrite E in L |- *.
        change (skipn (length (previousOverlap st ++ c) - n)
                      (previousOverlap st ++ c))
          with (lastChars n (previousOverlap st ++ c)) in *.
        right. destruct O as [[F Z0]|[X [Ov Lo]]].
        -- rewrite Z0 in *. cbn [app] in *. split; [|split; [|exact L]].
           ++ apply Exists_app. right. constructor. exact Long.
           ++ symmetry. apply lastChars_long.
              unfold len in Long. subst n. lia.
        -- split; [|split; [|exact L]].
           ++ apply Exists_app. left. exact X.
           ++ rewrite Ov. apply lastChars_app.
      * rewrite (onData_short_chunk m st c Short).
        destruct O as [[F Z0]|[X [Ov Lo]]].
        -- left. split; [|exact Z0]. apply Forall_app. split; [exact F|].
           constructor; [|constructor]. rewrite Z0 in Short. exact Short.
        -- right. rewrite len_app_z in Short.
           pose proof (len_nonneg c).
           assert (c = []) by (destruct c; [reflexivity | unfold len in *; simpl in *; lia]).
           subst c. rewrite app_nil_r.
           split; [apply Exists_app; left; exact X|]. split; assumption.
Qed.

(** X12. After any sequence of chunks the handler's byte counter is the
    total length of the chunks read, and the overlap it holds is empty as
    long as no chunk longer than 2000 characters has arrived, and from
    then on exactly the last 2000 characters of everything read so
    far. *)
Theorem X12_scan_bookkeeping m cs :
  processedBytes (scanChunks m cs) = len (concat cs)
  /\ (Forall (fun c => len c <= OVERLAP_SIZE) cs ->
      previousOverlap (scanChunks m cs) = [])
  /\ (Exists (fun c => OVERLAP_SIZE < len c) cs ->
      previousOverlap (scanChunks m cs)
      = lastChars (Z.to_nat OVERLAP_SIZE) (concat cs)
      /\ len (previousOverlap (scanChunks m cs)) = OVERLAP_SIZE).
Proof.
  destruct (scan_bookkeeping m cs) as [P O]. split; [exact P|]. split.
  - intros F. destruct O as [[_ Z0]|[X _]]; [exact Z0|].
    exfalso. apply Exists_exists in X. destruct X as [c [Hc L]].
    rewrite Forall_forall in F. specialize (F c Hc). lia.
  - intros X. destruct O as [[F _]|[_ R]]; [|exact R].
    exfalso. apply Exists_exists in X. destruct X as [c [Hc L]].
    rewrite Forall_forall in F. specialize (F c Hc). lia.
Qed.

(** ** deduplicateMatches, key by key *)

Lemma dedup_length ms :
  (length (deduplicateMatches ms) <= length ms)%nat.
Proof.
  pose proof (dedup_keys_nodup ms) as N.
  rewrite <- (length_map dedupKey), <- (length_map dedupKey ms).
  apply NoDup_incl_length; [exact N|].
  intros k Hk. apply in_map_iff in Hk. destruct Hk as [r [<- Hr]].
  apply in_map, dedup_in, Hr.
Qed.

(** X13. [deduplicateMatches] invents nothing and loses no key: every
    output record is an input record, no two output records share a key,
    and every input record is answered by the output record of its key,
    which has at least its confidence and, at equal confidence, is Name +
    Company if the input record is.  The output is in descending
    confidence, with the higher type first at equal confidence. *)
Theorem X13_dedup_per_key ms :
  (forall r, In r (deduplicateMatches ms) -> In r ms)
  /\ NoDup (map dedupKey (deduplicateMatches ms))
  /\ (forall m, In m ms ->
        exists r, In r (deduplicateMatches ms)
                  /\ dedupKey r = dedupKey m /\ beats r m)
  /\ (length (deduplicateMatches ms) <= length ms)%nat
  /\ StronglySorted
       (fun a b => confidence b < confidence a
                   \/ (confidence b = confidence a
                       /\ typeOrder (match_type b)
                          <= typeOrder (match_type a)))
       (deduplicateMatches ms).
Proof.
  split; [apply dedup_in|]. split; [apply dedup_keys_nodup|].
  split; [apply dedup_best|]. split; [apply dedup_length|].
  apply dedup_ordered.
Qed.

(** X14. When no two input matches share a key, nothing is dropped: the
    result is the input in a stable sort by the comparator, a
    permutation of the input. *)
Theorem X14_dedup_distinct_keys ms :
  NoDup (map dedupKey ms) ->
  deduplicateMatches ms = sortBy compareMatches ms
  /\ Permutation ms (deduplicateMatches ms).
Proof.
  intros N.
  assert (E : deduplicateMatches ms = sortBy compareMatches ms).
  { unfold deduplicateMatches, dedupSeen.
    rewrite dedup_fold_fresh by exact N. simpl.
    rewrite values_entries. reflexivity. }
  split; [exact E|]. rewrite E. apply sortBy_perm.
Qed.

(** X15. When no prospect id contains a colon, the key tells the
    (prospect, document) groups apart: every group of the input has
    exactly one record in the output, and that record is at least as good
    as every input record of the group. *)
Theorem X15_dedup_groups ms :
  (forall m, In m ms -> ~ In colon (prospect_id m)) ->
  forall m, In m ms ->
    exists r, In r (deduplicateMatches ms) /\ sameGroup r m /\ beats r m
              /\ forall r', In r' (deduplicateMatches ms) ->
                            sameGroup r' m -> r' = r.
Proof. apply dedup_one_per_group. Qed.

(** ** createSECUrl *)

Lemma createSECUrl_wellformed cik year sequence :
  length cik = 10%nat -> length year = 2%nat -> length sequence = 6%nat ->
  forallb isNumber (cik ++ year ++ sequence) = true ->
  createSECUrl (secFilename cik year sequence)
  = Some (secUrlPrefix ++ numericCik cik ++ str "/"
          ++ cik ++ year ++ sequence ++ str ".txt").
Proof.
  intros Lc Ly Ls D.
  do 10 (destruct cik as [|? cik]; try discriminate Lc).
  destruct cik; [|discriminate Lc].
  do 2 (destruct year as [|? year]; try discriminate Ly).
  destruct year; [|discriminate Ly].
  do 6 (destruct sequence as [|? sequence]; try discriminate Ls).
  destruct sequence; [|discriminate Ls].
  match goal with
  | |- createSECUrl ?f = _ => set (F := f)
  end.
  assert (S1 : slice F 0 10 = [a; a0; a1; a2; a3; a4; a5; a6; a7; a8])
    by (vm_compute; reflexivity).
  assert (S2 : slice F 10 11 = str "-") by (vm_compute; reflexivity).
  assert (S3 : slice F 11 13 = [a9; a10]) by (vm_compute; reflexivity).
  assert (S4 : slice F 13 14 = str "-") by (vm_compute; reflexivity).
  assert (S5 : slice F 14 20 = [a11; a12; a13; a14; a15; a16])
    by (vm_compute; reflexivity).
  assert (S6 : slice F 20 24 = str ".txt") by (vm_compute; reflexivity).
  assert (L : len F = 24) by (vm_compute; reflexivity).
  unfold createSECUrl. rewrite S1, S2, S3, S4, S5, S6, L.
  rewrite !forallb_app in D.
  apply andb_true_iff in D. destruct D as [D1 D]. rewrite D1.
  apply andb_true_iff in D. destruct D as [D2 D3]. rewrite D2, D3.
  reflexivity.
Qed.

Lemma createSECUrl_some filename url :
  createSECUrl filename = Some url ->
  exists cik year sequence,
    filename = secFilename cik year sequence
    /\ length cik = 10%nat /\ length year = 2%nat
    /\ length sequence = 6%nat
    /\ forallb isNumber (cik ++ year ++ sequence) = true.
Proof.
  unfold createSECUrl.
  destruct (len filename =? 24) eqn:L; [|discriminate].
  apply Z.eqb_eq in L.
  assert (Ln : length filename = 24%nat) by (unfold len in L; lia).
  clear L.
  do 24 (destruct filename as [|? filename]; [discriminate Ln|]).
  destruct filename; [|discriminate Ln]. clear Ln.
  match goal with
  | |- context [slice ?f 0 10] => set (F := f)
  end.
  assert (S1 : slice F 0 10 = [a; a0; a1; a2; a3; a4; a5; a6; a7; a8])
    by (vm_compute; reflexivity).
  assert (S2 : slice F 10 11 = [a9]) by (vm_compute; reflexivity).
  assert (S3 : slice F 11 13 = [a10; a11]) by (vm_compute; reflexivity).
  assert (S4 : slice F 13 14 = [a12]) by (vm_compute; reflexivity).
  assert (S5 : slice F 14 20 = [a13; a14; a15; a16; a17; a18])
    by (vm_compute; reflexivity).
  assert (S6 : slice F 20 24 = [a19; a20; a21; a22])
    by (vm_compute; reflexivity).
  rewrite S1, S2, S3, S4, S5, S6. cbn [andb].
  destruct (forallb isNumber [a; a0; a1; a2; a3; a4; a5; a6; a7; a8])
    eqn:D1; [|discriminate].
  destruct (str_eqb [a9] (str "-")) eqn:E1; [|discriminate].
  destruct (forallb isNumber [a10; a11]) eqn:D2; [|discriminate].
  destruct (str_eqb [a12] (str "-")) eqn:E2; [|discriminate].
  destruct (forallb isNumber [a13; a14; a15; a16; a17; a18]) eqn:D3;
    [|discriminate].
  destruct (str_eqb [a19; a20; a21; a22] (str ".txt")) eqn:E3;
    [|discriminate].
  intros _. apply str_eqb_eq in E1, E2, E3.
  inversion E1. inversion E2. inversion E3. subst.
  exists [a; a0; a1; a2; a3; a4; a5; a6; a7; a8], [a10; a11],
         [a13; a14; a15; a16; a17; a18].
  split; [reflexivity|]. repeat (split; [reflexivity|]).
  rewrite !forallb_app, D1, D2, D3. reflexivity.
Qed.

Lemma dropZeros_head s c r :
  dropZeros s = c :: r -> Ascii.eqb c "0"%char = false.
Proof.
  induction s as [|d s IH]; simpl; [discriminate|].
  destruct (Ascii.eqb d "0"%char) eqn:E; [exact IH|].
  intros X. inversion X; subst. exact E.
Qed.

(** X16. [createSECUrl] answers exactly the file names of the shape
    ten digits, dash, two digits, dash, six digits, [.txt]: for such a
    name the URL is the EDGAR prefix, the CIK without its leading zeros,
    a slash, and the eighteen digits followed by [.txt]; for any other
    name it returns nothing.  The CIK in the path is never empty and
    starts with a zero only when it is the single digit 0. *)
Theorem X16_createSECUrl :
  (forall cik year sequence,
     length cik = 10%nat -> length year = 2%nat ->
     length sequence = 6%nat ->
     forallb isNumber (cik ++ year ++ sequence) = true ->
     createSECUrl (secFilename cik year sequence)
     = Some (secUrlPrefix ++ numericCik cik ++ str "/"
             ++ cik ++ year ++ sequence ++ str ".txt"))
  /\ (forall filename url,
        createSECUrl filename = Some url ->
        exists cik year sequence,
          filename = secFilename cik year sequence
          /\ length cik = 10%nat /\ length year = 2%nat
          /\ length sequence = 6%nat
          /\ forallb isNumber (cik ++ year ++ sequence) = true)
  /\ (forall cik,
        numericCik cik <> []
        /\ forall rest, numericCik cik = "0"%char :: rest -> rest = []).
Proof.
  split; [exact createSECUrl_wellformed|].
  split; [exact createSECUrl_some|].
  intros cik. unfold numericCik.
  destruct (dropZeros cik) as [|c r] eqn:E.
  - split; [discriminate|]. intros rest X. inversion X. reflexivity.
  - split; [discriminate|]. intros rest X. inversion X; subst.
    apply dropZeros_head in E. discriminate.
Qed.

(** ** loadProspects *)












(** ** The chunks of processMatchingLinearChunked *)

Lemma pieces_concat {A : Type} (n : nat) (l : list A) (c : nat) :
  (0 < n)%nat -> (length l <= c * n)%nat ->
  concat (map (fun k => firstn n (skipn (k * n) l)) (seq 0 c)) = l.
Proof.
  intros N. revert l. induction c as [|c IH]; intros l L.
  - destruct l; [reflexivity | simpl in L; lia].
  - cbn [seq map concat]. rewrite <- seq_shift, map_map.
    rewrite (map_ext _ (fun k => firstn n (skipn (k * n) (skipn n l)))).
    + rewrite IH by (rewrite length_skipn; lia).
      simpl. apply firstn_skipn.
    + intros k. rewrite skipn_skipn. do 2 f_equal. lia.
Qed.

Lemma chunkProspects_piece all k :
  Z.of_nat k * PROSPECT_CHUNK_SIZE <= Z.of_nat (length all) ->
  chunkProspects all (Z.of_nat k)
  = firstn (Z.to_nat PROSPECT_CHUNK_SIZE)
           (skipn (k * Z.to_nat PROSPECT_CHUNK_SIZE) all).
Proof.
  intros K. unfold chunkProspects, arraySlice. cbv zeta.
  assert (C : 0 < PROSPECT_CHUNK_SIZE) by reflexivity.
  set (n := PROSPECT_CHUNK_SIZE) in *. clearbody n.
  set (t := Z.of_nat (length all)) in *.
  destruct (Z.ltb_spec (Z.of_nat k * n) 0); [lia|].
  destruct (Z.ltb_spec (Z.min (Z.of_nat k * n + n) t) 0); [lia|].
  rewrite (Z.min_l (Z.of_nat k * n) t) by lia.
  rewrite (Z.min_l (Z.min (Z.of_nat k * n + n) t) t) by lia.
  replace (Z.to_nat (Z.of_nat k * n)) with (k * Z.to_nat n)%nat by nia.
  destruct (Z.le_ge_cases (Z.of_nat k * n + n) t) as [Le|Ge].
  - rewrite Z.min_l by lia. f_equal. lia.
  - rewrite Z.min_r by lia.
    rewrite (firstn_all2 (n := Z.to_nat n)).
    + apply firstn_all2. rewrite length_skipn. subst t. nia.
    + rewrite length_skipn. subst t. nia.
Qed.

Lemma totalChunks_bounds t :
  0 <= t ->
  0 <= totalChunks t
  /\ t <= totalChunks t * PROSPECT_CHUNK_SIZE
  /\ (totalChunks t - 1) * PROSPECT_CHUNK_SIZE < t \/ t = 0 /\ totalChunks t = 0.
Proof.
  intros T. unfold totalChunks.
  assert (C : 0 < PROSPECT_CHUNK_SIZE) by reflexivity.
  set (n := PROSPECT_CHUNK_SIZE) in *. clearbody n.
  pose proof (Z.div_mod (t + n - 1) n ltac:(lia)) as D.
  pose proof (Z.mod_pos_bound (t + n - 1) n C) as M.
  destruct (Z.eq_dec t 0) as [->|Nz].
  - right. split; [reflexivity|]. apply Z.div_small. lia.
  - left. nia.
Qed.

Lemma file_result_prospect env m f r :
  In r (fileResults env m f) ->
  exists p, In p (prospects m) /\ id p = prospect_id r
            /\ prospect_name r = name p /\ company_name r = company p.
Proof.
  unfold fileResults.
  destruct (processFileLinear env m (originalname f) (source f))
    as [rs|] eqn:E; [|intros []].
  destruct (processFileLinear_results _ _ _ _ _ E)
    as [->|[hits [I ->]]]; [intros []|].
  intros Hr. destruct (results_from_hits _ _ _ _ _ I Hr) as [h [Hin Hc]].
  destruct (classifyHit_facts _ _ _ _ _ _ (proj2 I _ _ Hin) Hc)
    as [Pid [_ [[p [Hp [Ip Np]]] _]]].
  exists p. split; [exact Hp|]. split; [congruence | exact Np].
Qed.

Lemma prospects_buildAutomaton all : prospects (buildAutomaton all) = all.
Proof.
  unfold buildAutomaton. destruct (buildPatterns all). reflexivity.
Qed.

Lemma chunkIndices_range all k :
  In k (chunkIndices all) ->
  exists i, k = Z.of_nat i
            /\ Z.of_nat i * PROSPECT_CHUNK_SIZE < Z.of_nat (length all).
Proof.
  unfold chunkIndices. intros Hk. apply in_map_iff in Hk.
  destruct Hk as [i [<- Hi]]. apply in_seq in Hi. exists i.
  split; [reflexivity|].
  destruct (totalChunks_bounds (Z.of_nat (length all)) ltac:(lia))
    as [[T0 [_ T]]|[_ T]].
  - assert (C : 0 < PROSPECT_CHUNK_SIZE) by reflexivity.
    set (n := PROSPECT_CHUNK_SIZE) in *. clearbody n. nia.
  - rewrite T in Hi. simpl in Hi. lia.
Qed.

(** X18. [processMatchingLinearChunked] cuts the prospects into
    consecutive chunks that together are the whole list in order: no
    prospect is left out or handled twice, no chunk is empty, and none
    holds more than 50000 prospects.  Every match of a chunk names a
    prospect of that chunk, whose name and company it carries. *)
Theorem X18_prospect_chunks env all secFiles :
  concat (map (chunkProspects all) (chunkIndices all)) = all
  /\ (forall k, In k (chunkIndices all) ->
        0 < Z.of_nat (length (chunkProspects all k))
        <= PROSPECT_CHUNK_SIZE)
  /\ (forall k ms r,
        nth_error (chunkedMatches env all secFiles) k = Some ms ->
        In r ms ->
        exists p, In p (chunkProspects all (Z.of_nat k))
                  /\ id p = prospect_id r
                  /\ prospect_name r = name p
                  /\ company_name r = company p).
Proof.
  assert (C : 0 < PROSPECT_CHUNK_SIZE) by reflexivity.
  assert (Piece : forall i,
    In i (seq 0 (Z.to_nat (totalChunks (Z.of_nat (length all))))) ->
    chunkProspects all (Z.of_nat i)
    = firstn (Z.to_nat PROSPECT_CHUNK_SIZE)
             (skipn (i * Z.to_nat PROSPECT_CHUNK_SIZE) all)).
  { intros i Hi. apply chunkProspects_piece.
    destruct (chunkIndices_range all (Z.of_nat i)) as [j [E L]].
    - unfold chunkIndices. apply in_map. exact Hi.
    - apply Nat2Z.inj in E. subst j. lia. }
  split; [|split].
  - unfold chunkIndices. rewrite map_map.
    rewrite (map_ext_in _ _ _ Piece).
    apply pieces_concat; [lia|].
    destruct (totalChunks_bounds (Z.of_nat (length all)) ltac:(lia))
      as [[T0 [T _]]|[T _]].
    + set (n := PROSPECT_CHUNK_SIZE) in *. clearbody n.
      set (c := totalChunks _) in *. clearbody c. nia.
    + lia.
  - intros k Hk. destruct (chunkIndices_range all k Hk) as [i [-> L]].
    rewrite chunkProspects_piece by lia.
    rewrite length_firstn, length_skipn.
    set (n := PROSPECT_CHUNK_SIZE) in *. clearbody n. nia.
  - intros k ms r Hk Hr. unfold chunkedMatches, chunkIndices in Hk.
    rewrite map_map in Hk. rewrite nth_error_map in Hk.
    destruct (nth_error (seq 0 _) k) as [i|] eqn:Ei; [|discriminate].
    assert (i = k).
    { pose proof (nth_error_Some (seq 0 (Z.to_nat (totalChunks
        (Z.of_nat (length all))))) k) as B.
      rewrite Ei in B. rewrite length_seq in B.
      rewrite nth_error_nth' with (d := 0%nat) in Ei
        by (rewrite length_seq; apply B; discriminate).
      rewrite seq_nth in Ei by (apply B; discriminate).
      injection Ei as <-. reflexivity. }
    subst i. simpl in Hk. injection Hk as <-.
    rewrite batch_flat in Hr. apply dedup_in in Hr.
    apply in_flat_map in Hr. destruct Hr as [f [_ Hrf]].
    apply file_result_prospect in Hrf.
    rewrite prospects_buildAutomaton in Hrf. exact Hrf.
Qed.

(** ** The kind of a pattern entry *)

Lemma registerVariation_kind ty pid st v :
  kindOf (vtype v) = ty ->
  kindInvariant st -> kindInvariant (registerVariation ty pid st v).
Proof.
  destruct st as [pm ks]. intros Kd I t info.
  unfold registerVariation. cbn [fst].
  destruct (list_eq_dec ascii_dec (text v) t) as [<-|Ne].
  - rewrite get_set_same. intros E. injection E as <-.
    cbn [variations ptype].
    destruct (JsMap.get (text v) pm) as [old|] eqn:G.
    + pose proof (I _ _ G) as Io.
      destruct (variations old) as [|pv rest]; [destruct Io | exact Io].
    + cbn [variations ptype app pv_variation]. congruence.
  - rewrite get_set_other by exact Ne. apply I.
Qed.

Lemma registerVariations_kind ty pid vs st :
  Forall (fun v => kindOf (vtype v) = ty) vs ->
  kindInvariant st ->
  kindInvariant (fold_left (registerVariation ty pid) vs st).
Proof.
  intros F. revert st. induction F as [|v vs Kd F IH]; intros st I.
  - exact I.
  - simpl. apply IH. apply registerVariation_kind; assumption.
Qed.

Lemma name_patterns_kind fullName :
  Forall (fun v => kindOf (vtype v) = NamePattern)
         (generateNamePatterns fullName).
Proof.
  unfold generateNamePatterns. cbv zeta.
  destruct (_ <? 2); [constructor|].
  destruct (_ || _); repeat constructor.
Qed.

Lemma company_patterns_kind companyName :
  Forall (fun v => kindOf (vtype v) = CompanyPattern)
         (generateCompanyPatterns companyName).
Proof.
  apply Forall_forall. intros v Hv.
  destruct (company_pattern_facts _ _ Hv) as [-> _]. reflexivity.
Qed.

Lemma buildPatterns_kind all : kindInvariant (buildPatterns all).
Proof.
  unfold buildPatterns.
  assert (G : forall st, kindInvariant st ->
                         kindInvariant (fold_left registerProspect all st)).
  { induction all as [|p all IH]; intros st I; [exact I|].
    simpl. apply IH. unfold registerProspect.
    apply registerVariations_kind; [apply company_patterns_kind|].
    apply registerVariations_kind; [apply name_patterns_kind | exact I]. }
  apply G. intros t info E. discriminate E.
Qed.

Lemma entry_kind all t info :
  JsMap.get t (patternMap (buildAutomaton all)) = Some info ->
  exists pv rest,
    variationsFor t (allDerivations all) = pv :: rest
    /\ ptype info = kindOf (vtype (pv_variation pv)).
Proof.
  unfold buildAutomaton.
  pose proof (buildPatterns_invariant all) as [_ [_ B]].
  pose proof (buildPatterns_kind all) as K.
  destruct (buildPatterns all) as [pm ks]. cbn [fst snd patternMap] in *.
  intros E. specialize (B t). rewrite E in B. destruct B as [V _].
  specialize (K t info E). rewrite V in K.
  destruct (variationsFor t (allDerivations all)) as [|pv rest];
    [destruct K|].
  exists pv, rest. split; [reflexivity | exact K].
Qed.

Lemma stats_fold (pm : JsMap.t PatternInfo) n c :
  fold_left
    (fun counts entry =>
       let '(nameCount, companyCount) := counts in
       let '(_, info) := entry in
       (if isPatternType NamePattern info then nameCount + 1 else nameCount,
        if isPatternType CompanyPattern info then companyCount + 1
        else companyCount))
    pm (n, c)
  = (n + Z.of_nat (length (filter (fun e => isPatternType NamePattern (snd e))
                                  pm)),
     c + Z.of_nat (length (filter (fun e => isPatternType CompanyPattern
                                                          (snd e)) pm))).
Proof.
  revert n c. induction pm as [|[k info] pm IH]; intros n c.
  - simpl. f_equal; lia.
  - cbn [fold_left filter snd]. rewrite IH.
    destruct (isPatternType NamePattern info),
             (isPatternType CompanyPattern info);
      cbn [length]; f_equal; lia.
Qed.

Lemma stats_total (pm : JsMap.t PatternInfo) :
  (length (filter (fun e => isPatternType NamePattern (snd e)) pm)
   + length (filter (fun e => isPatternType CompanyPattern (snd e)) pm)
   = length pm)%nat.
Proof.
  induction pm as [|[k info] pm IH]; [reflexivity|].
  cbn [filter snd].
  destruct (isPatternType NamePattern info) eqn:A,
           (isPatternType CompanyPattern info) eqn:B;
    cbn [length]; try lia;
    unfold isPatternType in A, B; destruct (ptype info); discriminate.
Qed.

Lemma filter_map_length {A B : Type} (f : A -> bool) (g : B -> bool)
      (h : A -> B) (l : list A) :
  (forall x, In x l -> f x = g (h x)) ->
  length (filter f l) = length (filter g (map h l)).
Proof.
  induction l as [|x l IH]; intros H; [reflexivity|].
  simpl. rewrite <- (H x (or_introl eq_refl)).
  destruct (f x); simpl; rewrite IH; auto; intros y Hy; apply H; right;
    exact Hy.
Qed.

(** X20. After [buildAutomaton] the two counters of [getPatternStats]
    add up to the number of keywords of the automaton: every entry of the
    pattern map is counted once, as a name or as a company.  The type of
    an entry is the kind of the first derivation of its text in
    generation order, so a text that is both a name pattern and a company
    root is counted under the kind that was generated first. *)
Theorem X20_pattern_stats all :
  let m := buildAutomaton all in
  fst (getPatternStats m) + snd (getPatternStats m)
  = Z.of_nat (length (keywords (automaton m)))
  /\ fst (getPatternStats m)
     = Z.of_nat (length (filter (firstKind all NamePattern)
                                (keywords (automaton m))))
  /\ snd (getPatternStats m)
     = Z.of_nat (length (filter (firstKind all CompanyPattern)
                                (keywords (automaton m))))
  /\ forall t info,
       JsMap.get t (patternMap m) = Some info ->
       exists pv rest,
         variations info = pv :: rest
         /\ variationsFor t (allDerivations all) = pv :: rest
         /\ ptype info = kindOf (vtype (pv_variation pv)).
Proof.
  intros m.
  assert (Ek : forall ty k info, In (k, info) (patternMap m) ->
            isPatternType ty info = firstKind all ty k).
  { intros ty k info Hin.
    assert (N : NoDup (JsMap.keys (patternMap m))).
    { subst m. unfold buildAutomaton.
      pose proof (buildPatterns_invariant all) as [K [N _]].
      destruct (buildPatterns all) as [pm ks]. cbn [fst snd patternMap] in *.
      rewrite K. exact N. }
    pose proof (get_in_nodup _ _ _ N Hin) as G.
    destruct (entry_kind all k info G) as [pv [rest [V P]]].
    unfold isPatternType, firstKind. rewrite V, P. reflexivity. }
  assert (Keys : JsMap.keys (patternMap m) = keywords (automaton m)).
  { subst m. unfold buildAutomaton.
    pose proof (buildPatterns_invariant all) as [K _].
    destruct (buildPatterns all) as [pm ks]. exact K. }
  assert (Cnt : forall ty,
    length (filter (fun e => isPatternType ty (snd e)) (patternMap m))
    = length (filter (firstKind all ty) (keywords (automaton m)))).
  { intros ty. rewrite <- Keys. unfold JsMap.keys.
    apply filter_map_length. intros [k info] Hin. apply (Ek ty k info Hin). }
  unfold getPatternStats. rewrite stats_fold. cbn [fst snd].
  rewrite !Cnt.
  split; [|split; [reflexivity | split; [reflexivity|]]].
  - rewrite <- !Cnt. rewrite <- Keys. unfold JsMap.keys.
    rewrite length_map.
    pose proof (stats_total (patternMap m)). lia.
  - intros t info G. destruct (entry_kind all t info G) as [pv [rest [V P]]].
    exists pv, rest. split; [|split; [exact V | exact P]].
    subst m. unfold buildAutomaton in G.
    pose proof (buildPatterns_invariant all) as [_ [_ B]].
    destruct (buildPatterns all) as [pm ks]. cbn [fst snd patternMap] in *.
    specialize (B t). rewrite G in B. destruct B as [B _]. congruence.
Qed.

(** ** The chunk files *)

Lemma batch_one_context env all secFiles r :
  In r (processMatchingLinear env all secFiles) -> oneContext r.
Proof.
  rewrite batch_flat. intros Hr. apply dedup_in in Hr.
  apply in_flat_map in Hr. destruct Hr as [f [_ Hrf]].
  apply (file_result_facts _ _ _ _ Hrf).
Qed.

(** X19. The column context_snippets that [writeChunkToCSV] writes never
    holds a character of a context: it reads the field text, which the
    context objects do not have, so a match with n contexts gets n - 1
    separators and nothing else.  For the matches of a chunk, which carry
    exactly one context each, the column is empty. *)
Theorem X19_context_snippets env all secFiles :
  (forall r, context_snippets r
             = concat (repeat (str " | ") (length (m_contexts r) - 1)))
  /\ (forall k ms r,
        nth_error (chunkedMatches env all secFiles) k = Some ms ->
        In r ms -> context_snippets r = []).
Proof.
  assert (G : forall r, context_snippets r
             = concat (repeat (str " | ") (length (m_contexts r) - 1))).
  { intros r. unfold context_snippets.
    induction (m_contexts r) as [|c cs IH]; [reflexivity|].
    cbn [map join length]. destruct cs as [|c' cs]; [reflexivity|].
    cbn [map] in *. rewrite IH. cbn [length Nat.sub repeat concat c_text].
    rewrite Nat.sub_0_r. reflexivity. }
  split; [exact G|].
  intros k ms r Hk Hr. unfold chunkedMatches in Hk.
  rewrite nth_error_map in Hk.
  destruct (nth_error (chunkIndices all) k) as [i|]; [|discriminate].
  injection Hk as <-. apply batch_one_context in Hr.
  destruct Hr as [c [E _]]. rewrite G, E. reflexivity.
Qed.

(** ** Every hit stands for an occurrence *)

Lemma search_sound a text e ps p :
  In (e, ps) (search a text) -> In p ps ->
  In p (keywords a) /\ endsAt text e p = true /\ 0 <= e < len text.
Proof.
  unfold search. intros H Hp. apply in_flat_map in H.
  destruct H as [e' [He H]].
  destruct (sortBy (fun p q => len q - len p)
                   (filter (endsAt text e') (keywords a)))
    as [|q qs] eqn:S; [destruct H|].
  destruct H as [H|[]]. inversion H; subst e' ps. clear H.
  rewrite <- S in Hp.
  apply (Permutation_in _ (Permutation_sym (sortBy_perm _ _))) in Hp.
  apply filter_In in Hp. destruct Hp as [K En].
  split; [exact K|]. split; [exact En|].
  unfold indices in He. apply in_map_iff in He.
  destruct He as [i [<- Hi]]. apply in_seq in Hi. unfold len. lia.
Qed.

Lemma endsAt_split text e p :
  endsAt text e p = true -> 0 <= e < len text ->
  exists pre post, text = pre ++ p ++ post
                   /\ len pre = e - len p + 1.
Proof.
  unfold endsAt. cbv zeta. intros H He. apply andb_true_iff in H.
  destruct H as [S E]. apply Z.leb_le in S. apply str_eqb_eq in E.
  pose proof (len_nonneg p) as Lp.
  set (s := e - len p + 1) in *.
  unfold slice, clamp_index in E.
  destruct (Z.ltb_spec s 0); [lia|].
  destruct (Z.ltb_spec (e + 1) 0); [lia|].
  rewrite (Z.min_l s) in E by lia. rewrite (Z.min_l (e + 1)) in E by lia.
  exists (firstn (Z.to_nat s) text),
         (skipn (Z.to_nat (e + 1 - s)) (skipn (Z.to_nat s) text)).
  split.
  - rewrite <- E. rewrite firstn_skipn, firstn_skipn. reflexivity.
  - unfold len in *. rewrite length_firstn. lia.
Qed.

Lemma pushContext_flag text pb s e pattern ty h ty' :
  flagOf ty' (pushContext text pb s e pattern ty h) = flagOf ty' h.
Proof.
  unfold pushContext. destruct (_ <? 1); destruct ty'; reflexivity.
Qed.

Lemma markHit_flag ty h ty' :
  flagOf ty' (markHit ty h) = true -> ty' = ty \/ flagOf ty' h = true.
Proof. destruct ty, ty'; simpl; auto. Qed.

Lemma recordVariation_sound (Q : PatternType -> jsstring -> Prop)
      text pb s e pattern info hits pv :
  (forall pid h ty, JsMap.get pid hits = Some h -> flagOf ty h = true ->
                    Q ty pid) ->
  (failsInitialCheck text s e info (pv_variation pv) = false ->
   Q (ptype info) (pv_prospectId pv)) ->
  forall pid h ty,
    JsMap.get pid (recordVariation text pb s e pattern info hits pv)
    = Some h ->
    flagOf ty h = true -> Q ty pid.
Proof.
  intros P Ev pid h ty. unfold recordVariation.
  set (q := pv_prospectId pv) in *.
  assert (P1 : forall pid h ty,
    JsMap.get pid match JsMap.get q hits with
                  | Some _ => hits
                  | None => JsMap.set q emptyHit hits
                  end = Some h ->
    flagOf ty h = true -> Q ty pid).
  { intros pid' h' ty'. destruct (JsMap.get q hits) eqn:G; [apply P|].
    destruct (list_eq_dec ascii_dec q pid') as [<-|Ne].
    - rewrite get_set_same. intros E. injection E as <-.
      destruct ty'; discriminate.
    - rewrite get_set_other by exact Ne. apply P. }
  destruct (failsInitialCheck text s e info (pv_variation pv)) eqn:F;
    [apply P1|].
  destruct (list_eq_dec ascii_dec q pid) as [<-|Ne].
  - rewrite get_set_same. intros E. injection E as <-.
    rewrite pushContext_flag. intros Fl.
    apply markHit_flag in Fl. destruct Fl as [->|Fl]; [apply Ev; reflexivity|].
    destruct (JsMap.get q hits) as [h0|] eqn:G.
    + apply (P q h0 ty G Fl).
    + destruct ty; discriminate.
  - rewrite get_set_other by exact Ne. apply P1.
Qed.

Lemma fold_sound {X : Type} (Q : PatternType -> jsstring -> Prop)
      (f : JsMap.t Hit -> X -> JsMap.t Hit) (xs : list X)
      (hits : JsMap.t Hit) :
  (forall hs x, In x xs ->
     (forall pid h ty, JsMap.get pid hs = Some h -> flagOf ty h = true ->
                       Q ty pid) ->
     forall pid h ty, JsMap.get pid (f hs x) = Some h ->
                      flagOf ty h = true -> Q ty pid) ->
  (forall pid h ty, JsMap.get pid hits = Some h -> flagOf ty h = true ->
                    Q ty pid) ->
  forall pid h ty, JsMap.get pid (fold_left f xs hits) = Some h ->
                   flagOf ty h = true -> Q ty pid.
Proof.
  revert hits. induction xs as [|x xs IH]; intros hits F P; [exact P|].
  simpl. apply IH.
  - intros hs y Hy. apply F. right. exact Hy.
  - apply F; [left; reflexivity | exact P].
Qed.

Lemma onData_sound m ws st chunk :
  justified m ws (prospectHits st) ->
  justified m (ws ++ [previousOverlap st ++ chunk])
            (prospectHits (onData m st chunk)).
Proof.
  intros J. unfold onData. cbn [prospectHits]. unfold justified.
  set (w := previousOverlap st ++ chunk).
  set (Q := fun ty pid =>
              exists w0, In w0 (ws ++ [w]) /\ occursFor m ty pid w0).
  change (forall pid h ty,
    JsMap.get pid
      (fold_left
         (fun hits '(endIndex, matchedPatterns) =>
            fold_left
              (recordPattern (patternMap m) (normalizeText w)
                             (processedBytes st) endIndex)
              matchedPatterns hits)
         (search (automaton m) (normalizeText w)) (prospectHits st))
    = Some h -> flagOf ty h = true -> Q ty pid).
  apply fold_sound.
  - intros hs [e ps] He P. apply fold_sound; [|exact P].
    intros hs' p Hp P'. unfold recordPattern.
    destruct (JsMap.get p (patternMap m)) as [info|] eqn:G; [|exact P'].
    destruct (hasValidWordBoundaries (normalizeText w) (e - len p + 1)
                                     (e + 1)) eqn:V; [|exact P'].
    cbn [negb]. apply fold_sound; [|exact P'].
    intros hs'' pv Hpv P''. apply recordVariation_sound; [exact P''|].
    intros F. destruct (search_sound _ _ _ _ _ He Hp) as [K [En R]].
    destruct (endsAt_split _ _ _ En R) as [pre [post [T L]]].
    exists w. split; [apply in_or_app; right; left; reflexivity|].
    exists pre, p, post, info, pv.
    replace (len pre + len p) with (e + 1) by lia.
    replace (e + 1 - 1) with e by lia. rewrite L.
    repeat (split; [first [assumption | reflexivity]|]). exact F.
  - intros pid h ty G Fl. destruct (J pid h ty G Fl) as [w0 [Hw O]].
    exists w0. split; [apply in_or_app; left; exact Hw | exact O].
Qed.

Lemma chunks_sound m cs ws st :
  justified m ws (prospectHits st) ->
  justified m (ws ++ windowsFrom (previousOverlap st) cs)
            (prospectHits (fold_left (onData m) cs st)).
Proof.
  revert ws st. induction cs as [|c cs IH]; intros ws st J.
  - simpl. rewrite app_nil_r. exact J.
  - cbn [fold_left windowsFrom].
    replace (ws ++ (previousOverlap st ++ c)
                :: windowsFrom
                     (if OVERLAP_SIZE <? len (previousOverlap st ++ c)
                      then slice_from (previousOverlap st ++ c)
                                      (- OVERLAP_SIZE)
                      else previousOverlap st) cs)
      with ((ws ++ [previousOverlap st ++ c])
              ++ windowsFrom (previousOverlap (onData m st c)) cs)
      by (rewrite <- app_assoc; reflexivity).
    apply IH, onData_sound, J.
Qed.

(** X21. No match without an occurrence: when a document has been read
    to its end, every reported prospect has, in one of the windows the
    handler searched, a keyword of an entry of type name that carries a
    variation of this prospect, standing between word boundaries and
    passing the initial check; a Name + Company match has such an
    occurrence for an entry of type company as well. *)
Theorem X21_match_has_occurrence env m filename cs rs r :
  processFileLinear env m filename (Opened (streamOf cs SEnd))
  = Resolved rs ->
  In r rs ->
  (exists w, In w (windowsFrom [] cs)
             /\ occursFor m NamePattern (prospect_id r) w)
  /\ (match_type r = NameAndCompany ->
      exists w, In w (windowsFrom [] cs)
                /\ occursFor m CompanyPattern (prospect_id r) w).
Proof.
  unfold processFileLinear. rewrite runStream_end. intros E Hr.
  injection E as <-.
  pose proof (chunks_invariant m cs initialScanState initial_invariant) as I.
  assert (J : justified m ([] ++ windowsFrom [] cs)
                (prospectHits (fold_left (onData m) cs initialScanState))).
  { apply (chunks_sound m cs [] initialScanState).
    intros pid h ty G. discriminate G. }
  cbn [app] in J.
  destruct (results_from_hits _ _ _ _ _ I Hr) as [h [Hin Hc]].
  destruct (classifyHit_facts _ _ _ _ _ _ (proj2 I _ _ Hin) Hc)
    as [_ [_ [_ [N [T _]]]]].
  pose proof (get_in_nodup _ _ _ (proj1 I) Hin) as G.
  split.
  - apply (J _ h NamePattern G N).
  - intros Mt. destruct T as [[C _]|[_ [Mt' _]]]; [|congruence].
    apply (J _ h CompanyPattern G C).
Qed.

(** ** The further theorems at concrete inputs *)






Lemma X7_one_context_witness :
  let f := document "a.txt" [str "Aaron Davis joined Davis Corp."] in
  let m := buildAutomaton [aaronDavis] in
  processFileLinear sampleEnv m (originalname f) (source f)
  = Resolved (fileResults sampleEnv m f)
  /\ forall r, In r (fileResults sampleEnv m f) ->
       exists c, m_contexts r = [c] /\ len (c_context c) <= 63.
Proof.
  intros f m.
  assert (E : processFileLinear sampleEnv m (originalname f) (source f)
              = Resolved (fileResults sampleEnv m f))
    by (vm_compute; reflexivity).
  split; [exact E|].
  apply (X7_one_context _ _ _ _ _ E).
Defined.

Lemma X8_more_chunks_witness :
  let m := buildAutomaton [aaronDavis] in
  let short := document "a.txt" [str "Aaron Davis joined"] in
  let long := document "a.txt" [str "Aaron Davis joined"; str " Davis Corp."] in
  processFileLinear sampleEnv m (str "a.txt")
                    (Opened (streamOf [str "Aaron Davis joined"] SEnd))
  = Resolved (fileResults sampleEnv m short)
  /\ forall r, In r (fileResults sampleEnv m short) ->
       exists r', In r' (fileResults sampleEnv m long)
                  /\ prospect_id r' = prospect_id r
                  /\ confidence r <= confidence r'.
Proof.
  intros m short long.
  assert (E : processFileLinear sampleEnv m (str "a.txt")
                (Opened (streamOf [str "Aaron Davis joined"] SEnd))
              = Resolved (fileResults sampleEnv m short))
    by (vm_compute; reflexivity).
  assert (E' : processFileLinear sampleEnv m (str "a.txt")
                 (Opened (streamOf ([str "Aaron Davis joined"]
                                      ++ [str " Davis Corp."]) SEnd))
               = Resolved (fileResults sampleEnv m long))
    by (vm_compute; reflexivity).
  split; [exact E|].
  apply (X8_more_chunks _ _ _ _ _ _ _ E E').
Defined.

Lemma X9_window_complete_witness :
  let m := buildAutomaton [aaronDavis] in
  normalizeText (previousOverlap initialScanState
                   ++ str "Aaron Davis joined.")
  = [] ++ str "aaron davis" ++ str " joined"
  /\ flagged NamePattern (str "1")
             (prospectHits (onData m initialScanState
                                   (str "Aaron Davis joined."))).
Proof.
  intros m.
  set (info := match JsMap.get (str "aaron davis") (patternMap m) with
               | Some i => i
               | None => {| ptype := CompanyPattern; prospectIds := [];
                            variations := [] |}
               end).
  assert (T : normalizeText (previousOverlap initialScanState
                               ++ str "Aaron Davis joined.")
              = [] ++ str "aaron davis" ++ str " joined")
    by (vm_compute; reflexivity).
  assert (G : JsMap.get (str "aaron davis") (patternMap m) = Some info)
    by (vm_compute; reflexivity).
  assert (V : hasValidWordBoundaries
                ([] ++ str "aaron davis" ++ str " joined")
                (len []) (len [] + len (str "aaron davis")) = true)
    by (vm_compute; reflexivity).
  assert (I : hitsInvariant (prospectHits initialScanState))
    by (split; [constructor | intros ? ? []]).
  assert (P : In (str "1") (prospectIds info))
    by (vm_compute; left; reflexivity).
  split; [exact T|].
  exact (X9_window_complete [aaronDavis] initialScanState
           (str "Aaron Davis joined.") [] (str "aaron davis")
           (str " joined") info (str "1") T G V I P).
Defined.

Lemma X11_batch_output_witness :
  let files := [document "a.txt" [str "Aaron Davis joined Davis Corp."]] in
  exists r f,
    In r (processMatchingLinear sampleEnv [aaronDavis] files)
    /\ In f files /\ sec_filing r = originalname f.
Proof.
  intros files.
  assert (Hne : exists r,
            In r (processMatchingLinear sampleEnv [aaronDavis] files))
    by (vm_compute; eexists; left; reflexivity).
  destruct Hne as [r Hr].
  destruct (proj1 (X11_batch_output sampleEnv [aaronDavis] files) r Hr)
    as [f [Hf [_ Es]]].
  exists r, f. split; [exact Hr|]. split; [exact Hf | exact Es].
Defined.

Lemma X12_scan_bookkeeping_witness :
  let m := buildAutomaton [aaronDavis] in
  let big := repeat "a"%char 2001 in
  previousOverlap (scanChunks m [str "abc"; str "de"]) = []
  /\ len (previousOverlap (scanChunks m [str "abc"; big])) = OVERLAP_SIZE.
Proof.
  intros m big. split.
  - apply (proj1 (proj2 (X12_scan_bookkeeping m [str "abc"; str "de"]))).
    repeat constructor; vm_compute; discriminate.
  - apply (proj2 (proj2 (X12_scan_bookkeeping m [str "abc"; big]))).
    apply Exists_cons_tl, Exists_cons_hd. vm_compute. reflexivity.
Defined.

Lemma X13_dedup_per_key_witness :
  let weak := mkResult "1" "a.txt" NameOnly 75 in
  let strong := mkResult "1" "a.txt" NameAndCompany 95 in
  exists r, In r (deduplicateMatches [weak; strong])
            /\ dedupKey r = dedupKey weak /\ beats r weak.
Proof.
  intros weak strong.
  apply (proj1 (proj2 (proj2 (X13_dedup_per_key [weak; strong])))).
  left. reflexivity.
Defined.

Lemma X14_dedup_distinct_keys_witness :
  let ms := [ mkResult "1" "a.txt" NameOnly 75;
              mkResult "2" "a.txt" NameAndCompany 95 ] in
  NoDup (map dedupKey ms)
  /\ Permutation ms (deduplicateMatches ms).
Proof.
  intros ms.
  assert (N : NoDup (map dedupKey ms)).
  { vm_compute. constructor.
    - intros [H|[]]. discriminate H.
    - constructor; [intros [] | constructor]. }
  split; [exact N|].
  apply (proj2 (X14_dedup_distinct_keys ms N)).
Defined.

Lemma X15_dedup_groups_witness :
  let weak := mkResult "1" "a.txt" NameOnly 75 in
  let strong := mkResult "1" "a.txt" NameAndCompany 95 in
  exists r, In r (deduplicateMatches [weak; strong])
            /\ sameGroup r weak /\ beats r weak.
Proof.
  intros weak strong.
  assert (C : forall m, In m [weak; strong] -> ~ In colon (prospect_id m)).
  { intros m [<-|[<-|[]]]; vm_compute; intros [H|[]]; discriminate H. }
  destruct (X15_dedup_groups [weak; strong] C weak (or_introl eq_refl))
    as [r [Hr [G [B _]]]].
  exists r. split; [exact Hr|]. split; [exact G | exact B].
Defined.

Lemma X16_createSECUrl_witness :
  createSECUrl (secFilename (str "0001234567") (str "24") (str "000123"))
  = Some (secUrlPrefix ++ numericCik (str "0001234567") ++ str "/"
          ++ str "0001234567" ++ str "24" ++ str "000123" ++ str ".txt").
Proof.
  apply (proj1 X16_createSECUrl); reflexivity.
Defined.


Lemma X18_prospect_chunks_witness :
  In 0 (chunkIndices [aaronDavis; aaronMDavis])
  /\ 0 < Z.of_nat (length (chunkProspects [aaronDavis; aaronMDavis] 0))
     <= PROSPECT_CHUNK_SIZE.
Proof.
  assert (H : In 0 (chunkIndices [aaronDavis; aaronMDavis]))
    by (vm_compute; left; reflexivity).
  split; [exact H|].
  apply (proj1 (proj2 (X18_prospect_chunks sampleEnv
                         [aaronDavis; aaronMDavis] [])) 0 H).
Defined.

Lemma X19_context_snippets_witness :
  let files := [document "a.txt" [str "Aaron Davis joined Davis Corp."]] in
  let ms := processMatchingLinear sampleEnv
              (chunkProspects [aaronDavis] 0) files in
  nth_error (chunkedMatches sampleEnv [aaronDavis] files) 0 = Some ms
  /\ exists r, In r ms /\ context_snippets r = [].
Proof.
  intros files ms.
  assert (K : nth_error (chunkedMatches sampleEnv [aaronDavis] files) 0
              = Some ms) by (vm_compute; reflexivity).
  assert (Hne : exists r, In r ms)
    by (vm_compute; eexists; left; reflexivity).
  split; [exact K|]. destruct Hne as [r Hr]. exists r.
  split; [exact Hr|].
  apply (proj2 (X19_context_snippets sampleEnv [aaronDavis] files)
           0%nat ms r K Hr).
Defined.

Lemma X20_pattern_stats_witness :
  let m := buildAutomaton [aaronDavis; aaronMDavis] in
  exists info pv rest,
    JsMap.get (str "aaron davis") (patternMap m) = Some info
    /\ variations info = pv :: rest
    /\ ptype info = kindOf (vtype (pv_variation pv)).
Proof.
  intros m.
  assert (G : exists info,
            JsMap.get (str "aaron davis") (patternMap m) = Some info)
    by (vm_compute; eexists; reflexivity).
  destruct G as [info G].
  destruct (proj2 (proj2 (proj2
              (X20_pattern_stats [aaronDavis; aaronMDavis])))
              (str "aaron davis") info G)
    as [pv [rest [V [_ K]]]].
  exists info, pv, rest. split; [exact G|]. split; [exact V | exact K].
Defined.

Lemma X21_match_has_occurrence_witness :
  let m := buildAutomaton [aaronDavis] in
  let cs := [str "Aaron Davis joined Davis Corp."] in
  let f := document "a.txt" cs in
  processFileLinear sampleEnv m (str "a.txt") (Opened (streamOf cs SEnd))
  = Resolved (fileResults sampleEnv m f)
  /\ exists r w,
       In r (fileResults sampleEnv m f)
       /\ In w (windowsFrom [] cs)
       /\ occursFor m NamePattern (prospect_id r) w.
Proof.
  intros m cs f.
  assert (E : processFileLinear sampleEnv m (str "a.txt")
                                (Opened (streamOf cs SEnd))
              = Resolved (fileResults sampleEnv m f))
    by (vm_compute; reflexivity).
  assert (Hne : exists r, In r (fileResults sampleEnv m f))
    by (vm_compute; eexists; left; reflexivity).
  split; [exact E|]. destruct Hne as [r Hr].
  destruct (proj1 (X21_match_has_occurrence _ _ _ _ _ r E Hr))
    as [w [Hw O]].
  exists r, w. split; [exact Hr|]. split; [exact Hw | exact O].
Defined.
